(** * VSortNode: the vectorized sort operator (be/src/vec/exec/vsort_node.cpp)

    A shallow embedding of [VSortNode] and a verification of the properties
    its specification states: the build phase ([sort_input], [partial_sort]),
    the top-N admission logic, the k-way merge ([build_merge_tree],
    [merge_sort_read]) and the two [get_next] overloads.

    Blocks are column-major in the engine; every operation the operator uses
    (row count, append, slice, swap, truncate, row-wise insert) acts on whole
    rows, so a block is embedded as the list of its rows. *)

From Stdlib Require Import String.
From Stdlib Require Import ZArith List Bool Lia Permutation Sorted PeanoNat.
Import ListNotations.
Open Scope Z_scope.

(** ** Rows, blocks and status values *)

(** A cell is a nullable integer; a row is the list of its cells. *)
Definition Row := list (option Z).
Definition Block := list Row.

Definition rows (b : Block) : Z := Z.of_nat (length b).

Inductive Status :=
| OK
| Cancelled
| NotSupported (msg : string)
| UpstreamError (code : Z)
| QueryStateError (code : Z)
| ExpressionError (code : Z).

(** What a call yields: a status, or undefined behaviour of the C++ program
    (here: [top()] of an empty [std::priority_queue]). *)
Inductive Result :=
| Returned (s : Status)
| Undefined.

(** ** Sort description and comparator *)

Record SortColumnDescription := mkSortColumn {
  column_number : nat;
  direction : Z;
  nulls_direction : Z
}.

Definition SortDescription := list SortColumnDescription.

Definition native_compare (a b : Z) : Z :=
  match a ?= b with Lt => -1 | Eq => 0 | Gt => 1 end.

(** The value of a 64-bit signed integer computation that wraps around. *)
Definition wrap_int64 (x : Z) : Z := (x + 2 ^ 63) mod 2 ^ 64 - 2 ^ 63.

(** Modelled from the spec: the per-column comparison of the cursor
    comparator (vec/core/sort_cursor.h is not part of the sources).  The
    column compares two cells: two values natively; a null against a value
    by [nulls_direction], which is 1 when nulls are the greater cells and -1
    when they are the lesser ones; two nulls are equal, and the next key
    decides.  The key's [direction] scales what the column answers, for a
    null as for a value: with the encoding of lines 206-207
    ([nulls_direction = -direction] for nulls first) a null then comes
    before every value for either direction, which is what the
    specification asks of nulls first (section 8, null placement). *)
Definition compare_cells (nulls_direction : Z) (a b : option Z) : Z :=
  match a, b with
  | Some x, Some y => native_compare x y
  | None, Some _ => nulls_direction
  | Some _, None => - nulls_direction
  | None, None => 0
  end.

Definition compare_at (k : SortColumnDescription) (a b : Row) : Z :=
  direction k *
  compare_cells (nulls_direction k)
    (nth (column_number k) a None) (nth (column_number k) b None).

(** Modelled from the spec: the lexicographic comparison of two rows under
    a SortDescription, major key first. *)
Fixpoint compare_rows (desc : SortDescription) (a b : Row) : Z :=
  match desc with
  | [] => 0
  | k :: ks =>
      let c := compare_at k a b in
      if c =? 0 then compare_rows ks a b else c
  end.

Definition less (desc : SortDescription) (a b : Row) : bool :=
  compare_rows desc a b <? 0.

(** [row_le desc a b]: [a] does not come after [b]. *)
Definition row_le (desc : SortDescription) (a b : Row) : Prop :=
  compare_rows desc a b <= 0.

(** [a] and [b] tie under the description. *)
Definition row_tie (desc : SortDescription) (a b : Row) : Prop :=
  compare_rows desc a b = 0.

Definition wf_key (k : SortColumnDescription) : bool :=
  ((direction k =? 1) || (direction k =? -1)) &&
  ((nulls_direction k =? 1) || (nulls_direction k =? -1)).

Definition wf_desc (desc : SortDescription) : bool := forallb wf_key desc.

(** [presorted le n l]: each of the first [n] rows of [l] is at most every
    row after it.  With [n >= length l] this is sortedness of the whole
    list. *)
Fixpoint presorted {A} (le : A -> A -> Prop) (n : nat) (l : list A) : Prop :=
  match n, l with
  | O, _ => True
  | _, [] => True
  | S n', x :: l' => Forall (le x) l' /\ presorted le n' l'
  end.

(** Modelled from the spec: [sort_block] (vec/core/sort_block.h is not part
    of the sources).  The result holds the same rows, permuted.  Without a
    limit hint (a negative one) the rows are in sorted order; with a hint
    [h >= 0] the first [h] rows are the smallest ones in sorted order and
    the rows beyond them are in no particular order.  Ties are broken in an
    unspecified way, so the function itself is left open and only this
    contract is fixed. *)
Record Sorter := mkSorter {
  sort_block : Block -> SortDescription -> Z -> Block;
  sort_block_perm : forall b d h, Permutation (sort_block b d h) b;
  sort_block_full : forall b d h,
      wf_desc d = true -> h < 0 ->
      presorted (row_le d) (length b) (sort_block b d h);
  sort_block_partial : forall b d h,
      wf_desc d = true -> 0 <= h ->
      presorted (row_le d) (Z.to_nat h) (sort_block b d h)
}.

(** ** Cursors and priority queues *)

(** Modelled from the spec: [SortCursorImpl] (vec/core/sort_cursor.h is not
    part of the sources): the rows of one sorted block, the description, and
    a position that only advances. *)
Record SortCursorImpl := mkCursor {
  all_columns : Block;
  desc : SortDescription;
  pos : nat
}.

Definition new_SortCursorImpl (block : Block) (d : SortDescription) : SortCursorImpl :=
  mkCursor block d 0.

Definition cursor_rows (c : SortCursorImpl) : nat := length (all_columns c).

Definition isLast (c : SortCursorImpl) : bool :=
  (cursor_rows c <=? pos c + 1)%nat.

Definition next (c : SortCursorImpl) : SortCursorImpl :=
  mkCursor (all_columns c) (desc c) (S (pos c)).

Definition current_row (c : SortCursorImpl) : Row := nth (pos c) (all_columns c) [].

Definition first_row (c : SortCursorImpl) : Row := nth 0 (all_columns c) [].

Definition last_row (c : SortCursorImpl) : Row :=
  nth (cursor_rows c - 1) (all_columns c) [].

(** Modelled from the spec: the forward order of [SortCursor], by the
    current rows. *)
Definition cursor_before (a b : SortCursorImpl) : bool :=
  less (desc a) (current_row a) (current_row b).

(** Modelled from the spec: the reverse order of [SortBlockCursor]: the
    cursor with the greater last row comes first, so the top of that heap is
    the greatest last row. *)
Definition block_cursor_before (a b : SortCursorImpl) : bool :=
  less (desc a) (last_row b) (last_row a).

(** Modelled from the spec: [totally_greater]
    ([current_greater_or_equal_all]): the first row of [self] against the last
    row of [rhs], in forward direction. *)
Definition totally_greater (self rhs : SortCursorImpl) : bool :=
  0 <=? compare_rows (desc self) (first_row self) (last_row rhs).

(** [std::priority_queue] as the list of its elements: [pq_extract] yields
    the top (the first element that no other one precedes) and the queue
    without it; [pq_push] adds an element. *)
Fixpoint pq_extract {A} (before : A -> A -> bool) (q : list A) : option (A * list A) :=
  match q with
  | [] => None
  | x :: xs =>
      match pq_extract before xs with
      | None => Some (x, [])
      | Some (m, rest) => if before m x then Some (m, x :: rest) else Some (x, xs)
      end
  end.

Definition pq_top {A} (before : A -> A -> bool) (q : list A) : option A :=
  option_map fst (pq_extract before q).

Definition pq_push {A} (q : list A) (x : A) : list A := q ++ [x].

(** ** Collaborators *)

(** Modelled from the spec: an expression context
    (vec/exprs/vexpr_context.h is not part of the sources).  [execute]
    evaluates the expression against a block: it yields the index of the
    result column, which is the same for every block, or it fails on this
    block with an error. *)
Record VExprContext := mkExpr {
  expr_column : nat;
  expr_error : Block -> option Z
}.

(** A reference to a column: it never fails. *)
Definition column_ref (c : nat) : VExprContext := mkExpr c (fun _ => None).

(** Modelled from the spec: the sort expressions (exec/sort_exec_exprs.h is
    not part of the sources). *)
Record VSortExecExprs := mkExprs {
  need_materialize_tuple : bool;
  sort_tuple_slot_expr_ctxs : list VExprContext;
  lhs_ordering_expr_ctxs : list VExprContext
}.

(** A loop [for (i ...) RETURN_IF_ERROR(ctxs[i]->execute(&block, ...))]:
    the index of the first expression that fails on the block and its
    error, if one fails. *)
Fixpoint first_failure (ctxs : list VExprContext) (block : Block) : option (nat * Z) :=
  match ctxs with
  | [] => None
  | e :: rest =>
      match expr_error e block with
      | Some code => Some (0%nat, code)
      | None =>
          match first_failure rest block with
          | Some (i, code) => Some (S i, code)
          | None => None
          end
      end
  end.

(** Modelled from the spec: the runtime state (runtime/runtime_state.h is
    not part of the sources), and with it what the calls that [open] makes
    with this state before the build return: [ExecNode::open]
    (exec/exec_node.cpp), [VSortExecExprs::open] and the [open] of the
    child, none of them part of the sources.  The cancellation flag and the
    query state are set from outside the operator; they are given as
    functions of logical time, which is the number of calls made to the
    child's [get_next] so far. *)
Record RuntimeState := mkState {
  batch_size : Z;
  is_cancelled : nat -> bool;
  check_query_state : nat -> Status;
  exec_node_open : Status;
  exprs_open : Status;
  child_open : Status
}.

(** Modelled from the spec: one answer of the child to
    [get_next_after_projects]: a block, or an error status.  The
    end-of-stream flag comes with the last answer of the stream. *)
Inductive ChildResult :=
| ChildBlock (b : Block)
| ChildError (code : Z).

(** ** Events of the build phase (ghost state) *)

(** [EvExtract]: a run has been extracted from the buffer and sorted;
    [EvSortFailed]: a run has been extracted and its partial sort has
    failed. *)
Inductive Event :=
| EvExtract (clock : nat) (unsorted sorted : Block)
| EvSortFailed (clock : nat) (unsorted : Block)
| EvAdmitUnconditional
| EvTotallyGreater
| EvAdmitCompared
| EvDiscard
| EvAdmitPlain
| EvCancelCheck (clock : nat)
| EvReset.

(** ** The operator's state *)

Record VSortNode := mkNode {
  _limit : Z;
  _offset : Z;
  _num_rows_skipped : Z;
  _num_rows_returned : Z;
  _vsort_exec_exprs : VSortExecExprs;
  _is_asc_order : list bool;
  _nulls_first : list bool;
  _sort_description : SortDescription;
  _unsorted_block : Block;
  _sorted_blocks : list Block;
  _num_rows_in_block : Z;
  _block_priority_queue : list SortCursorImpl;
  _cursors : list SortCursorImpl;
  _priority_queue : list SortCursorImpl;
  _total_mem_usage : Z;
  _clock : nat;
  _events : list Event
}.

Definition set_offset (n : VSortNode) (v : Z) : VSortNode :=
  mkNode (_limit n) v (_num_rows_skipped n) (_num_rows_returned n)
    (_vsort_exec_exprs n) (_is_asc_order n) (_nulls_first n) (_sort_description n)
    (_unsorted_block n) (_sorted_blocks n) (_num_rows_in_block n)
    (_block_priority_queue n) (_cursors n) (_priority_queue n) (_total_mem_usage n)
    (_clock n) (_events n).

Definition set_num_rows_skipped (n : VSortNode) (v : Z) : VSortNode :=
  mkNode (_limit n) (_offset n) v (_num_rows_returned n)
    (_vsort_exec_exprs n) (_is_asc_order n) (_nulls_first n) (_sort_description n)
    (_unsorted_block n) (_sorted_blocks n) (_num_rows_in_block n)
    (_block_priority_queue n) (_cursors n) (_priority_queue n) (_total_mem_usage n)
    (_clock n) (_events n).

Definition set_num_rows_returned (n : VSortNode) (v : Z) : VSortNode :=
  mkNode (_limit n) (_offset n) (_num_rows_skipped n) v
    (_vsort_exec_exprs n) (_is_asc_order n) (_nulls_first n) (_sort_description n)
    (_unsorted_block n) (_sorted_blocks n) (_num_rows_in_block n)
    (_block_priority_queue n) (_cursors n) (_priority_queue n) (_total_mem_usage n)
    (_clock n) (_events n).

Definition set_sort_description (n : VSortNode) (v : SortDescription) : VSortNode :=
  mkNode (_limit n) (_offset n) (_num_rows_skipped n) (_num_rows_returned n)
    (_vsort_exec_exprs n) (_is_asc_order n) (_nulls_first n) v
    (_unsorted_block n) (_sorted_blocks n) (_num_rows_in_block n)
    (_block_priority_queue n) (_cursors n) (_priority_queue n) (_total_mem_usage n)
    (_clock n) (_events n).

Definition set_unsorted_block (n : VSortNode) (v : Block) : VSortNode :=
  mkNode (_limit n) (_offset n) (_num_rows_skipped n) (_num_rows_returned n)
    (_vsort_exec_exprs n) (_is_asc_order n) (_nulls_first n) (_sort_description n)
    v (_sorted_blocks n) (_num_rows_in_block n)
    (_block_priority_queue n) (_cursors n) (_priority_queue n) (_total_mem_usage n)
    (_clock n) (_events n).

Definition set_sorted_blocks (n : VSortNode) (v : list Block) : VSortNode :=
  mkNode (_limit n) (_offset n) (_num_rows_skipped n) (_num_rows_returned n)
    (_vsort_exec_exprs n) (_is_asc_order n) (_nulls_first n) (_sort_description n)
    (_unsorted_block n) v (_num_rows_in_block n)
    (_block_priority_queue n) (_cursors n) (_priority_queue n) (_total_mem_usage n)
    (_clock n) (_events n).

Definition set_num_rows_in_block (n : VSortNode) (v : Z) : VSortNode :=
  mkNode (_limit n) (_offset n) (_num_rows_skipped n) (_num_rows_returned n)
    (_vsort_exec_exprs n) (_is_asc_order n) (_nulls_first n) (_sort_description n)
    (_unsorted_block n) (_sorted_blocks n) v
    (_block_priority_queue n) (_cursors n) (_priority_queue n) (_total_mem_usage n)
    (_clock n) (_events n).

Definition set_block_priority_queue (n : VSortNode) (v : list SortCursorImpl) : VSortNode :=
  mkNode (_limit n) (_offset n) (_num_rows_skipped n) (_num_rows_returned n)
    (_vsort_exec_exprs n) (_is_asc_order n) (_nulls_first n) (_sort_description n)
    (_unsorted_block n) (_sorted_blocks n) (_num_rows_in_block n)
    v (_cursors n) (_priority_queue n) (_total_mem_usage n)
    (_clock n) (_events n).

Definition set_cursors (n : VSortNode) (v : list SortCursorImpl) : VSortNode :=
  mkNode (_limit n) (_offset n) (_num_rows_skipped n) (_num_rows_returned n)
    (_vsort_exec_exprs n) (_is_asc_order n) (_nulls_first n) (_sort_description n)
    (_unsorted_block n) (_sorted_blocks n) (_num_rows_in_block n)
    (_block_priority_queue n) v (_priority_queue n) (_total_mem_usage n)
    (_clock n) (_events n).

Definition set_priority_queue (n : VSortNode) (v : list SortCursorImpl) : VSortNode :=
  mkNode (_limit n) (_offset n) (_num_rows_skipped n) (_num_rows_returned n)
    (_vsort_exec_exprs n) (_is_asc_order n) (_nulls_first n) (_sort_description n)
    (_unsorted_block n) (_sorted_blocks n) (_num_rows_in_block n)
    (_block_priority_queue n) (_cursors n) v (_total_mem_usage n)
    (_clock n) (_events n).

Definition set_total_mem_usage (n : VSortNode) (v : Z) : VSortNode :=
  mkNode (_limit n) (_offset n) (_num_rows_skipped n) (_num_rows_returned n)
    (_vsort_exec_exprs n) (_is_asc_order n) (_nulls_first n) (_sort_description n)
    (_unsorted_block n) (_sorted_blocks n) (_num_rows_in_block n)
    (_block_priority_queue n) (_cursors n) (_priority_queue n) v
    (_clock n) (_events n).

(** One more call to the child: logical time advances. *)
Definition tick (n : VSortNode) : VSortNode :=
  mkNode (_limit n) (_offset n) (_num_rows_skipped n) (_num_rows_returned n)
    (_vsort_exec_exprs n) (_is_asc_order n) (_nulls_first n) (_sort_description n)
    (_unsorted_block n) (_sorted_blocks n) (_num_rows_in_block n)
    (_block_priority_queue n) (_cursors n) (_priority_queue n) (_total_mem_usage n)
    (S (_clock n)) (_events n).

Definition log (n : VSortNode) (e : Event) : VSortNode :=
  mkNode (_limit n) (_offset n) (_num_rows_skipped n) (_num_rows_returned n)
    (_vsort_exec_exprs n) (_is_asc_order n) (_nulls_first n) (_sort_description n)
    (_unsorted_block n) (_sorted_blocks n) (_num_rows_in_block n)
    (_block_priority_queue n) (_cursors n) (_priority_queue n) (_total_mem_usage n)
    (_clock n) (_events n ++ [e]).

(** The part of the plan node the operator reads. *)
Record TPlanNode := mkPlan {
  limit : Z;
  sort_node_offset : option Z;
  sort_info_is_asc_order : list bool;
  sort_info_nulls_first : list bool;
  sort_info_exprs : VSortExecExprs
}.

(** The constructor, [init] and [prepare].  The counters the header
    declares ([_num_rows_in_block], [_total_mem_usage], the rows returned)
    start at 0 and the containers empty.  [init] and [prepare] are what the
    two functions do to the operator when the calls they make to
    [ExecNode] and to the expressions return OK. *)
Definition VSortNode_new (tnode : TPlanNode) : VSortNode :=
  mkNode (limit tnode)
    (match sort_node_offset tnode with Some o => o | None => 0 end)
    0 0 (mkExprs false [] []) [] [] [] [] [] 0 [] [] [] 0 0%nat [].

Definition init (tnode : TPlanNode) (n : VSortNode) : VSortNode :=
  mkNode (_limit n) (_offset n) (_num_rows_skipped n) (_num_rows_returned n)
    (sort_info_exprs tnode) (sort_info_is_asc_order tnode) (sort_info_nulls_first tnode)
    (_sort_description n)
    (_unsorted_block n) (_sorted_blocks n) (_num_rows_in_block n)
    (_block_priority_queue n) (_cursors n) (_priority_queue n) (_total_mem_usage n)
    (_clock n) (_events n).

Definition prepare (n : VSortNode) : VSortNode := set_unsorted_block n [].

(** How one step of a loop body ends: go on with the next iteration, or
    return from the function. *)
Inductive Flow :=
| Next (n : VSortNode)
| Return (r : Result) (n : VSortNode).

Section Operator.

(** [sort_block] and the run thresholds of vsort_node.h, with the byte size
    of a block as the allocator reports it. *)
Variable sorter : Sorter.
Variable BUFFERED_BLOCK_SIZE : Z.
Variable BUFFERED_BLOCK_BYTES : Z.
Variable allocated_bytes : Block -> Z.

(** ** partial_sort *)

(** The block of the materialized sort tuple: the columns the slot
    expressions yield, in their order. *)
Definition materialize (ctxs : list VExprContext) (block : Block) : Block :=
  map (fun r => map (fun e => nth (expr_column e) r None) ctxs) block.

(** The loop over the ordering expressions: key [i] takes the column its
    expression yields, the direction of [_is_asc_order[i]] and the nulls
    direction of [_nulls_first[i]]. *)
Definition sort_key (is_asc_order nulls_first : list bool)
    (exprs : VSortExecExprs) (i : nat) : SortColumnDescription :=
  let d := if nth i is_asc_order false then 1 else -1 in
  mkSortColumn (expr_column (nth i (lhs_ordering_expr_ctxs exprs) (column_ref 0)))
    d
    (if nth i nulls_first false then - d else d).

Definition description_of (is_asc_order nulls_first : list bool)
    (exprs : VSortExecExprs) : SortDescription :=
  map (sort_key is_asc_order nulls_first exprs)
      (seq 0 (length (lhs_ordering_expr_ctxs exprs))).

Definition fill_sort_description (n : VSortNode) : SortDescription :=
  description_of (_is_asc_order n) (_nulls_first n) (_vsort_exec_exprs n).

(** [_sort_description.resize(size)]: the new keys are value-initialized. *)
Definition resize (size : nat) (d : SortDescription) : SortDescription :=
  firstn size d ++ repeat (mkSortColumn 0 0 0) (size - length d).

(** The value handed to [sort_block] as its limit: the sum of two
    [int64_t], which wraps around. *)
Definition limit_hint (n : VSortNode) : Z := wrap_int64 (_offset n + _limit n).

(** [partial_sort] returns the error of the first expression that fails:
    of a slot expression, before the block is touched; of ordering
    expression [i], when the description has been resized and its keys
    before [i] filled.  Without an error the block is sorted. *)
Definition partial_sort (n : VSortNode) (block : Block) : Status * VSortNode * Block :=
  let exprs := _vsort_exec_exprs n in
  match (if need_materialize_tuple exprs
         then first_failure (sort_tuple_slot_expr_ctxs exprs) block
         else None) with
  | Some (_, code) => (ExpressionError code, n, block)
  | None =>
      let block :=
        if need_materialize_tuple exprs
        then materialize (sort_tuple_slot_expr_ctxs exprs) block
        else block in
      match first_failure (lhs_ordering_expr_ctxs exprs) block with
      | Some (i, code) =>
          let resized := resize (length (lhs_ordering_expr_ctxs exprs))
                           (_sort_description n) in
          (ExpressionError code,
           set_sort_description n
             (firstn i (fill_sort_description n) ++ skipn i resized),
           block)
      | None =>
          let n := set_sort_description n (fill_sort_description n) in
          (OK, n, sort_block sorter block (_sort_description n) (limit_hint n))
      end
  end.

(** ** sort_input *)

(** The end of the loop body for a run that was admitted: the two
    checkpoints, then the fresh run buffer. *)
Definition after_admission (state : RuntimeState) (n : VSortNode) : Flow :=
  let n := log n (EvCancelCheck (_clock n)) in
  if is_cancelled state (_clock n) then Return (Returned Cancelled) n
  else
    match check_query_state state (_clock n) with
    | OK => Next (log (set_unsorted_block n []) EvReset)
    | s => Return (Returned s) n
    end.

(** The top-N logic and the plain one (lines 150-177), for a run that has
    been sorted.  A block that has been moved into [_sorted_blocks] holds no
    column, hence no row. *)
Definition admit_run (state : RuntimeState) (n : VSortNode) (block : Block) : Flow :=
  if negb (_limit n =? -1) then
    if _num_rows_in_block n <? _limit n then
      let n := set_sorted_blocks n (_sorted_blocks n ++ [block]) in
      (* [block] has been moved from: it holds no column any more *)
      let moved_from : Block := [] in
      let n := set_num_rows_in_block n (_num_rows_in_block n + rows moved_from) in
      let n := set_block_priority_queue n
                 (pq_push (_block_priority_queue n)
                    (new_SortCursorImpl (last (_sorted_blocks n) []) (_sort_description n))) in
      after_admission state (log n EvAdmitUnconditional)
    else
      let block_cursor := new_SortCursorImpl block (_sort_description n) in
      match pq_top block_cursor_before (_block_priority_queue n) with
      | None => Return Undefined n
      | Some top =>
          let n := log n EvTotallyGreater in
          if negb (totally_greater block_cursor top) then
            let n := set_sorted_blocks n (_sorted_blocks n ++ [block]) in
            let n := set_block_priority_queue n
                       (pq_push (_block_priority_queue n) block_cursor) in
            after_admission state (log n EvAdmitCompared)
          else
            (* continue *)
            Next (log n EvDiscard)
      end
  else
    let n := set_sorted_blocks n (_sorted_blocks n ++ [block]) in
    after_admission state (log n EvAdmitPlain).

(** The body of the outer loop after the accumulation: extract the run, sort
    it, and dispose it by the top-N logic or the plain one.  [to_block(0)]
    moves the columns out of the run buffer (modelled from the spec: the
    contents are moved out, the buffer holds no row afterwards).  An error
    of [partial_sort] is returned at once, before the run is disposed and
    before the checkpoints. *)
Definition dispose_run (state : RuntimeState) (n : VSortNode) : Flow :=
  if 0 <? rows (_unsorted_block n) then
    let n := set_total_mem_usage n (_total_mem_usage n + allocated_bytes (_unsorted_block n)) in
    (* to_block(0) moves the columns out of the buffer *)
    let unsorted := _unsorted_block n in
    let n := set_unsorted_block n [] in
    match partial_sort n unsorted with
    | (OK, n, block) =>
        admit_run state (log n (EvExtract (_clock n) unsorted block)) block
    | (s, n, _) =>
        (* RETURN_IF_ERROR(partial_sort(block)) *)
        Return (Returned s) (log n (EvSortFailed (_clock n) unsorted))
    end
  else Next n.

Definition build_merge_tree (n : VSortNode) : VSortNode :=
  let n := set_cursors n
             (_cursors n ++
              map (fun block => new_SortCursorImpl block (_sort_description n))
                  (_sorted_blocks n)) in
  if (1 <? length (_sorted_blocks n))%nat
  then set_priority_queue n (fold_left pq_push (_cursors n) (_priority_queue n))
  else n.

(** The condition of the inner loop, after one more upstream block. *)
Definition keep_accumulating (eos : bool) (n : VSortNode) : bool :=
  negb eos &&
  (rows (_unsorted_block n) <? BUFFERED_BLOCK_SIZE) &&
  (allocated_bytes (_unsorted_block n) <? BUFFERED_BLOCK_BYTES).

(** [_unsorted_block->merge(upstream_block)], for a block that has rows. *)
Definition merge_upstream (n : VSortNode) (upstream_block : Block) : VSortNode :=
  if negb (rows upstream_block =? 0)
  then set_unsorted_block n (_unsorted_block n ++ upstream_block)
  else n.

(** The two nested loops.  Every iteration of the inner loop takes one answer
    of the child, so both loops recurse on the list of the answers that are
    still to come; an exhausted child answers with an empty block and the
    end-of-stream flag. *)
Fixpoint sort_input_loop (state : RuntimeState) (child : list ChildResult)
    (n : VSortNode) : Result * VSortNode :=
  match child with
  | [] =>
      match dispose_run state (tick n) with
      | Return r n => (r, n)
      | Next n => (Returned OK, build_merge_tree n)
      end
  | ChildError code :: _ => (Returned (UpstreamError code), tick n)
  | ChildBlock upstream_block :: rest =>
      let eos := match rest with [] => true | _ => false end in
      let n := merge_upstream (tick n) upstream_block in
      if keep_accumulating eos n then sort_input_loop state rest n
      else
        match dispose_run state n with
        | Return r n => (r, n)
        | Next n =>
            if eos then (Returned OK, build_merge_tree n)
            else sort_input_loop state rest n
        end
  end.

Definition sort_input (state : RuntimeState) (child : list ChildResult)
    (n : VSortNode) : Result * VSortNode :=
  sort_input_loop state child n.

(** One [RETURN_IF_ERROR] of [open]: go on when the status is OK, return it
    otherwise. *)
Definition return_if_error (s : Status) (n : VSortNode)
    (rest : Result * VSortNode) : Result * VSortNode :=
  match s with
  | OK => rest
  | _ => (Returned s, n)
  end.

(** [open]: [ExecNode::open], the opening of the expressions, the two
    checkpoints, the opening of the child, then the build. *)
Definition open (state : RuntimeState) (child : list ChildResult)
    (n : VSortNode) : Result * VSortNode :=
  return_if_error (exec_node_open state) n
    (return_if_error (exprs_open state) n
       (if is_cancelled state (_clock n) then (Returned Cancelled, n)
        else
          return_if_error (check_query_state state (_clock n)) n
            (return_if_error (child_open state) n
               (sort_input state child n)))).

End Operator.

(** ** merge_sort_read *)

(** The loop of [merge_sort_read].  Every iteration takes the top cursor off
    the queue; the rows the queue still holds bound the number of
    iterations, and [queue_rows] below is that bound.  [merged_rows] is
    never negative, so a negative batch size is never reached, as in the
    unsigned comparison of the source. *)
Fixpoint merge_loop (fuel : nat) (batch : Z) (queue : list SortCursorImpl)
    (offset merged_rows : Z) (merged_columns : Block)
  : list SortCursorImpl * Z * Z * Block :=
  match fuel with
  | O => (queue, offset, merged_rows, merged_columns)
  | S fuel =>
      match pq_extract cursor_before queue with
      | None => (queue, offset, merged_rows, merged_columns)
      | Some (current, queue) =>
          let '(offset, merged_rows, merged_columns) :=
            if offset =? 0
            then (offset, merged_rows + 1, merged_columns ++ [current_row current])
            else (offset - 1, merged_rows, merged_columns) in
          let queue :=
            if negb (isLast current) then pq_push queue (next current) else queue in
          if merged_rows =? batch
          then (queue, offset, merged_rows, merged_columns)
          else merge_loop fuel batch queue offset merged_rows merged_columns
      end
  end.

Definition queue_rows (queue : list SortCursorImpl) : nat :=
  fold_right (fun c acc => (S (cursor_rows c - pos c) + acc)%nat) 0%nat queue.

(** [mem_reuse] tells whether the caller's block has columns to be reused;
    the merged rows are then appended to them in place. *)
Definition merge_sort_read (state : RuntimeState) (n : VSortNode)
    (block : Block) (mem_reuse eos : bool) : VSortNode * Block * bool :=
  let merged_columns : Block := if mem_reuse then block else [] in
  let '(queue, offset, merged_rows, merged_columns) :=
    merge_loop (queue_rows (_priority_queue n)) (batch_size state)
      (_priority_queue n) (_offset n) 0 merged_columns in
  let n := set_offset (set_priority_queue n queue) offset in
  if merged_rows =? 0 then (n, block, true)
  else (n, merged_columns, eos).

(** ** get_next *)

(** Modelled from the spec: [Block::skip_num_rows] (vec/core/block.h is not
    part of the sources): the block without its first [length] rows. *)
Definition skip_num_rows (block : Block) (length : Z) : Block :=
  skipn (Z.to_nat length) block.

(** Modelled from the spec: [ExecNode::reached_limit] (exec/exec_node.cpp is
    not part of the sources): with a limit, the batch that reaches it is cut
    so that no more than [_limit] rows are returned in total, and
    end-of-stream is set. *)
Definition reached_limit (n : VSortNode) (block : Block) (eos : bool)
  : VSortNode * Block * bool :=
  let '(block, eos) :=
    if negb (_limit n =? -1) && (_limit n <=? _num_rows_returned n + rows block)
    then (firstn (Z.to_nat (_limit n - _num_rows_returned n)) block, true)
    else (block, eos) in
  (set_num_rows_returned n (_num_rows_returned n + rows block), block, eos).

(** The legacy row-batch overload. *)
Definition RowBatch := list Row.

Definition get_next_row_batch (state : RuntimeState) (n : VSortNode)
    (row_batch : RowBatch) (eos : bool) : Status * VSortNode * RowBatch * bool :=
  (NotSupported "Not Implemented VSortNode::get_next scalar", n, row_batch, true).

(** The block overload.  [block] and [eos] are the caller's. *)
Definition get_next (state : RuntimeState) (n : VSortNode)
    (block : Block) (mem_reuse eos : bool) : Status * VSortNode * Block * bool :=
  let '(n, block, eos) :=
    match _sorted_blocks n with
    | [] => (n, block, true)
    | [run] =>
        let run := if negb (_offset n =? 0) then skip_num_rows run (_offset n) else run in
        (* block->swap(_sorted_blocks[0]) *)
        (set_sorted_blocks n [block], run, true)
    | _ => merge_sort_read state n block mem_reuse eos
    end in
  let '(n, block, eos) := reached_limit n block eos in
  (OK, n, block, eos).

Definition reset (state : RuntimeState) (n : VSortNode) : Status * VSortNode :=
  (OK, set_num_rows_skipped n 0).

(** ** debug_string *)

(** [string(k, ' ')]. *)
Fixpoint blanks (k : nat) : string :=
  match k with
  | O => EmptyString
  | S k => (" " ++ blanks k)%string
  end.

(** What the stream receives from a sequence of [<<]. *)
Fixpoint write_all (l : list string) : string :=
  match l with
  | [] => EmptyString
  | s :: l => (s ++ write_all l)%string
  end.

(** What one iteration of the loop over the keys writes. *)
Definition key_text (i : nat) (is_asc nulls_first : bool) : string :=
  ((if (0 <? i)%nat then " " else "") ++
   (if is_asc then "asc" else "desc") ++ " nulls " ++
   (if nulls_first then "first" else "last"))%string.

(** The loop, for keys that are numbered from [first] on. *)
Definition keys_text (first : nat) (is_asc_order nulls_first : list bool) : string :=
  write_all
    (map (fun i => key_text (first + i) (nth i is_asc_order false) (nth i nulls_first false))
         (seq 0 (length is_asc_order))).

(** [debug_string]: the text appended to [out].  [base] is what
    [ExecNode::debug_string] writes at this indentation level.  A negative
    level asks [std::string] for more characters than it can hold, which
    throws: [None]. *)
Definition debug_string (base : Z -> string) (n : VSortNode) (indentation_level : Z)
    (out : string) : option string :=
  if indentation_level <? 0 then None
  else
    Some (out ++ blanks (Z.to_nat (indentation_level * 2)) ++ "VSortNode(" ++
          keys_text 0 (_is_asc_order n) (_nulls_first n) ++
          base indentation_level ++ ")")%string.

(** ** The operator as its consumer sees it *)

(** The consumer calls [get_next] with a cleared block until end-of-stream
    is set.  Every call that does not set it takes at least one row off the
    merge queue. *)
Fixpoint pull (fuel : nat) (state : RuntimeState) (n : VSortNode) (mem_reuse : bool)
  : option (list Block) :=
  match fuel with
  | O => None
  | S fuel =>
      let '(_, n, block, eos) := get_next state n [] mem_reuse false in
      if eos then Some [block]
      else option_map (cons block) (pull fuel state n mem_reuse)
  end.

Inductive Output :=
| Emitted (out : list Row)
| Aborted (r : Result)
| OutOfFuel.

Section Pipeline.

Variable sorter : Sorter.
Variable BUFFERED_BLOCK_SIZE : Z.
Variable BUFFERED_BLOCK_BYTES : Z.
Variable allocated_bytes : Block -> Z.

(** Construct, [init], [prepare], [open], then pull until end-of-stream. *)
Definition run_operator (state : RuntimeState) (tnode : TPlanNode)
    (child : list ChildResult) (mem_reuse : bool) : Output :=
  let n := prepare (init tnode (VSortNode_new tnode)) in
  match open sorter BUFFERED_BLOCK_SIZE BUFFERED_BLOCK_BYTES allocated_bytes state child n with
  | (Returned OK, n) =>
      match pull (S (queue_rows (_priority_queue n))) state n mem_reuse with
      | Some blocks => Emitted (concat blocks)
      | None => OutOfFuel
      end
  | (r, _) => Aborted r
  end.

End Pipeline.

Arguments wrap_int64 : simpl never.
Arguments description_of : simpl never.
Arguments build_merge_tree : simpl never.
Arguments dispose_run : simpl never.
Arguments merge_upstream : simpl never.
Arguments keep_accumulating : simpl never.

(** * Definitions for the statements and their proofs *)

(** ** Reference implementations of the sort *)

(** A stable insertion sort: a row goes before the first row that does not
    precede it. *)
Fixpoint insert_row (d : SortDescription) (x : Row) (l : Block) : Block :=
  match l with
  | [] => [x]
  | y :: l' => if less d y x then y :: insert_row d x l' else x :: l
  end.

Fixpoint insertion_sort (d : SortDescription) (l : Block) : Block :=
  match l with
  | [] => []
  | x :: l' => insert_row d x (insertion_sort d l')
  end.

(** The first implementation sorts the whole block whatever the hint. *)
Definition full_sort_block (b : Block) (d : SortDescription) (h : Z) : Block :=
  insertion_sort d b.

(** The second one honours the hint: the first [h] rows are the smallest
    ones in order, the others follow as they are left behind; ties come out
    in the opposite order. *)
Definition limited_sort_block (b : Block) (d : SortDescription) (h : Z) : Block :=
  if h <? 0 then insertion_sort d b
  else
    let s := insertion_sort d (rev b) in
    firstn (Z.to_nat h) s ++ rev (skipn (Z.to_nat h) s).


(** The number of rows of [l] that come strictly before [x]. *)
Definition lt_count (D : SortDescription) (x : Row) (l : Block) : nat :=
  length (filter (fun y => less D y x) l).

(** ** Reading the events *)

Definition is_extract (e : Event) : bool :=
  match e with EvExtract _ _ _ => true | _ => false end.

Definition is_unconditional (e : Event) : bool :=
  match e with EvAdmitUnconditional => true | _ => false end.

Definition is_cancel_check (e : Event) : bool :=
  match e with EvCancelCheck _ => true | _ => false end.


Definition is_sort_failure (e : Event) : bool :=
  match e with EvSortFailed _ _ => true | _ => false end.

Definition is_discard (e : Event) : bool :=
  match e with EvDiscard => true | _ => false end.

(** The three ways in which a run goes to [_sorted_blocks]. *)
Definition is_admission (e : Event) : bool :=
  match e with
  | EvAdmitUnconditional | EvAdmitCompared | EvAdmitPlain => true
  | _ => false
  end.

(** The events of the dominance test and of its two outcomes. *)
Definition is_pruning_event (e : Event) : bool :=
  match e with
  | EvTotallyGreater | EvAdmitCompared | EvDiscard => true
  | _ => false
  end.

Definition count_events (p : Event -> bool) (l : list Event) : nat :=
  length (filter p l).

(** Extractions and checkpoints in turn: [Some false] when every extraction
    so far has been followed by its one checkpoint, [Some true] when the
    last extraction still waits for it, [None] when an extraction came
    before the checkpoint of the one before, or a checkpoint without an
    extraction. *)
Definition checkpoint_step (st : option bool) (e : Event) : option bool :=
  match st, e with
  | Some false, EvExtract _ _ _ => Some true
  | Some true, EvExtract _ _ _ => None
  | Some true, EvCancelCheck _ => Some false
  | Some false, EvCancelCheck _ => None
  | _, _ => st
  end.

Definition checkpoints (events : list Event) : option bool :=
  fold_left checkpoint_step events (Some false).

(** The contents of the buffer at each extraction, in order. *)
Definition extracted_unsorted (events : list Event) : list Block :=
  flat_map (fun e => match e with
                     | EvExtract _ u _ | EvSortFailed _ u => [u]
                     | _ => []
                     end) events.

(** The rows of all the blocks the child delivers. *)
Definition upstream_rows (child : list ChildResult) : Block :=
  flat_map (fun c => match c with ChildBlock b => b | ChildError _ => [] end) child.

(** ** Plans, and what a delivery is cut to *)

(** The operator made from a plan, after [init] and [prepare]. *)
Definition fresh (tnode : TPlanNode) : VSortNode :=
  prepare (init tnode (VSortNode_new tnode)).

(** The offset the constructor takes from the plan. *)
Definition plan_offset (tnode : TPlanNode) : Z :=
  match sort_node_offset tnode with Some o => o | None => 0 end.

(** The plan with offset 0 and the given limit. *)
Definition with_limit (tnode : TPlanNode) (lim : Z) : TPlanNode :=
  mkPlan lim (Some 0) (sort_info_is_asc_order tnode) (sort_info_nulls_first tnode)
    (sort_info_exprs tnode).

(** What [reached_limit] leaves of a delivered block. *)
Definition cut_to_limit (n : VSortNode) (block : Block) : Block :=
  if negb (_limit n =? -1) && (_limit n <=? _num_rows_returned n + rows block)
  then firstn (Z.to_nat (_limit n - _num_rows_returned n)) block
  else block.

(** The block [partial_sort] sorts: the materialized tuple, if one is
    needed. *)
Definition sort_input_block (n : VSortNode) (block : Block) : Block :=
  if need_materialize_tuple (_vsort_exec_exprs n)
  then materialize (sort_tuple_slot_expr_ctxs (_vsort_exec_exprs n)) block
  else block.

(** ** The merge queue, row by row *)

(** The rows a cursor has not passed yet. *)
Definition remaining (c : SortCursorImpl) : Block := skipn (pos c) (all_columns c).

Definition queue_remaining (q : list SortCursorImpl) : Block :=
  flat_map remaining q.

(** One iteration of the merge loop, as far as the queue goes: the row of
    the top cursor, and the queue with that cursor advanced or dropped. *)
Definition pop (q : list SortCursorImpl) : option (Row * list SortCursorImpl) :=
  match pq_extract cursor_before q with
  | None => None
  | Some (current, rest) =>
      Some (current_row current,
            if negb (isLast current) then pq_push rest (next current) else rest)
  end.

(** [pops q rs q']: taking [length rs] rows off [q] yields [rs] and leaves
    [q']. *)
Inductive pops : list SortCursorImpl -> list Row -> list SortCursorImpl -> Prop :=
| pops_nil q : pops q [] q
| pops_cons q r q1 rs q2 :
    pop q = Some (r, q1) -> pops q1 rs q2 -> pops q (r :: rs) q2.

(** A cursor of the merge queue: it compares by [D], stands on a row, and
    the first [K] of its remaining rows are in order. *)
Definition good_cursor (D : SortDescription) (K : nat) (c : SortCursorImpl) : Prop :=
  desc c = D /\ (pos c < cursor_rows c)%nat /\ presorted (row_le D) K (remaining c).

(** A run as [partial_sort] leaves it: not empty; sorted when the hint is
    negative; its first [hint] rows in order otherwise. *)
Definition run_ok (D : SortDescription) (hint : Z) (b : Block) : Prop :=
  b <> [] /\
  (hint < 0 -> presorted (row_le D) (length b) b) /\
  (0 <= hint -> presorted (row_le D) (Z.to_nat hint) b).

(** ** The admission rule of the specification *)

Definition total_rows_in_runs (runs : list Block) : Z :=
  fold_right (fun b acc => rows b + acc) 0 runs.

(** The admission rule in the words of the specification: a run is
    admitted when the admitted runs hold fewer than [offset + limit] rows;
    otherwise it is discarded exactly when its first row is at or after the
    last row of the top of the pruning heap.  [None]: there is no top. *)
Definition spec_admits (d : SortDescription) (offset limit : Z)
    (runs : list Block) (run : Block) : option bool :=
  if total_rows_in_runs runs <? offset + limit then Some true
  else
    match pq_top block_cursor_before (map (fun b => new_SortCursorImpl b d) runs) with
    | None => None
    | Some top => Some (negb (totally_greater (new_SortCursorImpl run d) top))
    end.

(** ** The limit hint of the specification *)

(** The limit hint in the words of the specification: [offset + limit], in
    top-N mode only, and only when it is non-negative; [None]: no hint
    constrains the sort. *)
Definition spec_limit_hint (offset limit : Z) : option Z :=
  if limit =? -1 then None
  else if 0 <=? offset + limit then Some (offset + limit) else None.

(** ** Invariants of the build *)

(** What the build keeps true in top-N mode with a positive limit. *)
Definition counter_idle (n : VSortNode) : Prop :=
  0 < _limit n /\
  _num_rows_in_block n = 0 /\
  existsb is_pruning_event (_events n) = false /\
  count_events is_extract (_events n) = count_events is_unconditional (_events n) /\
  length (_sorted_blocks n) = count_events is_extract (_events n).

(** A build in top-N mode with a positive limit and a build in plain-sort
    mode that have taken the same answers from the same child. *)
Definition paired (a b : VSortNode) : Prop :=
  0 < _limit a /\ _num_rows_in_block a = 0 /\ _limit b = -1 /\
  _unsorted_block a = _unsorted_block b /\
  _clock a = _clock b /\
  _vsort_exec_exprs a = _vsort_exec_exprs b /\
  length (_sorted_blocks a) = length (_sorted_blocks b) /\
  Permutation (concat (_sorted_blocks a)) (concat (_sorted_blocks b)).

(** The two builds return the same status, and after OK they hold as many
    runs, with the same rows. *)
Definition same_runs (ra rb : Result * VSortNode) : Prop :=
  fst ra = fst rb /\
  length (_sorted_blocks (snd ra)) = length (_sorted_blocks (snd rb)) /\
  Permutation (concat (_sorted_blocks (snd ra))) (concat (_sorted_blocks (snd rb))).

(** No run has been extracted at a time at which the flag was set. *)
Definition uncancelled (state : RuntimeState) (e : Event) : bool :=
  match e with
  | EvExtract t _ _ => negb (is_cancelled state t)
  | _ => true
  end.

(** The build is in plain-sort mode, or in top-N mode with a positive limit
    and an idle counter; every sorted run so far had its checkpoint, none
    saw the flag set, and no partial sort has failed. *)
Definition checked (state : RuntimeState) (n : VSortNode) : Prop :=
  (_limit n = -1 \/ (0 < _limit n /\ _num_rows_in_block n = 0)) /\
  checkpoints (_events n) = Some false /\
  count_events is_cancel_check (_events n) = count_events is_extract (_events n) /\
  forallb (uncancelled state) (_events n) = true /\
  existsb is_sort_failure (_events n) = false.

Definition checked_result (state : RuntimeState) (r : Result) (n : VSortNode) : Prop :=
  checkpoints (_events n) = Some false /\
  count_events is_cancel_check (_events n) = count_events is_extract (_events n) /\
  r <> Undefined /\
  (r = Returned Cancelled \/ forallb (uncancelled state) (_events n) = true) /\
  (existsb is_sort_failure (_events n) = true ->
   exists code, r = Returned (ExpressionError code)).

(** The state during the build of an operator made from the plan. *)
Definition built (lim off : Z) (asc nulls : list bool) (exprs : VSortExecExprs)
    (n : VSortNode) : Prop :=
  _limit n = lim /\ _offset n = off /\
  _is_asc_order n = asc /\ _nulls_first n = nulls /\ _vsort_exec_exprs n = exprs /\
  _cursors n = [] /\ _priority_queue n = [] /\ _num_rows_returned n = 0 /\
  Forall (run_ok (description_of asc nulls exprs) (wrap_int64 (off + lim)))
    (_sorted_blocks n) /\
  (_sorted_blocks n = [] \/ _sort_description n = description_of asc nulls exprs).

(** The state after a build that returned OK. *)
Definition ready (lim off : Z) (asc nulls : list bool) (exprs : VSortExecExprs)
    (n : VSortNode) : Prop :=
  _limit n = lim /\ _offset n = off /\ _num_rows_returned n = 0 /\
  Forall (run_ok (description_of asc nulls exprs) (wrap_int64 (off + lim)))
    (_sorted_blocks n) /\
  _priority_queue n =
    (if (1 <? length (_sorted_blocks n))%nat
     then map (fun b => new_SortCursorImpl b (description_of asc nulls exprs)) (_sorted_blocks n)
     else []).


(** ** Further readings of a build *)

(** The modes in which every extracted run is admitted: plain sort, and
    top-N with a positive limit (the counter of admitted rows stays 0). *)
Definition admitting (n : VSortNode) : Prop :=
  _limit n = -1 \/ (0 < _limit n /\ _num_rows_in_block n = 0).

(** The calls that [open] makes before the build return OK. *)
Definition opens (state : RuntimeState) : Prop :=
  exec_node_open state = OK /\ exprs_open state = OK /\ child_open state = OK.

(** The query is never cancelled and its state is never in error. *)
Definition undisturbed (state : RuntimeState) : Prop :=
  forall t, is_cancelled state t = false /\ check_query_state state t = OK.

(** No expression fails, whatever the block. *)
Definition unfailing (exprs : VSortExecExprs) : Prop :=
  (forall e b, In e (sort_tuple_slot_expr_ctxs exprs) -> expr_error e b = None) /\
  (forall e b, In e (lhs_ordering_expr_ctxs exprs) -> expr_error e b = None).

(** The status of the first answer of the child that is an error. *)
Fixpoint first_error (child : list ChildResult) : Status :=
  match child with
  | [] => OK
  | ChildError code :: _ => UpstreamError code
  | ChildBlock _ :: rest => first_error rest
  end.

(** A run buffer that has reached one of the two thresholds. *)
Definition reached_threshold (SIZE BYTES : Z) (bytes : Block -> Z) (u : Block) : Prop :=
  SIZE <= rows u \/ BYTES <= bytes u.

(** The bytes of the buffers, as the allocator reports them. *)
Definition bytes_of (bytes : Block -> Z) (us : list Block) : Z :=
  fold_right (fun u acc => bytes u + acc) 0 us.

(** The state during a build in which every run is admitted: the pruning
    heap holds one cursor per run in top-N mode and nothing in plain-sort
    mode; the merge tree is still to be built. *)
Definition heaped (asc nulls : list bool) (exprs : VSortExecExprs) (n : VSortNode) : Prop :=
  admitting n /\
  _is_asc_order n = asc /\ _nulls_first n = nulls /\ _vsort_exec_exprs n = exprs /\
  _cursors n = [] /\ _priority_queue n = [] /\
  (_sorted_blocks n = [] \/ _sort_description n = description_of asc nulls exprs) /\
  _block_priority_queue n =
    (if _limit n =? -1 then []
     else map (fun b => new_SortCursorImpl b (description_of asc nulls exprs))
              (_sorted_blocks n)).

(** The runs hold the rows of the extracted buffers, materialized. *)
Definition runs_hold (exprs : VSortExecExprs) (n : VSortNode) : Prop :=
  admitting n /\ _vsort_exec_exprs n = exprs /\
  Permutation (concat (_sorted_blocks n))
    (concat (map (fun u => if need_materialize_tuple exprs
                           then materialize (sort_tuple_slot_expr_ctxs exprs) u
                           else u)
                 (extracted_unsorted (_events n)))).

(** The state a step of the loop leaves, however it ends. *)
Definition flow_node (f : Flow) : VSortNode :=
  match f with Next n => n | Return _ n => n end.

(** The events a step has logged. *)
Definition events_since (n n' : VSortNode) : list Event :=
  skipn (length (_events n)) (_events n').

(** ** Concrete inputs used by the examples *)

Definition row1 (x : Z) : Row := [Some x].

Definition quiet_state (batch : Z) : RuntimeState :=
  mkState batch (fun _ => false) (fun _ => OK) OK OK OK.

(** One ascending key on column 0, nulls last. *)
Definition plan_asc (lim : Z) (off : option Z) : TPlanNode :=
  mkPlan lim off [true] [false] (mkExprs false [] [column_ref 0]).

Definition three_runs : list ChildResult :=
  [ChildBlock (map row1 [2; 1]); ChildBlock (map row1 [4; 3]);
   ChildBlock (map row1 [6; 5])].

Definition three_uneven_runs : list ChildResult :=
  [ChildBlock (map row1 [1; 7]); ChildBlock (map row1 [2; 9; 0]);
   ChildBlock (map row1 [3])].

Definition one_block : list ChildResult := [ChildBlock (map row1 [5; 4; 3; 2; 1])].

(** Two rows that tie on the key column and differ in the other one. *)
Definition tying_rows : list ChildResult :=
  [ChildBlock [[Some 1; Some 10]; [Some 1; Some 20]]].

Definition two_key_node : VSortNode :=
  fresh (mkPlan (-1) None [true; false] [true; true] (mkExprs false [] [column_ref 0; column_ref 1])).

Definition plain_offset_node : VSortNode := fresh (plan_asc (-1) (Some 3)).

(** One descending key on column 0, nulls first, and two blocks with
    nulls. *)
Definition plan_desc_nulls_first : TPlanNode :=
  mkPlan (-1) None [false] [true] (mkExprs false [] [column_ref 0]).

Definition nulls_and_values : list ChildResult :=
  [ChildBlock [[None]; [Some 1]]; ChildBlock [[Some 2]; [None]]].

(** The flag is set once the child has been called. *)
Definition cancelled_soon : RuntimeState :=
  mkState 4096 (fun t => (1 <=? t)%nat) (fun _ => OK) OK OK OK.

(** One ascending key whose expression fails on every block. *)
Definition plan_failing_key : TPlanNode :=
  mkPlan (-1) None [true] [false] (mkExprs false [] [mkExpr 0 (fun _ => Some 7)]).

(** A state that no build reaches, in which the pruning decides: limit 2,
    one run [1, 2] admitted with its cursor in the pruning heap, the counter
    set to 2 by hand, and the rows 6 and 5 in the run buffer. *)
Definition pruning_node : VSortNode :=
  let n := fresh (plan_asc 2 None) in
  let d := fill_sort_description n in
  set_unsorted_block
    (set_num_rows_in_block
       (set_block_priority_queue
          (set_sorted_blocks (set_sort_description n d) [map row1 [1; 2]])
          [new_SortCursorImpl (map row1 [1; 2]) d])
       2)
    (map row1 [6; 5]).

(** The flag is set once the child has been called twice. *)
Definition cancelled_later : RuntimeState :=
  mkState 4096 (fun t => (2 <=? t)%nat) (fun _ => OK) OK OK OK.

(** * Properties of the comparator *)

Lemma native_compare_antisym (x y : Z) : native_compare y x = - native_compare x y.
Proof.
  unfold native_compare. rewrite (Z.compare_antisym x y).
  destruct (x ?= y); reflexivity.
Qed.

Lemma compare_at_antisym (k : SortColumnDescription) (a b : Row) :
  compare_at k b a = - compare_at k a b.
Proof.
  unfold compare_at, compare_cells.
  destruct (nth (column_number k) a None), (nth (column_number k) b None); try lia.
  rewrite native_compare_antisym. lia.
Qed.

Lemma compare_rows_antisym (d : SortDescription) (a b : Row) :
  compare_rows d b a = - compare_rows d a b.
Proof.
  induction d as [|k ks IH]; simpl; [reflexivity|].
  rewrite (compare_at_antisym k a b).
  destruct (Z.eqb_spec (compare_at k a b) 0) as [E|E].
  - rewrite E. simpl. exact IH.
  - destruct (Z.eqb_spec (- compare_at k a b) 0); [lia | reflexivity].
Qed.

Lemma wf_key_cases (k : SortColumnDescription) :
  wf_key k = true ->
  (direction k = 1 \/ direction k = -1) /\
  (nulls_direction k = 1 \/ nulls_direction k = -1).
Proof.
  unfold wf_key. rewrite andb_true_iff, !orb_true_iff, !Z.eqb_eq. tauto.
Qed.

Lemma compare_at_trans (k : SortColumnDescription) (a b c : Row) :
  wf_key k = true ->
  compare_at k a b <= 0 -> compare_at k b c <= 0 ->
  compare_at k a c <= 0 /\
  (compare_at k a c = 0 -> compare_at k a b = 0 /\ compare_at k b c = 0).
Proof.
  intros W. apply wf_key_cases in W. destruct W as [Wd Wn].
  unfold compare_at, compare_cells, native_compare.
  destruct (nth (column_number k) a None) as [x|],
           (nth (column_number k) b None) as [y|],
           (nth (column_number k) c None) as [z|];
    try (destruct (Z.compare_spec x y));
    try (destruct (Z.compare_spec y z));
    try (destruct (Z.compare_spec x z));
    destruct Wd as [Wd|Wd]; destruct Wn as [Wn|Wn]; rewrite ?Wd, ?Wn; lia.
Qed.

Lemma compare_rows_trans (d : SortDescription) (a b c : Row) :
  wf_desc d = true ->
  row_le d a b -> row_le d b c -> row_le d a c.
Proof.
  unfold row_le. induction d as [|k ks IH]; simpl; intros W Hab Hbc; [lia|].
  apply andb_true_iff in W. destruct W as [Wk Wks].
  assert (Lab : compare_at k a b <= 0)
    by (destruct (Z.eqb_spec (compare_at k a b) 0); lia).
  assert (Lbc : compare_at k b c <= 0)
    by (destruct (Z.eqb_spec (compare_at k b c) 0); lia).
  destruct (compare_at_trans k a b c Wk Lab Lbc) as [T1 T2].
  destruct (Z.eqb_spec (compare_at k a c) 0) as [Eac|Eac]; [|exact T1].
  destruct (T2 Eac) as [Eab Ebc]. rewrite Eab in Hab. rewrite Ebc in Hbc.
  simpl in Hab, Hbc. apply IH; assumption.
Qed.

Lemma less_false_le (d : SortDescription) (a b : Row) :
  less d a b = false -> row_le d b a.
Proof.
  unfold less, row_le. rewrite (compare_rows_antisym d a b).
  intros H. apply Z.ltb_ge in H. lia.
Qed.

Lemma less_true_le (d : SortDescription) (a b : Row) :
  less d a b = true -> row_le d a b.
Proof.
  unfold less, row_le. intros H. apply Z.ltb_lt in H. lia.
Qed.

Lemma row_le_refl (d : SortDescription) (a : Row) : row_le d a a.
Proof.
  unfold row_le. pose proof (compare_rows_antisym d a a). lia.
Qed.

(** * Lists whose first rows are in order *)

Lemma In_firstn {A} (n : nat) (l : list A) (x : A) : In x (firstn n l) -> In x l.
Proof.
  revert l. induction n as [|n IH]; intros [|y l] H; simpl in *; try tauto.
  destruct H; [left; assumption | right; apply IH; assumption].
Qed.

Lemma In_skipn {A} (n : nat) (l : list A) (x : A) : In x (skipn n l) -> In x l.
Proof.
  revert l. induction n as [|n IH]; intros [|y l] H; simpl in *; try tauto.
  right. apply IH. assumption.
Qed.

Section Presorted.

Context {A : Type} (le : A -> A -> Prop).

Lemma presorted_mono (n m : nat) (l : list A) :
  (m <= n)%nat -> presorted le n l -> presorted le m l.
Proof.
  revert m l. induction n as [|n IH]; intros m l Hm H.
  - assert (m = 0%nat) by lia. subst. exact I.
  - destruct m as [|m]; [exact I|].
    destruct l as [|x l]; [exact I|].
    destruct H as [H1 H2]. split; [exact H1|]. apply IH; [lia | exact H2].
Qed.

Lemma presorted_of_sorted (n : nat) (l : list A) :
  StronglySorted le l -> presorted le n l.
Proof.
  revert l. induction n as [|n IH]; intros l H; [exact I|].
  destruct l as [|x l]; [exact I|].
  inversion H; subst. split; [assumption | apply IH; assumption].
Qed.

Lemma sorted_of_presorted (n : nat) (l : list A) :
  (length l <= n)%nat -> presorted le n l -> StronglySorted le l.
Proof.
  revert n. induction l as [|x l IH]; intros n Hn H; [constructor|].
  destruct n as [|n]; [simpl in Hn; lia|].
  destruct H as [H1 H2]. constructor; [|exact H1].
  apply (IH n); [simpl in Hn; lia | exact H2].
Qed.

Lemma presorted_skipn (a b : nat) (l : list A) :
  presorted le (a + b) l -> presorted le b (skipn a l).
Proof.
  revert l. induction a as [|a IH]; intros l H; [exact H|].
  destruct l as [|x l]; [destruct b; exact I|].
  destruct H as [_ H]. simpl. apply IH. exact H.
Qed.

Lemma presorted_firstn_sorted (n : nat) (l : list A) :
  presorted le n l -> StronglySorted le (firstn n l).
Proof.
  revert l. induction n as [|n IH]; intros l H; [constructor|].
  destruct l as [|x l]; [constructor|].
  destruct H as [H1 H2]. simpl. constructor; [apply IH; exact H2|].
  rewrite Forall_forall in *. intros y Hy. apply H1.
  eapply In_firstn; eassumption.
Qed.

Lemma presorted_prefix_tail (n : nat) (s t : list A) :
  StronglySorted le s -> Permutation (skipn n s) t ->
  presorted le n (firstn n s ++ t).
Proof.
  revert s t. induction n as [|n IH]; intros s t Hs Hp; [exact I|].
  destruct s as [|x s]; simpl.
  - simpl in Hp. apply Permutation_nil in Hp. subst. exact I.
  - inversion Hs; subst. simpl in Hp. split.
    + apply Forall_app. split.
      * rewrite Forall_forall in *. intros y Hy. apply H2.
        eapply In_firstn; eassumption.
      * rewrite Forall_forall in *. intros y Hy. apply H2.
        apply (Permutation_in _ (Permutation_sym Hp)) in Hy.
        eapply In_skipn; eassumption.
    + apply IH; assumption.
Qed.

End Presorted.

(** * Two implementations of [sort_block] *)

Lemma insert_row_perm (d : SortDescription) (x : Row) (l : Block) :
  Permutation (insert_row d x l) (x :: l).
Proof.
  induction l as [|y l IH]; simpl; [reflexivity|].
  destruct (less d y x); [|reflexivity].
  rewrite IH. apply perm_swap.
Qed.

Lemma insertion_sort_perm (d : SortDescription) (l : Block) :
  Permutation (insertion_sort d l) l.
Proof.
  induction l as [|x l IH]; simpl; [reflexivity|].
  rewrite insert_row_perm. constructor. exact IH.
Qed.

Lemma insert_row_sorted (d : SortDescription) (x : Row) (l : Block) :
  wf_desc d = true ->
  StronglySorted (row_le d) l -> StronglySorted (row_le d) (insert_row d x l).
Proof.
  intros W. induction l as [|y l IH]; simpl; intros H.
  - constructor; constructor.
  - inversion H; subst. destruct (less d y x) eqn:E.
    + constructor; [apply IH; assumption|].
      apply (Permutation_Forall (Permutation_sym (insert_row_perm d x l))).
      constructor; [apply less_true_le; exact E | assumption].
    + apply less_false_le in E. constructor; [exact H|].
      constructor; [exact E|].
      rewrite Forall_forall in *. intros z Hz.
      apply (compare_rows_trans d x y z W E). apply H3. exact Hz.
Qed.

Lemma insertion_sort_sorted (d : SortDescription) (l : Block) :
  wf_desc d = true -> StronglySorted (row_le d) (insertion_sort d l).
Proof.
  intros W. induction l as [|x l IH]; simpl; [constructor|].
  apply insert_row_sorted; assumption.
Qed.

Lemma limited_sort_block_perm (b : Block) (d : SortDescription) (h : Z) :
  Permutation (limited_sort_block b d h) b.
Proof.
  unfold limited_sort_block. destruct (h <? 0).
  - apply insertion_sort_perm.
  - rewrite <- (Permutation_rev (skipn _ _)), firstn_skipn, insertion_sort_perm.
    symmetry. apply Permutation_rev.
Qed.

Lemma full_sort_block_perm (b : Block) (d : SortDescription) (h : Z) :
  Permutation (full_sort_block b d h) b.
Proof.
  apply insertion_sort_perm.
Qed.

Lemma full_sort_block_sorted (b : Block) (d : SortDescription) (h : Z) (k : nat) :
  wf_desc d = true -> presorted (row_le d) k (full_sort_block b d h).
Proof.
  intros W. apply presorted_of_sorted. apply insertion_sort_sorted. exact W.
Qed.

Lemma limited_sort_block_full (b : Block) (d : SortDescription) (h : Z) :
  wf_desc d = true -> h < 0 ->
  presorted (row_le d) (length b) (limited_sort_block b d h).
Proof.
  intros W Hh. unfold limited_sort_block. destruct (Z.ltb_spec h 0); [|lia].
  apply presorted_of_sorted. apply insertion_sort_sorted. exact W.
Qed.

Lemma limited_sort_block_partial (b : Block) (d : SortDescription) (h : Z) :
  wf_desc d = true -> 0 <= h ->
  presorted (row_le d) (Z.to_nat h) (limited_sort_block b d h).
Proof.
  intros W Hh. unfold limited_sort_block. destruct (Z.ltb_spec h 0); [lia|].
  apply presorted_prefix_tail.
  - apply insertion_sort_sorted. exact W.
  - apply Permutation_rev.
Qed.

(** Both implementations meet the contract of [sort_block]. *)
Definition full_sorter : Sorter :=
  mkSorter full_sort_block full_sort_block_perm
    (fun b d h W _ => full_sort_block_sorted b d h (length b) W)
    (fun b d h W _ => full_sort_block_sorted b d h (Z.to_nat h) W).

Definition limited_sorter : Sorter :=
  mkSorter limited_sort_block limited_sort_block_perm
    limited_sort_block_full limited_sort_block_partial.

Lemma count_events_snoc (p : Event -> bool) (l : list Event) (e : Event) :
  count_events p (l ++ [e]) = (count_events p l + (if p e then 1 else 0))%nat.
Proof.
  unfold count_events. rewrite filter_app, length_app. simpl.
  destruct (p e); reflexivity.
Qed.

Lemma existsb_snoc (p : Event -> bool) (l : list Event) (e : Event) :
  existsb p (l ++ [e]) = existsb p l || p e.
Proof.
  rewrite existsb_app. simpl. rewrite orb_false_r. reflexivity.
Qed.

(** * The build phase *)

Lemma fill_sort_description_wf (n : VSortNode) :
  wf_desc (fill_sort_description n) = true.
Proof.
  unfold wf_desc, fill_sort_description, description_of. rewrite forallb_forall.
  intros k Hk. apply in_map_iff in Hk. destruct Hk as [i [Hi _]]. subst k.
  unfold wf_key, sort_key; simpl.
  destruct (nth i (_is_asc_order n) false), (nth i (_nulls_first n) false); reflexivity.
Qed.

(** The value of [_offset + _limit] when it does not overflow. *)
Lemma wrap_int64_small (x : Z) : - 2 ^ 63 <= x < 2 ^ 63 -> wrap_int64 x = x.
Proof.
  intros H. unfold wrap_int64. rewrite Z.mod_small by lia. lia.
Qed.

(** What [partial_sort] leaves when it returns OK: no expression has
    failed, the description is filled, the block is sorted. *)
Lemma partial_sort_ok (sorter : Sorter) (n : VSortNode) (block : Block) :
  fst (fst (partial_sort sorter n block)) = OK ->
  partial_sort sorter n block =
    (OK, set_sort_description n (fill_sort_description n),
     sort_block sorter (sort_input_block n block) (fill_sort_description n)
       (limit_hint n)).
Proof.
  unfold partial_sort, sort_input_block.
  destruct (need_materialize_tuple (_vsort_exec_exprs n));
    repeat match goal with
           | |- context [match first_failure ?a ?b with _ => _ end] =>
               destruct (first_failure a b) as [[? ?]|]
           end; simpl; intros H; try discriminate H; reflexivity.
Qed.

Lemma partial_sort_ok_description (sorter : Sorter) (n : VSortNode) (block : Block) :
  fst (fst (partial_sort sorter n block)) = OK ->
  _sort_description (snd (fst (partial_sort sorter n block))) = fill_sort_description n.
Proof.
  intros H. rewrite (partial_sort_ok sorter n block H). reflexivity.
Qed.

(** Case analysis of one [dispose_run] step, on the goal. *)
Ltac dispose_cases :=
  unfold dispose_run, admit_run, partial_sort, after_admission; simpl;
  repeat (match goal with
          | |- context [match first_failure ?a ?b with _ => _ end] =>
              destruct (first_failure a b) as [[? ?]|] eqn:?
          | |- context [if ?c then _ else _] => destruct c eqn:?
          | |- context [match pq_top ?a ?b with _ => _ end] =>
              destruct (pq_top a b) eqn:?
          | |- context [match check_query_state ?a ?b with _ => _ end] =>
              destruct (check_query_state a b) eqn:?
          end; simpl).

Section BuildInvariants.

Variable sorter : Sorter.
Variable BUFFERED_BLOCK_SIZE : Z.
Variable BUFFERED_BLOCK_BYTES : Z.
Variable allocated_bytes : Block -> Z.
Variable state : RuntimeState.

Local Abbreviation dispose := (dispose_run sorter allocated_bytes state).
Local Abbreviation loop :=
  (sort_input_loop sorter BUFFERED_BLOCK_SIZE BUFFERED_BLOCK_BYTES allocated_bytes state).

(** The induction principle of the build loop: a property [P] of the state
    that every step keeps yields [R] of whatever [sort_input] returns. *)
Lemma sort_input_loop_ind (P : VSortNode -> Prop) (R : Result -> VSortNode -> Prop) :
  (forall n, P n -> P (tick n)) ->
  (forall n b, P n -> P (merge_upstream n b)) ->
  (forall n, P n ->
     match dispose n with Next n' => P n' | Return r n' => R r n' end) ->
  (forall n, P n -> R (Returned OK) (build_merge_tree n)) ->
  (forall n code, P n -> R (Returned (UpstreamError code)) (tick n)) ->
  forall child n, P n -> R (fst (loop child n)) (snd (loop child n)).
Proof.
  intros Htick Hmerge Hstep Hdone Herr.
  induction child as [|c rest IH]; intros n Hn; simpl.
  - pose proof (Hstep _ (Htick _ Hn)) as S.
    destruct (dispose (tick n)) as [n'|r n']; simpl; [apply Hdone|]; exact S.
  - destruct c as [b|code]; simpl; [|apply Herr; exact Hn].
    assert (Hm : P (merge_upstream (tick n) b)) by (apply Hmerge, Htick, Hn).
    destruct (keep_accumulating _ _ _ _ _); [apply IH; exact Hm|].
    pose proof (Hstep _ Hm) as S.
    destruct (dispose (merge_upstream (tick n) b)) as [n'|r n']; simpl; [|exact S].
    destruct rest; [apply Hdone | apply IH]; exact S.
Qed.

(** [open] returns an error of its own and leaves the operator as it is,
    or it is the build. *)
Lemma open_cases (child : list ChildResult) (n : VSortNode) :
  (exists s, s <> OK /\
     open sorter BUFFERED_BLOCK_SIZE BUFFERED_BLOCK_BYTES allocated_bytes state child n =
       (Returned s, n)) \/
  open sorter BUFFERED_BLOCK_SIZE BUFFERED_BLOCK_BYTES allocated_bytes state child n =
    loop child n.
Proof.
  unfold open, return_if_error, sort_input.
  destruct (exec_node_open state);
    try (left; eexists; split; [|reflexivity]; discriminate).
  destruct (exprs_open state);
    try (left; eexists; split; [|reflexivity]; discriminate).
  destruct (is_cancelled state (_clock n));
    [left; eexists; split; [|reflexivity]; discriminate|].
  destruct (check_query_state state (_clock n));
    try (left; eexists; split; [|reflexivity]; discriminate).
  destruct (child_open state);
    try (left; eexists; split; [|reflexivity]; discriminate).
  right. reflexivity.
Qed.

Lemma open_ok (child : list ChildResult) (n n' : VSortNode) :
  open sorter BUFFERED_BLOCK_SIZE BUFFERED_BLOCK_BYTES allocated_bytes state child n =
    (Returned OK, n') ->
  loop child n = (Returned OK, n').
Proof.
  intros E. destruct (open_cases child n) as [(s & Hs & E')|E'].
  - rewrite E' in E. inversion E. subst. contradiction.
  - rewrite <- E'. exact E.
Qed.

End BuildInvariants.

Section TopNCounter.

Variable sorter : Sorter.
Variable BUFFERED_BLOCK_SIZE : Z.
Variable BUFFERED_BLOCK_BYTES : Z.
Variable allocated_bytes : Block -> Z.
Variable state : RuntimeState.

Lemma counter_idle_dispose (n : VSortNode) :
  counter_idle n ->
  match dispose_run sorter allocated_bytes state n with
  | Next n' => counter_idle n'
  | Return r n' => counter_idle n' /\ r <> Undefined
  end.
Proof.
  unfold counter_idle. destruct n. simpl. intros (Hl & Hc & Hp & He & Hs).
  dispose_cases;
    rewrite ?count_events_snoc, ?existsb_snoc, ?length_app; simpl;
    change (rows []) with 0;
    rewrite ?Hp; repeat split; try assumption; try discriminate; try lia.
Qed.

Lemma counter_idle_loop (child : list ChildResult) (n : VSortNode) :
  counter_idle n ->
  let res := sort_input_loop sorter BUFFERED_BLOCK_SIZE BUFFERED_BLOCK_BYTES
               allocated_bytes state child n in
  counter_idle (snd res) /\ fst res <> Undefined.
Proof.
  intros Hn.
  apply (sort_input_loop_ind sorter BUFFERED_BLOCK_SIZE BUFFERED_BLOCK_BYTES
           allocated_bytes state counter_idle
           (fun r n' => counter_idle n' /\ r <> Undefined)); try exact Hn.
  - intros m Hm. exact Hm.
  - intros m b Hm. unfold merge_upstream. destruct (negb _); exact Hm.
  - apply counter_idle_dispose.
  - intros m Hm. split; [|discriminate].
    unfold build_merge_tree. simpl. destruct (1 <? _)%nat; exact Hm.
  - intros m code Hm. split; [exact Hm | discriminate].
Qed.

End TopNCounter.

(** * C3: the admitted-row counter *)

(** The only update of the counter adds the row count of a moved-from
    block: no step of the build changes it, whatever the state. *)
Lemma counter_untouched (sorter : Sorter) (bytes : Block -> Z)
    (state : RuntimeState) (n : VSortNode) :
  match dispose_run sorter bytes state n with
  | Next n' => _num_rows_in_block n' = _num_rows_in_block n
  | Return _ n' => _num_rows_in_block n' = _num_rows_in_block n
  end.
Proof.
  destruct n. simpl.
  dispose_cases; change (rows []) with 0; rewrite ?Z.add_0_r; reflexivity.
Qed.

(** C3.  In top-N mode with a positive limit the counter
    [_num_rows_in_block] is advanced by the row count of a block that has
    been moved from, so no step changes it and it is 0 after the build; no
    dominance comparison, no compared admission and no discard happens;
    every run that has been extracted and sorted is admitted by the
    unconditional branch and is in [_sorted_blocks]; and the build never
    reaches the [top()] of the empty pruning heap. *)
Theorem topn_counter_stays_zero (sorter : Sorter) (SIZE BYTES : Z)
    (bytes : Block -> Z) (state : RuntimeState) (tnode : TPlanNode)
    (child : list ChildResult) :
  0 < limit tnode ->
  (forall m,
      match dispose_run sorter bytes state m with
      | Next m' => _num_rows_in_block m' = _num_rows_in_block m
      | Return _ m' => _num_rows_in_block m' = _num_rows_in_block m
      end) /\
  let res := open sorter SIZE BYTES bytes state child (fresh tnode) in
  _num_rows_in_block (snd res) = 0 /\
  (_num_rows_in_block (snd res) <? _limit (snd res)) = true /\
  existsb is_pruning_event (_events (snd res)) = false /\
  count_events is_extract (_events (snd res)) =
    count_events is_unconditional (_events (snd res)) /\
  length (_sorted_blocks (snd res)) = count_events is_extract (_events (snd res)) /\
  fst res <> Undefined.
Proof.
  intros Hl. split; [intros m; apply counter_untouched|]. intros res.
  assert (I0 : counter_idle (fresh tnode)).
  { unfold counter_idle, fresh; simpl. repeat split; assumption. }
  assert (G : counter_idle (snd res) /\ fst res <> Undefined).
  { subst res.
    destruct (open_cases sorter SIZE BYTES bytes state child (fresh tnode))
      as [(s & _ & E)|E]; rewrite E.
    - split; [exact I0 | discriminate].
    - apply counter_idle_loop. exact I0. }
  destruct G as [(Hl' & Hc & Hp & He & Hs) Hu]. repeat split; try assumption.
  rewrite Hc. apply Z.ltb_lt. exact Hl'.
Qed.

Lemma topn_counter_stays_zero_witness :
  let res := open limited_sorter 2 1000 (fun _ => 0) (quiet_state 4096)
               three_runs (fresh (plan_asc 2 None)) in
  _num_rows_in_block (snd res) = 0 /\
  (_num_rows_in_block (snd res) <? _limit (snd res)) = true /\
  existsb is_pruning_event (_events (snd res)) = false /\
  count_events is_extract (_events (snd res)) =
    count_events is_unconditional (_events (snd res)) /\
  length (_sorted_blocks (snd res)) = count_events is_extract (_events (snd res)) /\
  fst res <> Undefined.
Proof.
  apply (proj2 (topn_counter_stays_zero limited_sorter 2 1000 (fun _ => 0)
                  (quiet_state 4096) (plan_asc 2 None) three_runs eq_refl)).
Defined.

Lemma nth_map_seq {A} (f : nat -> A) (len i : nat) (d : A) :
  (i < len)%nat -> nth i (map f (seq 0 len)) d = f i.
Proof.
  intros Hi. rewrite (nth_indep _ d (f 0%nat)) by (rewrite length_map, length_seq; exact Hi).
  rewrite map_nth, seq_nth by exact Hi. reflexivity.
Qed.

(** * C9: the nulls direction of a sort key *)

(** C9.  After a [partial_sort] that returned OK, key [i] of the
    description has direction +1 when [_is_asc_order[i]] holds and -1
    otherwise, and its nulls direction is the opposite of the direction when
    [_nulls_first[i]] holds and the direction itself otherwise. *)
Theorem nulls_direction_encoding (sorter : Sorter) (n : VSortNode)
    (block : Block) (i : nat) :
  fst (fst (partial_sort sorter n block)) = OK ->
  (i < length (lhs_ordering_expr_ctxs (_vsort_exec_exprs n)))%nat ->
  let description := _sort_description (snd (fst (partial_sort sorter n block))) in
  let key := nth i description (mkSortColumn 0 0 0) in
  length description = length (lhs_ordering_expr_ctxs (_vsort_exec_exprs n)) /\
  direction key = (if nth i (_is_asc_order n) false then 1 else -1) /\
  nulls_direction key =
    (if nth i (_nulls_first n) false then - direction key else direction key).
Proof.
  intros Hok Hi. rewrite (partial_sort_ok_description sorter n block Hok).
  unfold fill_sort_description, description_of.
  split; [rewrite length_map, length_seq; reflexivity|].
  rewrite nth_map_seq by exact Hi. simpl. split; reflexivity.
Qed.

Lemma nulls_direction_encoding_witness :
  let description :=
    _sort_description (snd (fst (partial_sort full_sorter two_key_node []))) in
  let key := nth 1 description (mkSortColumn 0 0 0) in
  length description = 2%nat /\ direction key = -1 /\ nulls_direction key = 1.
Proof.
  apply (nulls_direction_encoding full_sorter two_key_node [] 1 eq_refl).
  simpl. lia.
Defined.

(** * C10: the row-batch overload *)

(** C10.  The row-batch overload of [get_next] returns NotSupported, sets
    end-of-stream, and leaves the operator (runs, heaps, offset, counters)
    and the batch as they are. *)
Theorem get_next_row_batch_not_supported (state : RuntimeState) (n : VSortNode)
    (row_batch : RowBatch) (eos : bool) :
  get_next_row_batch state n row_batch eos =
  (NotSupported "Not Implemented VSortNode::get_next scalar", n, row_batch, true).
Proof.
  reflexivity.
Qed.

(** * C4: the limit hint of the partial sort *)


(** C4 on a concrete input: plain-sort mode, offset 3.  The specification
    gives no limit hint in plain-sort mode.  [partial_sort] tests nothing
    and hands [_offset + _limit] to [sort_block] (line 210): here the hint
    2, which is non-negative, for every block and whatever [sort_block]
    is. *)
Lemma plain_sort_receives_hint :
  let n := plain_offset_node in
  _limit n = -1 /\ _offset n = 3 /\
  spec_limit_hint (_offset n) (_limit n) = None /\
  limit_hint n = 2 /\
  (forall sorter block,
      partial_sort sorter n block =
      (OK, set_sort_description n (fill_sort_description n),
       sort_block sorter block (fill_sort_description n) 2)).
Proof.
  repeat split.
Qed.

(** * C8: the single-run fast path *)

Lemma get_next_one_run (state : RuntimeState) (n : VSortNode)
    (run block : Block) (mem_reuse eos : bool) :
  _sorted_blocks n = [run] ->
  let '(status, n', out, eos') := get_next state n block mem_reuse eos in
  status = OK /\ eos' = true /\
  _priority_queue n' = _priority_queue n /\
  _cursors n' = _cursors n /\
  _offset n' = _offset n /\
  _sorted_blocks n' = [block] /\
  out = cut_to_limit n (skipn (Z.to_nat (_offset n)) run) /\
  (_limit n = -1 -> out = skipn (Z.to_nat (_offset n)) run).
Proof.
  intros Hr. unfold get_next. rewrite Hr.
  assert (Hskip : (if negb (_offset n =? 0) then skip_num_rows run (_offset n) else run)
                  = skipn (Z.to_nat (_offset n)) run).
  { destruct (Z.eqb_spec (_offset n) 0) as [E|E]; simpl; [rewrite E|]; reflexivity. }
  rewrite Hskip. unfold reached_limit, cut_to_limit. destruct n; simpl in *.
  destruct (negb (_limit0 =? -1) && _) eqn:E; simpl; repeat split; try reflexivity.
  - intros Hl. subst. discriminate.
Qed.

(** * C2: the admission rule of the specification, and what the code does *)

(** C2 on a concrete input: limit 2, offset 0 and three runs of two rows.
    The rule of the specification discards the second and the third run; the
    code admits all three by the unconditional branch, its counter still
    being 0, and never runs the dominance test. *)
Lemma admission_keeps_dominated_runs :
  let n := fresh (plan_asc 2 None) in
  let res := open limited_sorter 2 1000 (fun _ => 0) (quiet_state 4096) three_runs n in
  let d := fill_sort_description n in
  fst res = Returned OK /\
  _sorted_blocks (snd res) = [map row1 [1; 2]; map row1 [3; 4]; map row1 [5; 6]] /\
  _num_rows_in_block (snd res) = 0 /\
  existsb is_pruning_event (_events (snd res)) = false /\
  spec_admits d 0 2 [map row1 [1; 2]] (map row1 [3; 4]) = Some false /\
  spec_admits d 0 2 [map row1 [1; 2]] (map row1 [5; 6]) = Some false.
Proof.
  vm_compute. repeat split; reflexivity.
Qed.

(** * C7: the cancellation checkpoint of the build *)

Section Checkpoints.

Variable sorter : Sorter.
Variable BUFFERED_BLOCK_SIZE : Z.
Variable BUFFERED_BLOCK_BYTES : Z.
Variable allocated_bytes : Block -> Z.
Variable state : RuntimeState.

Lemma checked_dispose (n : VSortNode) :
  checked state n ->
  match dispose_run sorter allocated_bytes state n with
  | Next n' => checked state n'
  | Return r n' => checked_result state r n'
  end.
Proof.
  unfold checked, checked_result, checkpoints. destruct n. simpl.
  intros (Hm & Hk & Hc & Hu & Hf).
  dispose_cases;
    rewrite ?count_events_snoc, ?forallb_app, ?fold_left_app, ?existsb_snoc; simpl;
    change (rows []) with 0;
    rewrite ?Hu, ?Hk, ?Hf; simpl;
    repeat match goal with H : is_cancelled _ _ = _ |- _ => rewrite H end; simpl;
    repeat split; try tauto; try discriminate; try lia;
    try (intros _; eexists; reflexivity).
Qed.

Lemma checked_loop (child : list ChildResult) (n : VSortNode) :
  checked state n ->
  let res := sort_input_loop sorter BUFFERED_BLOCK_SIZE BUFFERED_BLOCK_BYTES
               allocated_bytes state child n in
  checked_result state (fst res) (snd res).
Proof.
  intros Hn.
  apply (sort_input_loop_ind sorter BUFFERED_BLOCK_SIZE BUFFERED_BLOCK_BYTES
           allocated_bytes state (checked state) (checked_result state)); try exact Hn.
  - intros m Hm. exact Hm.
  - intros m b Hm. unfold merge_upstream. destruct (negb _); exact Hm.
  - apply checked_dispose.
  - intros m (_ & Hk & Hc & Hu & Hf). unfold checked_result, build_merge_tree. simpl.
    destruct (1 <? _)%nat; simpl;
      (split; [exact Hk | split; [exact Hc | split; [discriminate |
         split; [right; exact Hu|]]]]);
      intros H; change (existsb is_sort_failure (_events m) = true) in H;
      rewrite Hf in H; discriminate.
  - intros m code (_ & Hk & Hc & Hu & Hf).
    split; [exact Hk | split; [exact Hc | split; [discriminate |
      split; [right; exact Hu|]]]].
    intros H. change (existsb is_sort_failure (_events m) = true) in H.
    rewrite Hf in H. discriminate.
Qed.

(** One step, whatever the state: the flag is polled once for every run the
    step admits; a step that discards the run, and a step whose partial sort
    fails, poll nothing. *)
Lemma checkpoint_dispose (n : VSortNode) :
  let n' := flow_node (dispose_run sorter allocated_bytes state n) in
  let new := events_since n n' in
  _events n' = _events n ++ new /\
  count_events is_cancel_check new = count_events is_admission new /\
  (existsb is_discard new = true -> count_events is_cancel_check new = 0%nat) /\
  (existsb is_sort_failure new = true -> count_events is_cancel_check new = 0%nat).
Proof.
  unfold events_since. destruct n. simpl.
  dispose_cases;
    rewrite <- ?app_assoc, ?skipn_app, ?skipn_all, ?Nat.sub_diag; simpl;
    rewrite ?app_nil_r; repeat split; try discriminate; reflexivity.
Qed.

End Checkpoints.

(** C7, as the code has it.  In every step of the build, whatever the
    state, the cancellation flag is polled once for every run that is
    admitted to [_sorted_blocks]; a run that the pruning discards and a run
    whose partial sort fails are followed by no poll.  For a plan in
    plain-sort mode or with a positive limit, the build polls the flag once
    after every run it has extracted and sorted, before the next extraction
    and before it returns; a run sorted at a time at which the flag is set
    makes the build return the cancellation error; and a partial sort that
    fails makes it return the error of the expression. *)
Theorem cancellation_checked_per_run (sorter : Sorter) (SIZE BYTES : Z)
    (bytes : Block -> Z) (state : RuntimeState) (tnode : TPlanNode)
    (child : list ChildResult) :
  (forall m,
      let m' := flow_node (dispose_run sorter bytes state m) in
      let new := events_since m m' in
      _events m' = _events m ++ new /\
      count_events is_cancel_check new = count_events is_admission new /\
      (existsb is_discard new = true -> count_events is_cancel_check new = 0%nat) /\
      (existsb is_sort_failure new = true -> count_events is_cancel_check new = 0%nat)) /\
  (limit tnode = -1 \/ 0 < limit tnode ->
   let res := open sorter SIZE BYTES bytes state child (fresh tnode) in
   checkpoints (_events (snd res)) = Some false /\
   count_events is_cancel_check (_events (snd res)) =
     count_events is_extract (_events (snd res)) /\
   fst res <> Undefined /\
   (forall t unsorted sorted,
       In (EvExtract t unsorted sorted) (_events (snd res)) ->
       is_cancelled state t = true -> fst res = Returned Cancelled) /\
   (forall t unsorted,
       In (EvSortFailed t unsorted) (_events (snd res)) ->
       exists code, fst res = Returned (ExpressionError code))).
Proof.
  split; [intros m; apply checkpoint_dispose|].
  intros Hl res.
  assert (I0 : checked state (fresh tnode)).
  { unfold checked, fresh; simpl. repeat split; tauto. }
  assert (G : checked_result state (fst res) (snd res)).
  { subst res.
    destruct (open_cases sorter SIZE BYTES bytes state child (fresh tnode))
      as [(s & _ & E)|E]; rewrite E.
    - repeat split; try discriminate. right. reflexivity.
    - apply checked_loop. exact I0. }
  destruct G as (Hk & Hc & Hu & Hf & He).
  split; [exact Hk | split; [exact Hc | split; [exact Hu|]]]. split.
  - intros t u s Hin Ht. destruct Hf as [Hf|Hf]; [exact Hf|].
    rewrite forallb_forall in Hf. specialize (Hf _ Hin). simpl in Hf.
    rewrite Ht in Hf. discriminate.
  - intros t u Hin. apply He. apply existsb_exists.
    exists (EvSortFailed t u). split; [exact Hin | reflexivity].
Qed.

Lemma cancellation_checked_per_run_witness :
  fst (open limited_sorter 2 1000 (fun _ => 0) cancelled_later three_runs
         (fresh (plan_asc 2 None))) = Returned Cancelled /\
  (let m' := flow_node (dispose_run limited_sorter (fun _ => 0) cancelled_later
                          pruning_node) in
   events_since pruning_node m' =
     [EvExtract 0 (map row1 [6; 5]) (map row1 [5; 6]); EvTotallyGreater; EvDiscard] /\
   count_events is_cancel_check (events_since pruning_node m') = 0%nat).
Proof.
  pose proof (cancellation_checked_per_run limited_sorter 2 1000 (fun _ => 0)
                cancelled_later (plan_asc 2 None) three_runs) as [Hstep Hbuild].
  split.
  - apply (proj1 (proj2 (proj2 (proj2 (Hbuild (or_intror eq_refl)))))
             2%nat (map row1 [4; 3]) (map row1 [3; 4])).
    + vm_compute. tauto.
    + reflexivity.
  - split; [vm_compute; reflexivity|].
    apply (proj1 (proj2 (proj2 (Hstep pruning_node)))). vm_compute. reflexivity.
Defined.

(** C7 as stated fails: the ordering expression fails on the first run, which
    is extracted after the child has been called, when the flag is set.  The
    build returns the error of the expression, not the cancellation error,
    and has not polled the flag for this run. *)
Lemma extraction_without_checkpoint :
  let res := open limited_sorter 2 1000 (fun _ => 0) cancelled_soon
               [ChildBlock (map row1 [5; 4])] (fresh plan_failing_key) in
  _events (snd res) = [EvSortFailed 1 (map row1 [5; 4])] /\
  extracted_unsorted (_events (snd res)) = [map row1 [5; 4]] /\
  is_cancelled cancelled_soon 1 = true /\
  count_events is_cancel_check (_events (snd res)) = 0%nat /\
  fst res = Returned (ExpressionError 7) /\
  fst res <> Returned Cancelled.
Proof.
  vm_compute. repeat split; try reflexivity. discriminate.
Qed.

(** * C6: the run buffer *)

Lemma extracted_unsorted_snoc (l : list Event) (e : Event) :
  extracted_unsorted (l ++ [e]) =
  extracted_unsorted l ++
  match e with EvExtract _ u _ | EvSortFailed _ u => [u] | _ => [] end.
Proof.
  unfold extracted_unsorted. rewrite flat_map_app. simpl. rewrite app_nil_r. reflexivity.
Qed.

Lemma rows_zero_nil (b : Block) : (0 <? rows b) = false -> b = [].
Proof.
  destruct b; [reflexivity|]. unfold rows. simpl length. intros H.
  apply Z.ltb_ge in H. lia.
Qed.

Section RunBuffer.

Variable sorter : Sorter.
Variable BUFFERED_BLOCK_SIZE : Z.
Variable BUFFERED_BLOCK_BYTES : Z.
Variable allocated_bytes : Block -> Z.
Variable state : RuntimeState.

(** One step: when the loop goes on, the buffer is empty and what it held
    has been extracted as one run; a step that returns does not return OK. *)
Lemma buffer_dispose (n : VSortNode) :
  match dispose_run sorter allocated_bytes state n with
  | Next n' =>
      _unsorted_block n' = [] /\
      concat (extracted_unsorted (_events n')) =
        concat (extracted_unsorted (_events n)) ++ _unsorted_block n
  | Return r n' => r <> Returned OK
  end.
Proof.
  destruct n. simpl.
  dispose_cases;
    rewrite ?extracted_unsorted_snoc, ?concat_app, ?app_nil_r; simpl;
    rewrite ?app_nil_r;
    try match goal with H : (0 <? rows _) = false |- _ =>
          apply rows_zero_nil in H; subst end;
    rewrite ?app_nil_r;
    try (split; reflexivity); try discriminate.
Qed.

Lemma merge_upstream_buffer (n : VSortNode) (b : Block) :
  _unsorted_block (merge_upstream n b) = _unsorted_block n ++ b /\
  _events (merge_upstream n b) = _events n.
Proof.
  unfold merge_upstream. destruct b; simpl; [rewrite app_nil_r|]; split; reflexivity.
Qed.

Lemma build_merge_tree_frame (n : VSortNode) :
  _unsorted_block (build_merge_tree n) = _unsorted_block n /\
  _events (build_merge_tree n) = _events n /\
  _sorted_blocks (build_merge_tree n) = _sorted_blocks n.
Proof.
  unfold build_merge_tree. destruct (1 <? _)%nat; simpl; repeat split; reflexivity.
Qed.

Lemma buffer_loop (child : list ChildResult) (n : VSortNode) :
  let res := sort_input_loop sorter BUFFERED_BLOCK_SIZE BUFFERED_BLOCK_BYTES
               allocated_bytes state child n in
  fst res = Returned OK ->
  _unsorted_block (snd res) = [] /\
  concat (extracted_unsorted (_events (snd res))) =
    concat (extracted_unsorted (_events n)) ++ _unsorted_block n ++ upstream_rows child.
Proof.
  revert n. induction child as [|c rest IH]; intros n; simpl.
  - pose proof (buffer_dispose (tick n)) as S.
    destruct (dispose_run sorter allocated_bytes state (tick n)) as [n'|r n']; simpl.
    + intros _. destruct (build_merge_tree_frame n') as (Hu & He & _).
      rewrite Hu, He, app_nil_r. exact S.
    + intros H. contradiction.
  - destruct c as [b|code]; simpl; [|discriminate].
    destruct (merge_upstream_buffer (tick n) b) as [Mu Me]. simpl in Mu, Me.
    destruct (keep_accumulating _ _ _ _ _).
    + intros H. destruct (IH _ H) as [H1 H2]. split; [exact H1|].
      rewrite H2, Mu, Me, <- app_assoc. reflexivity.
    + pose proof (buffer_dispose (merge_upstream (tick n) b)) as S.
      destruct (dispose_run sorter allocated_bytes state (merge_upstream (tick n) b))
        as [n'|r n']; simpl; [|intros H; contradiction].
      destruct S as [S1 S2]. rewrite Mu, Me in S2.
      destruct rest as [|c' rest']; cbn [fst snd].
      * intros _. destruct (build_merge_tree_frame n') as (Hu & He & _).
        rewrite Hu, He. simpl. rewrite app_nil_r. split; assumption.
      * intros H. destruct (IH _ H) as [H1 H2]. split; [exact H1|].
        rewrite H2, S1, S2. simpl. rewrite <- !app_assoc. reflexivity.
Qed.



End RunBuffer.



(** * The merge queue *)

Lemma pq_extract_perm {A} (before : A -> A -> bool) (q : list A) (m : A) (rest : list A) :
  pq_extract before q = Some (m, rest) -> Permutation q (m :: rest).
Proof.
  revert m rest. induction q as [|x xs IH]; intros m rest; simpl; [discriminate|].
  destruct (pq_extract before xs) as [[m' rest']|] eqn:E.
  - specialize (IH _ _ eq_refl). destruct (before m' x); intros H; inversion H; subst.
    + rewrite IH. apply perm_swap.
    + reflexivity.
  - destruct xs; [|simpl in E; destruct (pq_extract before xs) as [[? ?]|];
                   [destruct (before a0 a)|]; discriminate].
    intros H; inversion H; subst. reflexivity.
Qed.

Lemma pq_extract_none {A} (before : A -> A -> bool) (q : list A) :
  pq_extract before q = None -> q = [].
Proof.
  destruct q as [|x xs]; [reflexivity|]. simpl.
  destruct (pq_extract before xs) as [[m rest]|]; [destruct (before m x)|]; discriminate.
Qed.

Lemma skipn_nth_cons {A} (l : list A) (p : nat) (d : A) :
  (p < length l)%nat -> skipn p l = nth p l d :: skipn (S p) l.
Proof.
  revert p. induction l as [|x l IH]; intros p Hp; simpl in Hp; [lia|].
  destruct p as [|p]; [reflexivity|].
  simpl skipn at 1. simpl nth. rewrite (IH p) by lia. reflexivity.
Qed.

Lemma remaining_current (c : SortCursorImpl) :
  (pos c < cursor_rows c)%nat ->
  remaining c = current_row c :: (if isLast c then [] else remaining (next c)).
Proof.
  destruct c as [l d p]. unfold remaining, current_row, isLast, next, cursor_rows.
  cbn [all_columns pos desc]. intros Hp.
  rewrite (skipn_nth_cons l p []) by exact Hp. f_equal.
  destruct (Nat.leb_spec (length l) (p + 1)); [|reflexivity].
  apply skipn_all2. lia.
Qed.

Section MergeQueue.

Variable D : SortDescription.
Hypothesis D_wf : wf_desc D = true.

Lemma pq_extract_least (q : list SortCursorImpl) (m : SortCursorImpl)
    (rest : list SortCursorImpl) :
  Forall (fun c => desc c = D) q ->
  pq_extract cursor_before q = Some (m, rest) ->
  Forall (fun c => row_le D (current_row m) (current_row c)) rest.
Proof.
  revert m rest. induction q as [|x xs IH]; intros m rest Hd; simpl; [discriminate|].
  inversion Hd as [|? ? Hx Hxs]; subst.
  destruct (pq_extract cursor_before xs) as [[m' rest']|] eqn:E.
  - specialize (IH _ _ Hxs eq_refl).
    assert (Hm' : desc m' = desc x).
    { apply pq_extract_perm in E.
      assert (In m' xs) by (apply (Permutation_in _ (Permutation_sym E)); left; reflexivity).
      rewrite Forall_forall in Hxs. rewrite (Hxs _ H). reflexivity. }
    unfold cursor_before. rewrite Hm'.
    destruct (less (desc x) (current_row m') (current_row x)) eqn:L;
      intros H; inversion H; subst.
    + constructor; [apply less_true_le; exact L | exact IH].
    + apply less_false_le in L.
      apply (Permutation_Forall (Permutation_sym (pq_extract_perm _ _ _ _ E))).
      constructor; [exact L|].
      rewrite Forall_forall in *. intros y Hy.
      apply (compare_rows_trans _ _ (current_row m') _ D_wf L). apply IH. exact Hy.
  - intros H; inversion H; subst. constructor.
Qed.

Lemma good_cursor_mono (K K' : nat) (c : SortCursorImpl) :
  (K' <= K)%nat -> good_cursor D K c -> good_cursor D K' c.
Proof.
  intros HK (Hd & Hp & Hs). repeat split; try assumption.
  apply (presorted_mono _ K); assumption.
Qed.

Lemma queue_remaining_perm (q q' : list SortCursorImpl) :
  Permutation q q' -> Permutation (queue_remaining q) (queue_remaining q').
Proof.
  intros H. unfold queue_remaining. apply Permutation_flat_map. exact H.
Qed.

Lemma queue_remaining_snoc (q : list SortCursorImpl) (c : SortCursorImpl) :
  Permutation (queue_remaining (pq_push q c)) (remaining c ++ queue_remaining q).
Proof.
  unfold queue_remaining, pq_push. rewrite flat_map_app. simpl. rewrite app_nil_r.
  apply Permutation_app_comm.
Qed.

(** One pop: the rows left are those of before without the popped one. *)
Lemma pop_perm (q q1 : list SortCursorImpl) (r : Row) :
  Forall (good_cursor D 0) q ->
  pop q = Some (r, q1) ->
  Permutation (r :: queue_remaining q1) (queue_remaining q).
Proof.
  unfold pop. intros Hg.
  destruct (pq_extract cursor_before q) as [[c rest]|] eqn:E; [|discriminate].
  intros H; inversion H; subst; clear H.
  pose proof (pq_extract_perm _ _ _ _ E) as P.
  rewrite (queue_remaining_perm _ _ P).
  assert (Hc : good_cursor D 0 c).
  { rewrite Forall_forall in Hg. apply Hg.
    apply (Permutation_in _ (Permutation_sym P)). left; reflexivity. }
  destruct Hc as (_ & Hp & _).
  change (queue_remaining (c :: rest)) with (remaining c ++ queue_remaining rest).
  rewrite (remaining_current c Hp).
  destruct (isLast c); simpl; [reflexivity|].
  constructor. apply queue_remaining_snoc.
Qed.

Lemma isLast_false (c : SortCursorImpl) :
  isLast c = false -> (pos (next c) < cursor_rows (next c))%nat.
Proof.
  unfold isLast, next, cursor_rows. simpl. intros H.
  apply Nat.leb_gt in H. lia.
Qed.

(** One pop from cursors whose first [S K] rows are in order: the popped row
    is at most every row left, and the first [K] rows of every cursor left
    are in order. *)
Lemma pop_least (K : nat) (q q1 : list SortCursorImpl) (r : Row) :
  Forall (good_cursor D (S K)) q ->
  pop q = Some (r, q1) ->
  Forall (row_le D r) (queue_remaining q1) /\ Forall (good_cursor D K) q1.
Proof.
  unfold pop. intros Hg.
  destruct (pq_extract cursor_before q) as [[c rest]|] eqn:E; [|discriminate].
  intros H; inversion H; subst; clear H.
  pose proof (pq_extract_perm _ _ _ _ E) as P.
  pose proof (Permutation_Forall P Hg) as Hg'.
  inversion Hg' as [|? ? Hc Hrest]; subst.
  assert (Hd : Forall (fun c => desc c = D) q).
  { eapply Forall_impl; [|exact Hg]. intros a Ha. apply Ha. }
  pose proof (pq_extract_least _ _ _ Hd E) as Hmin.
  destruct Hc as (Hcd & Hcp & Hcs).
  rewrite (remaining_current c Hcp) in Hcs.
  assert (Hr : Forall (row_le D (current_row c)) (queue_remaining rest)).
  { unfold queue_remaining. rewrite Forall_forall. intros y Hy.
    apply in_flat_map in Hy. destruct Hy as [c' [Hc' Hy]].
    rewrite Forall_forall in Hmin, Hrest.
    destruct (Hrest _ Hc') as (_ & Hp' & Hs').
    rewrite (remaining_current c' Hp') in Hs', Hy.
    apply (compare_rows_trans _ _ (current_row c') _ D_wf (Hmin _ Hc')).
    destruct Hy as [Hy|Hy]; [subst; apply row_le_refl|].
    destruct Hs' as [Hs' _]. rewrite Forall_forall in Hs'. apply Hs'. exact Hy. }
  assert (Hrest' : Forall (good_cursor D K) rest).
  { eapply Forall_impl; [|exact Hrest]. intros a. apply good_cursor_mono. lia. }
  destruct (isLast c) eqn:L; simpl.
  - split; assumption.
  - destruct Hcs as [Hc1 Hc2]. split.
    + apply (Permutation_Forall (Permutation_sym (queue_remaining_snoc rest (next c)))).
      apply Forall_app. split; assumption.
    + unfold pq_push. apply Forall_app. split; [exact Hrest'|].
      constructor; [|constructor].
      repeat split; [exact Hcd | apply isLast_false; exact L | exact Hc2].
Qed.

Lemma pops_app (q q1 q2 : list SortCursorImpl) (a b : list Row) :
  pops q a q1 -> pops q1 b q2 -> pops q (a ++ b) q2.
Proof.
  induction 1; intros H2; simpl; [exact H2|].
  econstructor; [eassumption | apply IHpops; exact H2].
Qed.

Lemma pop_good (q q1 : list SortCursorImpl) (r : Row) :
  Forall (good_cursor D 0) q ->
  pop q = Some (r, q1) -> Forall (good_cursor D 0) q1.
Proof.
  unfold pop. intros Hg.
  destruct (pq_extract cursor_before q) as [[c rest]|] eqn:E; [|discriminate].
  intros H; inversion H; subst; clear H.
  pose proof (Permutation_Forall (pq_extract_perm _ _ _ _ E) Hg) as Hg'.
  inversion Hg' as [|? ? Hc Hrest]; subst.
  destruct (isLast c) eqn:L; simpl; [exact Hrest|].
  unfold pq_push. apply Forall_app. split; [exact Hrest|].
  constructor; [|constructor]. destruct Hc as (Hd & _ & _).
  repeat split; [exact Hd | apply isLast_false; exact L].
Qed.

Lemma pops_perm (q q' : list SortCursorImpl) (rs : list Row) :
  Forall (good_cursor D 0) q -> pops q rs q' ->
  Permutation (rs ++ queue_remaining q') (queue_remaining q).
Proof.
  intros Hg H. induction H; [reflexivity|].
  simpl. rewrite <- (pop_perm _ _ _ Hg H). constructor.
  apply IHpops. eapply pop_good; eassumption.
Qed.

(** The rows popped off cursors whose first [K] rows are in order, followed
    by the rows the queue still holds: the popped ones among the first [K]
    are in order and at most every row after them. *)
Lemma pops_presorted (K : nat) (q q' : list SortCursorImpl) (rs : list Row) :
  Forall (good_cursor D K) q -> pops q rs q' ->
  presorted (row_le D) (Nat.min K (length rs)) (rs ++ queue_remaining q').
Proof.
  intros Hg H. revert K Hg. induction H as [q|q r q1 rs q2 Hpop Hpops IH]; intros K Hg.
  - rewrite Nat.min_0_r. exact I.
  - destruct K as [|K]; [exact I|].
    destruct (pop_least K _ _ _ Hg Hpop) as [Hle Hg1].
    assert (Hg0 : Forall (good_cursor D 0) q1).
    { eapply Forall_impl; [|exact Hg1]. intros c. apply good_cursor_mono. lia. }
    pose proof (pops_perm _ _ _ Hg0 Hpops) as P.
    simpl. split; [|apply IH; exact Hg1].
    apply (Permutation_Forall (Permutation_sym P)). exact Hle.
Qed.

End MergeQueue.

(** ** The merge loop takes rows off the queue in pop order *)

Lemma queue_rows_app (q q' : list SortCursorImpl) :
  queue_rows (q ++ q') = (queue_rows q + queue_rows q')%nat.
Proof.
  induction q as [|c q IH]; [reflexivity|].
  unfold queue_rows in *. cbn [app fold_right]. rewrite IH. lia.
Qed.

Lemma queue_rows_perm (q q' : list SortCursorImpl) :
  Permutation q q' -> queue_rows q = queue_rows q'.
Proof.
  unfold queue_rows. induction 1; cbn [fold_right]; lia.
Qed.

Lemma pop_rows (q q1 : list SortCursorImpl) (r : Row) :
  pop q = Some (r, q1) -> (queue_rows q1 < queue_rows q)%nat.
Proof.
  unfold pop. destruct (pq_extract cursor_before q) as [[c rest]|] eqn:E; [|discriminate].
  intros H; inversion H; subst; clear H.
  rewrite (queue_rows_perm _ _ (pq_extract_perm _ _ _ _ E)).
  destruct (isLast c) eqn:L; simpl.
  - lia.
  - unfold pq_push. rewrite queue_rows_app. simpl.
    apply isLast_false in L. unfold next, cursor_rows in *. simpl in *. lia.
Qed.

Lemma pops_rows (q q' : list SortCursorImpl) (rs : list Row) :
  pops q rs q' -> (queue_rows q' + length rs <= queue_rows q)%nat.
Proof.
  induction 1; simpl; [lia|]. apply pop_rows in H. lia.
Qed.

Lemma queue_rows_zero (q : list SortCursorImpl) :
  (queue_rows q <= 0)%nat -> q = [].
Proof.
  destruct q; [reflexivity|]. simpl. lia.
Qed.

Lemma merge_loop_pops (fuel : nat) (batch : Z) :
  forall q off mr mc q' off' mr' mc',
    0 <= off ->
    merge_loop fuel batch q off mr mc = (q', off', mr', mc') ->
    exists popped,
      pops q popped q' /\
      off' = Z.max 0 (off - Z.of_nat (length popped)) /\
      mc' = mc ++ skipn (Z.to_nat off) popped /\
      mr' = mr + Z.of_nat (length (skipn (Z.to_nat off) popped)) /\
      ((queue_rows q <= fuel)%nat -> q' = [] \/ (mr' = batch /\ popped <> [])).
Proof.
  induction fuel as [|fuel IH]; intros q off mr mc q' off' mr' mc' Hoff; simpl.
  - intros H; inversion H; subst. exists []. rewrite skipn_nil, app_nil_r. simpl.
    repeat split; try lia; [constructor|].
    intros Hq. left. apply queue_rows_zero. exact Hq.
  - destruct (pq_extract cursor_before q) as [[c rest]|] eqn:E.
    2:{ intros H; inversion H; subst. exists []. rewrite skipn_nil, app_nil_r. simpl.
        repeat split; try lia; [constructor|].
        intros _. left. eapply pq_extract_none; eassumption. }
    set (q1 := if negb (isLast c) then pq_push rest (next c) else rest).
    assert (Hpop : pop q = Some (current_row c, q1)) by (unfold pop; rewrite E; reflexivity).
    pose proof (pop_rows _ _ _ Hpop) as Hrows.
    destruct (Z.eqb_spec off 0) as [Hz|Hz].
    + subst off. destruct (Z.eqb_spec (mr + 1) batch) as [Hb|Hb].
      * intros H; inversion H; subst. exists [current_row c]. simpl.
        repeat split; try lia.
        -- econstructor; [exact Hpop | constructor].
        -- intros _. right. split; [reflexivity | discriminate].
      * intros H. apply IH in H; [|lia].
        destruct H as (popped & Hp & Ho & Hc & Hr & Ht).
        exists (current_row c :: popped). simpl in *.
        repeat split.
        -- econstructor; eassumption.
        -- lia.
        -- rewrite Hc, <- app_assoc. reflexivity.
        -- rewrite Hr. lia.
        -- intros Hq. destruct Ht as [Ht|[Ht _]]; [lia | left; exact Ht |].
           right. split; [exact Ht | discriminate].
    + assert (Hnat : Z.to_nat off = S (Z.to_nat (off - 1))) by lia.
      destruct (Z.eqb_spec mr batch) as [Hb|Hb].
      * intros H; inversion H; subst. exists [current_row c]. rewrite Hnat. simpl.
        rewrite skipn_nil, app_nil_r. simpl.
        repeat split; try lia.
        -- econstructor; [exact Hpop | constructor].
        -- intros _. right. split; [reflexivity | discriminate].
      * intros H. apply IH in H; [|lia].
        destruct H as (popped & Hp & Ho & Hc & Hr & Ht).
        exists (current_row c :: popped). rewrite Hnat. simpl.
        repeat split.
        -- econstructor; eassumption.
        -- lia.
        -- exact Hc.
        -- exact Hr.
        -- intros Hq. destruct Ht as [Ht|[Ht _]]; [lia | left; exact Ht |].
           right. split; [exact Ht | discriminate].
Qed.

(** * The probe phase *)

Lemma cut_to_limit_nil (n : VSortNode) : cut_to_limit n [] = [].
Proof.
  unfold cut_to_limit. destruct (_ && _); [apply firstn_nil | reflexivity].
Qed.

Lemma length_zero_nil {A} (l : list A) : Z.of_nat (length l) = 0 -> l = [].
Proof.
  destruct l; [reflexivity|]. simpl length. lia.
Qed.

(** One call of [get_next] with two runs or more: it takes rows off the
    merge queue in pop order, drops those the offset covers, and delivers
    the others, cut to the limit. *)
Lemma get_next_merge (state : RuntimeState) (n : VSortNode) (mem_reuse : bool) :
  (1 < length (_sorted_blocks n))%nat -> 0 <= _offset n ->
  exists popped q',
    pops (_priority_queue n) popped q' /\
    let emitted := skipn (Z.to_nat (_offset n)) popped in
    let '(_, n1, block, eos) := get_next state n [] mem_reuse false in
    _priority_queue n1 = q' /\
    _offset n1 = Z.max 0 (_offset n - Z.of_nat (length popped)) /\
    _sorted_blocks n1 = _sorted_blocks n /\
    _limit n1 = _limit n /\
    block = cut_to_limit n emitted /\
    _num_rows_returned n1 = _num_rows_returned n + rows block /\
    (eos = false ->
     popped <> [] /\ block = emitted /\
     (_limit n = -1 \/ _num_rows_returned n + rows emitted < _limit n)) /\
    (eos = true -> batch_size state <> 0 \/ _offset n = 0 ->
     q' = [] \/ (_limit n <> -1 /\ _limit n <= _num_rows_returned n + rows emitted)).
Proof.
  destruct n. simpl. intros Hlen Hoff.
  unfold get_next. simpl.
  destruct _sorted_blocks0 as [|b1 [|b2 bs]]; [simpl in Hlen; lia | simpl in Hlen; lia|].
  unfold merge_sort_read. simpl.
  assert (Hinit : (if mem_reuse then ([] : Block) else []) = []) by (destruct mem_reuse; reflexivity).
  rewrite Hinit.
  destruct (merge_loop (queue_rows _priority_queue0) (batch_size state)
              _priority_queue0 _offset0 0 []) as [[[q' off'] mr'] mc'] eqn:E.
  apply merge_loop_pops in E; [|exact Hoff].
  destruct E as (popped & Hp & Ho & Hc & Hr & Ht).
  exists popped, q'. split; [exact Hp|].
  simpl in Hc. subst mc'. specialize (Ht (Nat.le_refl _)).
  unfold reached_limit, cut_to_limit, rows. simpl.
  destruct (Z.eqb_spec mr' 0) as [Hz|Hz]; simpl.
  - assert (He : skipn (Z.to_nat _offset0) popped = []).
    { apply length_zero_nil. rewrite Hz in Hr. symmetry. exact Hr. }
    rewrite He. simpl.
    destruct (negb (_limit0 =? -1) && (_limit0 <=? _num_rows_returned0 + 0)); simpl;
      rewrite ?firstn_nil; repeat split; try assumption; try discriminate.
    + intros _ Hb. left. destruct Ht as [Ht|[Ht Hne]]; [exact Ht|].
      destruct Hb as [Hb|Hb]; [lia|]. subst. simpl in He. contradiction.
    + intros _ Hb. left. destruct Ht as [Ht|[Ht Hne]]; [exact Ht|].
      destruct Hb as [Hb|Hb]; [lia|]. subst. simpl in He. contradiction.
  - destruct (negb (_limit0 =? -1) &&
              (_limit0 <=? _num_rows_returned0 +
                 Z.of_nat (length (skipn (Z.to_nat _offset0) popped)))) eqn:C; simpl;
      repeat split; try assumption; try discriminate.
    + intros _ _. right. apply andb_true_iff in C. destruct C as [C1 C2].
      apply negb_true_iff, Z.eqb_neq in C1. apply Z.leb_le in C2. split; assumption.
    + intros ->. rewrite skipn_nil in Hr. simpl in Hr. lia.
    + apply andb_false_iff in C. destruct C as [C|C].
      * left. apply negb_false_iff, Z.eqb_eq in C. exact C.
      * right. apply Z.leb_gt in C. exact C.
Qed.

Lemma rows_app (a b : Block) : rows (a ++ b) = rows a + rows b.
Proof.
  unfold rows. rewrite length_app. lia.
Qed.

Lemma firstn_rows_app (k : Z) (a b : Block) :
  rows a <= k -> firstn (Z.to_nat k) (a ++ b) = a ++ firstn (Z.to_nat (k - rows a)) b.
Proof.
  unfold rows. intros H.
  replace (Z.to_nat k) with (length a + Z.to_nat (k - Z.of_nat (length a)))%nat by lia.
  apply firstn_app_2.
Qed.

(** What is delivered in two parts, the first one uncut, is what is
    delivered at once. *)
Lemma cut_to_limit_app (n n1 : VSortNode) (a b : Block) :
  _limit n1 = _limit n ->
  _num_rows_returned n1 = _num_rows_returned n + rows a ->
  _limit n = -1 \/ _num_rows_returned n + rows a < _limit n ->
  a ++ cut_to_limit n1 b = cut_to_limit n (a ++ b).
Proof.
  unfold cut_to_limit. intros Hl Hr Hc. rewrite Hl, Hr, rows_app, Z.add_assoc.
  destruct (negb (_limit n =? -1) && _) eqn:C; [|reflexivity].
  apply andb_true_iff in C. destruct C as [C _].
  apply negb_true_iff, Z.eqb_neq in C.
  rewrite (firstn_rows_app (_limit n - _num_rows_returned n) a b) by lia.
  f_equal. f_equal. f_equal. lia.
Qed.

(** The consumer's loop with two runs or more: it ends, and what it collects
    is the rows popped off the merge queue, without those the offset covers,
    cut to the limit. *)
Lemma pull_merge (state : RuntimeState) (mem_reuse : bool) (fuel : nat) :
  forall n,
    (1 < length (_sorted_blocks n))%nat -> 0 <= _offset n ->
    (queue_rows (_priority_queue n) < fuel)%nat ->
    exists blocks popped q',
      pull fuel state n mem_reuse = Some blocks /\
      pops (_priority_queue n) popped q' /\
      concat blocks = cut_to_limit n (skipn (Z.to_nat (_offset n)) popped) /\
      (batch_size state <> 0 \/ _offset n = 0 ->
       q' = [] \/
       (_limit n <> -1 /\
        _limit n <= _num_rows_returned n + rows (skipn (Z.to_nat (_offset n)) popped))).
Proof.
  induction fuel as [|fuel IH]; intros n Hlen Hoff Hfuel; [lia|].
  cbn [pull].
  destruct (get_next_merge state n mem_reuse Hlen Hoff) as (popped & q1 & Hp & G).
  destruct (get_next state n [] mem_reuse false) as [[[s n1] block] eos].
  cbv zeta in G. destruct G as (Gq & Go & Gs & Gl & Gb & Gr & Gf & Gt).
  destruct eos.
  - exists [block], popped, q1. simpl. rewrite app_nil_r.
    repeat split; try assumption. apply Gt. reflexivity.
  - destruct (Gf eq_refl) as (Hne & Hbe & Hlim). subst q1.
    pose proof (pops_rows _ _ _ Hp) as Hrows.
    assert (Hpos : (0 < length popped)%nat) by (destruct popped; [contradiction | simpl; lia]).
    destruct (IH n1) as (blocks' & popped' & q' & Hpull & Hp' & Hc' & Ht').
    { rewrite Gs. exact Hlen. }
    { rewrite Go. lia. }
    { lia. }
    rewrite Hpull. exists (block :: blocks'), (popped ++ popped'), q'. simpl.
    assert (Hsk : skipn (Z.to_nat (_offset n)) (popped ++ popped') =
                  block ++ skipn (Z.to_nat (_offset n1)) popped').
    { rewrite skipn_app, Hbe. f_equal. f_equal. rewrite Go. lia. }
    rewrite Hsk. rewrite <- Hbe in Hlim.
    repeat split.
    + eapply pops_app; eassumption.
    + rewrite Hc'. apply cut_to_limit_app; assumption.
    + intros Hb.
      assert (Hb' : batch_size state <> 0 \/ _offset n1 = 0)
        by (destruct Hb as [Hb|Hb]; [left; exact Hb | right; rewrite Go, Hb; lia]).
      destruct (Ht' Hb') as [Hq|[H1 H2]]; [left; exact Hq|].
      right. rewrite Gl in H1, H2. split; [exact H1|].
      rewrite rows_app. rewrite Gr in H2. lia.
Qed.

(** * From the build to the probe *)

Lemma run_ok_sort_block (sorter : Sorter) (D : SortDescription) (hint : Z) (b : Block) :
  wf_desc D = true -> b <> [] -> run_ok D hint (sort_block sorter b D hint).
Proof.
  intros W Hb. pose proof (sort_block_perm sorter b D hint) as P. repeat split.
  - intros E. rewrite E in P. apply Permutation_nil in P. contradiction.
  - intros H. rewrite (Permutation_length P). apply sort_block_full; assumption.
  - intros H. apply sort_block_partial; assumption.
Qed.

Lemma rows_pos_nonempty (b : Block) : (0 <? rows b) = true -> b <> [].
Proof.
  intros H E. subst. discriminate.
Qed.

Lemma materialize_nonempty (ids : list VExprContext) (b : Block) :
  b <> [] -> materialize ids b <> [].
Proof.
  destruct b; [contradiction | discriminate].
Qed.

Lemma fold_left_pq_push {A} (l q : list A) : fold_left pq_push l q = q ++ l.
Proof.
  revert q. induction l as [|x l IH]; intros q; simpl; [rewrite app_nil_r; reflexivity|].
  rewrite IH. unfold pq_push. rewrite <- app_assoc. reflexivity.
Qed.

Section Built.

Variable sorter : Sorter.
Variable BUFFERED_BLOCK_SIZE : Z.
Variable BUFFERED_BLOCK_BYTES : Z.
Variable allocated_bytes : Block -> Z.
Variable state : RuntimeState.
Variables (lim off : Z) (asc nulls : list bool) (exprs : VSortExecExprs).

Let D : SortDescription := description_of asc nulls exprs.

Lemma description_of_wf : wf_desc D = true.
Proof.
  exact (fill_sort_description_wf
           (mkNode 0 0 0 0 exprs asc nulls [] [] [] 0 [] [] [] 0 0%nat [])).
Qed.

Lemma built_dispose (n : VSortNode) :
  built lim off asc nulls exprs n ->
  match dispose_run sorter allocated_bytes state n with
  | Next n' => built lim off asc nulls exprs n'
  | Return r n' => r <> Returned OK
  end.
Proof.
  unfold built. destruct n. simpl.
  intros (-> & -> & -> & -> & -> & -> & -> & -> & Hruns & Hd).
  dispose_cases; try discriminate;
    repeat split; try reflexivity; try assumption;
    try (right; reflexivity);
    apply Forall_app; (split; [assumption|]); (constructor; [|constructor]);
    apply run_ok_sort_block; try apply description_of_wf;
    try apply materialize_nonempty; apply rows_pos_nonempty; assumption.
Qed.

Lemma built_ready (n : VSortNode) :
  built lim off asc nulls exprs n -> ready lim off asc nulls exprs (build_merge_tree n).
Proof.
  unfold built, ready, build_merge_tree. destruct n. simpl.
  intros (-> & -> & -> & -> & -> & -> & -> & -> & Hruns & Hd).
  destruct (1 <? length _sorted_blocks0)%nat eqn:E; simpl; rewrite ?E;
    repeat split; try assumption; try reflexivity.
  rewrite fold_left_pq_push. simpl.
  destruct Hd as [Hd|Hd]; [subst; simpl in E; discriminate|]. subst. reflexivity.
Qed.

Lemma built_loop (child : list ChildResult) (n : VSortNode) :
  built lim off asc nulls exprs n ->
  let res := sort_input_loop sorter BUFFERED_BLOCK_SIZE BUFFERED_BLOCK_BYTES
               allocated_bytes state child n in
  fst res = Returned OK -> ready lim off asc nulls exprs (snd res).
Proof.
  intros Hn.
  apply (sort_input_loop_ind sorter BUFFERED_BLOCK_SIZE BUFFERED_BLOCK_BYTES
           allocated_bytes state (built lim off asc nulls exprs)
           (fun r n' => r = Returned OK -> ready lim off asc nulls exprs n')); try exact Hn.
  - intros m Hm. exact Hm.
  - intros m b Hm. unfold merge_upstream. destruct (negb _); exact Hm.
  - intros m Hm. pose proof (built_dispose m Hm) as S.
    destruct (dispose_run sorter allocated_bytes state m); [exact S|].
    intros E. contradiction.
  - intros m Hm _. apply built_ready. exact Hm.
  - intros m code _. discriminate.
Qed.

End Built.

Lemma queue_remaining_new (D : SortDescription) (runs : list Block) :
  queue_remaining (map (fun b => new_SortCursorImpl b D) runs) = concat runs.
Proof.
  unfold queue_remaining. induction runs as [|b runs IH]; simpl; [reflexivity|].
  rewrite IH. reflexivity.
Qed.

Lemma good_cursor_new (D : SortDescription) (K : nat) (runs : list Block) :
  Forall (fun b => b <> []) runs ->
  Forall (presorted (row_le D) K) runs ->
  Forall (good_cursor D K) (map (fun b => new_SortCursorImpl b D) runs).
Proof.
  intros Hn Hs. rewrite Forall_map. rewrite Forall_forall in *.
  intros b Hb. unfold good_cursor, new_SortCursorImpl, remaining, cursor_rows. simpl.
  repeat split; [|apply Hs; exact Hb].
  specialize (Hn _ Hb). destruct b; [contradiction | simpl; lia].
Qed.

Lemma get_next_no_run (state : RuntimeState) (n : VSortNode) (mem_reuse : bool) :
  _sorted_blocks n = [] ->
  let '(_, _, out, eos) := get_next state n [] mem_reuse false in
  out = [] /\ eos = true.
Proof.
  intros Hs. unfold get_next. rewrite Hs. unfold reached_limit.
  destruct (negb (_limit n =? -1) && _); simpl; rewrite ?firstn_nil; split; reflexivity.
Qed.

(** The consumer's loop after a build: it ends; [R] is the rows in the order
    in which the operator goes through them and [rest] those it has not
    reached; what is delivered is [R] without the rows the offset covers,
    cut to the limit. *)
Lemma pull_ready (state : RuntimeState) (mem_reuse : bool) (D : SortDescription)
    (n : VSortNode) :
  wf_desc D = true -> 0 <= _offset n ->
  Forall (fun b => b <> []) (_sorted_blocks n) ->
  _priority_queue n =
    (if (1 <? length (_sorted_blocks n))%nat
     then map (fun b => new_SortCursorImpl b D) (_sorted_blocks n)
     else []) ->
  exists blocks R rest,
    pull (S (queue_rows (_priority_queue n))) state n mem_reuse = Some blocks /\
    Permutation (R ++ rest) (concat (_sorted_blocks n)) /\
    (forall K, Forall (presorted (row_le D) K) (_sorted_blocks n) ->
               presorted (row_le D) (Nat.min K (length R)) (R ++ rest)) /\
    concat blocks = cut_to_limit n (skipn (Z.to_nat (_offset n)) R) /\
    (batch_size state <> 0 \/ _offset n = 0 ->
     rest = [] \/
     (_limit n <> -1 /\
      _limit n <= _num_rows_returned n + rows (skipn (Z.to_nat (_offset n)) R))).
Proof.
  intros W Hoff Hne Hq.
  destruct (_sorted_blocks n) as [|b1 [|b2 bs]] eqn:Hs.
  - cbn [pull]. pose proof (get_next_no_run state n mem_reuse Hs) as G.
    destruct (get_next state n [] mem_reuse false) as [[[s n1] out] eos].
    destruct G as [-> ->]. exists [[]], [], []. simpl.
    rewrite skipn_nil, cut_to_limit_nil.
    repeat split; try reflexivity. intros K _. rewrite Nat.min_0_r. exact I.
    intros _. left. reflexivity.
  - cbn [pull]. pose proof (get_next_one_run state n b1 [] mem_reuse false Hs) as G.
    destruct (get_next state n [] mem_reuse false) as [[[s n1] out] eos].
    destruct G as (_ & -> & _ & _ & _ & _ & -> & _).
    exists [cut_to_limit n (skipn (Z.to_nat (_offset n)) b1)], b1, []. simpl.
    rewrite !app_nil_r. repeat split; try reflexivity.
    + intros K HK. inversion HK; subst.
      apply (presorted_mono _ K); [lia | assumption].
    + intros _. left. reflexivity.
  - assert (Hlen : (1 < length (_sorted_blocks n))%nat) by (rewrite Hs; simpl; lia).
    destruct (pull_merge state mem_reuse (S (queue_rows (_priority_queue n))) n
                Hlen Hoff (Nat.lt_succ_diag_r _))
      as (blocks & popped & q' & Hpull & Hp & Hc & Ht).
    exists blocks, popped, (queue_remaining q').
    assert (Hq' : _priority_queue n =
                  map (fun b => new_SortCursorImpl b D) (b1 :: b2 :: bs)) by exact Hq.
    assert (Hg0 : Forall (good_cursor D 0) (_priority_queue n)).
    { rewrite Hq'. apply good_cursor_new; [exact Hne|].
      rewrite Forall_forall. intros b _. exact I. }
    repeat split; try assumption.
    + rewrite (pops_perm D _ _ _ Hg0 Hp), Hq'. rewrite queue_remaining_new. reflexivity.
    + intros K HK. apply (pops_presorted D W K (_priority_queue n)); [|exact Hp].
      rewrite Hq'. apply good_cursor_new; assumption.
    + intros Hb. destruct (Ht Hb) as [->|H]; [left; reflexivity | right; exact H].
Qed.

(** * C1: the order of the emitted rows *)

Lemma sorted_skipn {A} (le : A -> A -> Prop) (n : nat) (l : list A) :
  StronglySorted le l -> StronglySorted le (skipn n l).
Proof.
  revert l. induction n as [|n IH]; intros l H; [exact H|].
  destruct l as [|x l]; [constructor|]. simpl. apply IH.
  inversion H; assumption.
Qed.

Lemma presorted_prefix {A} (le : A -> A -> Prop) (K : nat) (R rest : list A) :
  presorted le (Nat.min K (length R)) (R ++ rest) ->
  StronglySorted le (firstn K R).
Proof.
  intros H. apply presorted_firstn_sorted in H.
  rewrite firstn_app in H.
  replace (Nat.min K (length R) - length R)%nat with 0%nat in H by lia.
  rewrite firstn_0, app_nil_r in H.
  rewrite <- firstn_firstn, firstn_all in H. exact H.
Qed.

(** A window of [l] rows after the first [o] ones, within the first [K]. *)
Lemma window_sorted {A} (le : A -> A -> Prop) (K o l : nat) (R rest : list A) :
  (o + l <= K)%nat ->
  presorted le (Nat.min K (length R)) (R ++ rest) ->
  StronglySorted le (firstn l (skipn o R)).
Proof.
  intros HK H. apply presorted_prefix in H.
  rewrite firstn_skipn_comm. apply sorted_skipn.
  replace (o + l)%nat with (Nat.min (o + l) K) by lia.
  rewrite <- firstn_firstn.
  apply presorted_firstn_sorted. apply presorted_of_sorted. exact H.
Qed.

(** What [reached_limit] leaves, when nothing has been returned before. *)
Lemma cut_to_limit_firstn (n : VSortNode) (X : Block) :
  _num_rows_returned n = 0 -> _limit n <> -1 ->
  cut_to_limit n X = firstn (Z.to_nat (_limit n)) X.
Proof.
  unfold cut_to_limit, rows. intros -> Hl. rewrite Z.sub_0_r.
  destruct (Z.eqb_spec (_limit n) (-1)); [contradiction|]. simpl.
  destruct (Z.leb_spec (_limit n) (Z.of_nat (length X))); [reflexivity|].
  symmetry. apply firstn_all2. lia.
Qed.

Lemma cut_to_limit_plain (n : VSortNode) (X : Block) :
  _limit n = -1 -> cut_to_limit n X = X.
Proof.
  unfold cut_to_limit. intros ->. reflexivity.
Qed.

Section Emission.

Variable sorter : Sorter.
Variable BUFFERED_BLOCK_SIZE : Z.
Variable BUFFERED_BLOCK_BYTES : Z.
Variable allocated_bytes : Block -> Z.
Variable state : RuntimeState.
Variable tnode : TPlanNode.

Let D : SortDescription := fill_sort_description (fresh tnode).

Lemma fresh_built :
  built (limit tnode) (plan_offset tnode) (sort_info_is_asc_order tnode)
    (sort_info_nulls_first tnode) (sort_info_exprs tnode) (fresh tnode).
Proof.
  unfold built, fresh, plan_offset. simpl. repeat split; try reflexivity.
  - constructor.
  - left. reflexivity.
Qed.

(** A build that returns OK leaves the operator ready for the probe. *)
Lemma open_ready (child : list ChildResult) (n : VSortNode) :
  open sorter BUFFERED_BLOCK_SIZE BUFFERED_BLOCK_BYTES allocated_bytes state child
    (fresh tnode) = (Returned OK, n) ->
  ready (limit tnode) (plan_offset tnode) (sort_info_is_asc_order tnode)
    (sort_info_nulls_first tnode) (sort_info_exprs tnode) n.
Proof.
  intros E. apply open_ok in E.
  pose proof (built_loop sorter BUFFERED_BLOCK_SIZE BUFFERED_BLOCK_BYTES allocated_bytes
                state _ _ _ _ _ child (fresh tnode) fresh_built) as H.
  rewrite E in H. apply H. reflexivity.
Qed.

(** What the operator emits, in terms of the order [R] in which it goes
    through the rows of its runs. *)
Lemma run_operator_emits (child : list ChildResult) (mem_reuse : bool) :
  0 <= plan_offset tnode ->
  match run_operator sorter BUFFERED_BLOCK_SIZE BUFFERED_BLOCK_BYTES allocated_bytes
          state tnode child mem_reuse with
  | Emitted out =>
      exists n R rest,
        open sorter BUFFERED_BLOCK_SIZE BUFFERED_BLOCK_BYTES allocated_bytes state child
          (fresh tnode) = (Returned OK, n) /\
        ready (limit tnode) (plan_offset tnode) (sort_info_is_asc_order tnode)
          (sort_info_nulls_first tnode) (sort_info_exprs tnode) n /\
        Permutation (R ++ rest) (concat (_sorted_blocks n)) /\
        (forall K, Forall (presorted (row_le D) K) (_sorted_blocks n) ->
                   presorted (row_le D) (Nat.min K (length R)) (R ++ rest)) /\
        out = cut_to_limit n (skipn (Z.to_nat (plan_offset tnode)) R) /\
        (batch_size state <> 0 \/ plan_offset tnode = 0 ->
         rest = [] \/
         (limit tnode <> -1 /\
          limit tnode <= rows (skipn (Z.to_nat (plan_offset tnode)) R)))
  | Aborted r => r <> Returned OK
  | OutOfFuel => False
  end.
Proof.
  intros Hoff. unfold run_operator. fold (fresh tnode).
  destruct (open sorter BUFFERED_BLOCK_SIZE BUFFERED_BLOCK_BYTES allocated_bytes
              state child (fresh tnode)) as [r n] eqn:E.
  destruct r as [s|]; [destruct s|]; try discriminate.
  apply open_ready in E as Hr. pose proof Hr as Hr'.
  destruct Hr as (Hl & Ho & Hret & Hruns & Hq).
  destruct (pull_ready state mem_reuse D n) as (blocks & R & rest & Hpull & Hp & Hs & Hc & Ht).
  - apply fill_sort_description_wf.
  - rewrite Ho. exact Hoff.
  - eapply Forall_impl; [|exact Hruns]. intros b Hb. apply Hb.
  - exact Hq.
  - rewrite Hpull. exists n, R, rest. rewrite Ho, Hl, Hret in *.
    repeat split; try assumption.
Qed.

End Emission.

(** X17.  With a non-negative offset, offset 0 when there is no limit, and
    an [_offset + _limit] that does not overflow, the rows the operator
    emits over all its [get_next] calls are in non-decreasing order under
    the sort description, whatever the upstream stream, the keys, the batch
    size and [sort_block]; and the consumer's loop ends. *)
Theorem emitted_rows_sorted (sorter : Sorter) (SIZE BYTES : Z)
    (bytes : Block -> Z) (state : RuntimeState) (tnode : TPlanNode)
    (child : list ChildResult) (mem_reuse : bool) :
  0 <= plan_offset tnode ->
  plan_offset tnode + limit tnode < 2 ^ 63 ->
  (limit tnode = -1 -> plan_offset tnode = 0) ->
  match run_operator sorter SIZE BYTES bytes state tnode child mem_reuse with
  | Emitted out => StronglySorted (row_le (fill_sort_description (fresh tnode))) out
  | Aborted r => r <> Returned OK
  | OutOfFuel => False
  end.
Proof.
  intros Hoff Hsum Hplain.
  pose proof (run_operator_emits sorter SIZE BYTES bytes state tnode child mem_reuse Hoff) as H.
  destruct (run_operator sorter SIZE BYTES bytes state tnode child mem_reuse)
    as [out|r|]; try exact H.
  destruct H as (n & R & rest & _ & Hr & _ & Hs & -> & _).
  destruct Hr as (Hl & Ho & Hret & Hruns & _).
  set (D := fill_sort_description (fresh tnode)) in *.
  destruct (Z.eq_dec (limit tnode) (-1)) as [Hm|Hm].
  - (* plain sort: every run is sorted *)
    rewrite cut_to_limit_plain by (rewrite Hl; exact Hm).
    rewrite (Hplain Hm). simpl.
    rewrite <- (firstn_all R).
    apply (presorted_prefix _ (length R) R rest).
    apply Hs.
    eapply Forall_impl; [|exact Hruns]. intros b (_ & Hb & _).
    apply presorted_of_sorted. apply (sorted_of_presorted _ (length b)); [lia|].
    apply Hb. rewrite (Hplain Hm), Hm. rewrite wrap_int64_small by lia. lia.
  - rewrite cut_to_limit_firstn by (rewrite ?Hl; assumption). rewrite Hl.
    destruct (Z.lt_ge_cases (limit tnode) 0) as [Hneg|Hpos].
    + replace (Z.to_nat (limit tnode)) with 0%nat by lia. constructor.
    + apply (window_sorted _ (Z.to_nat (plan_offset tnode + limit tnode)) _ _ R rest); [lia|].
      apply Hs. eapply Forall_impl; [|exact Hruns]. intros b (_ & _ & Hb).
      rewrite wrap_int64_small in Hb by lia. apply Hb. lia.
Qed.

Lemma emitted_rows_sorted_witness :
  run_operator limited_sorter 2 1000 (fun _ => 0) (quiet_state 4096)
    plan_desc_nulls_first nulls_and_values false =
    Emitted [[None]; [None]; [Some 2]; [Some 1]] /\
  StronglySorted (row_le (fill_sort_description (fresh plan_desc_nulls_first)))
    [[None]; [None]; [Some 2]; [Some 1]].
Proof.
  split; [reflexivity|].
  assert (H1 : 0 <= plan_offset plan_desc_nulls_first) by (unfold plan_offset; simpl; lia).
  assert (H2 : plan_offset plan_desc_nulls_first + limit plan_desc_nulls_first < 2 ^ 63)
    by (unfold plan_offset; simpl; lia).
  assert (H3 : limit plan_desc_nulls_first = -1 -> plan_offset plan_desc_nulls_first = 0)
    by (intros _; reflexivity).
  exact (emitted_rows_sorted limited_sorter 2 1000 (fun _ => 0) (quiet_state 4096)
           plan_desc_nulls_first nulls_and_values false H1 H2 H3).
Defined.


(** * C8: the single-run fast path *)

(** C8.  When the build ends with exactly one sorted run, the merge queue is
    empty, and [get_next] returns OK with end-of-stream set on that call;
    the queue is still empty and the offset as before; the run without its
    first [_offset] rows goes to the caller's block, whose former content is
    swapped into [_sorted_blocks[0]]; [reached_limit] then cuts the block to
    the limit, which leaves all of it when there is no limit. *)
Theorem get_next_single_run (sorter : Sorter) (SIZE BYTES : Z)
    (bytes : Block -> Z) (state : RuntimeState) (tnode : TPlanNode)
    (child : list ChildResult) (n : VSortNode)
    (run block : Block) (mem_reuse eos : bool) :
  open sorter SIZE BYTES bytes state child (fresh tnode) = (Returned OK, n) ->
  _sorted_blocks n = [run] ->
  _priority_queue n = [] /\
  let '(status, n', out, eos') := get_next state n block mem_reuse eos in
  status = OK /\ eos' = true /\
  _priority_queue n' = [] /\
  _offset n' = _offset n /\
  _sorted_blocks n' = [block] /\
  out = cut_to_limit n (skipn (Z.to_nat (_offset n)) run) /\
  (_limit n = -1 -> out = skipn (Z.to_nat (_offset n)) run).
Proof.
  intros Ho Hr.
  assert (Hq : _priority_queue n = []).
  { apply open_ready in Ho. destruct Ho as (_ & _ & _ & _ & Hq).
    rewrite Hr in Hq. exact Hq. }
  split; [exact Hq|].
  pose proof (get_next_one_run state n run block mem_reuse eos Hr) as G.
  destruct (get_next state n block mem_reuse eos) as [[[status n'] out] eos'].
  destruct G as (G1 & G2 & G3 & _ & G5 & G6 & G7 & G8).
  rewrite Hq in G3. repeat split; assumption.
Qed.

Definition single_run_node : VSortNode :=
  snd (open limited_sorter 8 1000 (fun _ => 0) (quiet_state 4096) one_block
         (fresh (plan_asc 2 (Some 2)))).

Lemma get_next_single_run_witness :
  _priority_queue single_run_node = [] /\
  let '(status, n', out, eos') :=
    get_next (quiet_state 4096) single_run_node [] false false in
  status = OK /\ eos' = true /\ _priority_queue n' = [] /\ out = map row1 [3; 4].
Proof.
  assert (E1 : open limited_sorter 8 1000 (fun _ => 0) (quiet_state 4096) one_block
                 (fresh (plan_asc 2 (Some 2))) = (Returned OK, single_run_node))
    by (vm_compute; reflexivity).
  assert (E2 : _sorted_blocks single_run_node = [map row1 [1; 2; 3; 4; 5]])
    by (vm_compute; reflexivity).
  pose proof (get_next_single_run limited_sorter 8 1000 (fun _ => 0) (quiet_state 4096)
                (plan_asc 2 (Some 2)) one_block single_run_node
                (map row1 [1; 2; 3; 4; 5]) [] false false E1 E2) as [Hq H].
  split; [exact Hq|].
  destruct (get_next (quiet_state 4096) single_run_node [] false false)
    as [[[status n'] out] eos'].
  destruct H as (H1 & H2 & H3 & _ & _ & H4 & _).
  repeat split; assumption.
Defined.

(** * C5: top-N against the full sort *)

Section Ties.

Variable D : SortDescription.
Hypothesis D_ok : wf_desc D = true.

Lemma lt_count_perm (x : Row) (s t : Block) :
  Permutation s t -> lt_count D x s = lt_count D x t.
Proof.
  unfold lt_count. induction 1; simpl.
  - reflexivity.
  - destruct (less D x0 x); simpl; congruence.
  - destruct (less D y x), (less D x0 x); reflexivity.
  - congruence.
Qed.

Lemma less_irrefl (a : Row) : less D a a = false.
Proof.
  unfold less. pose proof (compare_rows_antisym D a a). apply Z.ltb_ge. lia.
Qed.

Lemma le_not_less (a b : Row) : row_le D a b -> less D b a = false.
Proof.
  unfold row_le, less. rewrite (compare_rows_antisym D a b). intros H.
  apply Z.ltb_ge. lia.
Qed.

Lemma le_less_trans (a b x : Row) : row_le D a b -> less D b x = true -> less D a x = true.
Proof.
  intros Hab Hbx. destruct (less D a x) eqn:E; [reflexivity|].
  apply less_false_le in E.
  pose proof (compare_rows_trans D x a b D_ok E Hab) as Hxb.
  apply le_not_less in Hxb. congruence.
Qed.

Lemma tie_le (a b : Row) : row_tie D a b -> row_le D a b /\ row_le D b a.
Proof.
  unfold row_tie, row_le. rewrite (compare_rows_antisym D a b). lia.
Qed.

Lemma tie_less (a b x : Row) : row_tie D a b -> less D a x = less D b x.
Proof.
  intros H. apply tie_le in H. destruct H as [Hab Hba].
  destruct (less D a x) eqn:Ea, (less D b x) eqn:Eb; try reflexivity.
  - rewrite (le_less_trans b a x Hba Ea) in Eb. discriminate.
  - rewrite (le_less_trans a b x Hab Eb) in Ea. discriminate.
Qed.

Lemma not_less_tie (a b : Row) :
  less D a b = false -> less D b a = false -> row_tie D a b.
Proof.
  unfold less, row_tie. rewrite (compare_rows_antisym D a b).
  intros H1 H2. apply Z.ltb_ge in H1, H2. lia.
Qed.

Lemma lt_count_least (x : Row) (l : Block) :
  Forall (row_le D x) l -> lt_count D x l = 0%nat.
Proof.
  unfold lt_count. induction 1 as [|y l Hy Hl IH]; simpl; [reflexivity|].
  rewrite (le_not_less x y Hy). exact IH.
Qed.

(** Two lists that hold, for every row, as many rows before it, with their
    first [K] rows in order: these rows tie one by one. *)
Lemma presorted_firstn_tie (K : nat) :
  forall s t : Block,
    length s = length t ->
    (forall x, lt_count D x s = lt_count D x t) ->
    presorted (row_le D) K s -> presorted (row_le D) K t ->
    Forall2 (row_tie D) (firstn K s) (firstn K t).
Proof.
  induction K as [|K IH]; intros s t Hlen Hcnt Hs Ht; [constructor|].
  destruct s as [|a s], t as [|b t]; try discriminate; [constructor|].
  simpl in *. destruct Hs as [Ha Hs], Ht as [Hb Ht].
  assert (Hab : row_tie D a b).
  { apply not_less_tie.
    - destruct (less D a b) eqn:E; [|reflexivity].
      pose proof (Hcnt b) as C. unfold lt_count in C. simpl in C.
      rewrite E, less_irrefl in C. fold (lt_count D b t) in C.
      rewrite (lt_count_least b t Hb) in C. simpl in C. discriminate.
    - destruct (less D b a) eqn:E; [|reflexivity].
      pose proof (Hcnt a) as C. unfold lt_count in C. simpl in C.
      rewrite E, less_irrefl in C. fold (lt_count D a s) in C.
      rewrite (lt_count_least a s Ha) in C. simpl in C. discriminate. }
  constructor; [exact Hab|].
  apply IH; try assumption; [lia|].
  intros x. pose proof (Hcnt x) as C. unfold lt_count in *. simpl in C.
  rewrite (tie_less a b x Hab) in C. destruct (less D b x); simpl in C; lia.
Qed.

End Ties.

Section Simulation.

Variable sorter : Sorter.
Variable BUFFERED_BLOCK_SIZE : Z.
Variable BUFFERED_BLOCK_BYTES : Z.
Variable allocated_bytes : Block -> Z.
Variable state : RuntimeState.

Lemma paired_dispose (a b : VSortNode) :
  paired a b ->
  match dispose_run sorter allocated_bytes state a,
        dispose_run sorter allocated_bytes state b with
  | Next a', Next b' => paired a' b'
  | Return r _, Return r' _ => r = r' /\ r <> Returned OK
  | _, _ => False
  end.
Proof.
  unfold paired. destruct a, b. simpl.
  intros (Hl & -> & -> & -> & -> & -> & Hlen & Hperm).
  assert (H1 : negb (_limit0 =? -1) = true)
    by (apply negb_true_iff, Z.eqb_neq; lia).
  assert (H2 : (0 <? _limit0) = true) by (apply Z.ltb_lt; exact Hl).
  unfold dispose_run, admit_run, partial_sort, after_admission; simpl.
  repeat (rewrite ?H1, ?H2;
          match goal with
          | |- context [match first_failure ?a ?b with _ => _ end] =>
              destruct (first_failure a b) as [[? ?]|] eqn:?
          | |- context [if ?c then _ else _] => destruct c eqn:?
          | |- context [match check_query_state ?a ?b with _ => _ end] =>
              destruct (check_query_state a b) eqn:?
          end; simpl);
    try (split; [reflexivity | discriminate]);
    repeat split; try assumption; try reflexivity;
    rewrite ?length_app, ?concat_app; simpl; rewrite ?app_nil_r; try lia;
    apply Permutation_app; try assumption;
    (eapply Permutation_trans; [apply sort_block_perm|]);
    apply Permutation_sym, sort_block_perm.
Qed.

Lemma paired_tick (a b : VSortNode) : paired a b -> paired (tick a) (tick b).
Proof.
  unfold paired. destruct a, b. simpl.
  intros (Hl & Hc & Hb & Hu & Hk & He & Hlen & Hperm).
  repeat split; try assumption. congruence.
Qed.

Lemma paired_merge_upstream (a b : VSortNode) (block : Block) :
  paired a b -> paired (merge_upstream a block) (merge_upstream b block).
Proof.
  unfold paired, merge_upstream. destruct (negb _); [|tauto].
  destruct a, b. simpl.
  intros (Hl & Hc & Hb & Hu & Hk & He & Hlen & Hperm).
  repeat split; try assumption. congruence.
Qed.

Lemma paired_keep_accumulating (a b : VSortNode) (eos : bool) :
  paired a b ->
  keep_accumulating BUFFERED_BLOCK_SIZE BUFFERED_BLOCK_BYTES allocated_bytes eos a =
  keep_accumulating BUFFERED_BLOCK_SIZE BUFFERED_BLOCK_BYTES allocated_bytes eos b.
Proof.
  unfold paired, keep_accumulating. intros (_ & _ & _ & Hu & _). rewrite Hu. reflexivity.
Qed.

Lemma paired_done (a b : VSortNode) (r : Result) :
  paired a b -> same_runs (r, build_merge_tree a) (r, build_merge_tree b).
Proof.
  intros (_ & _ & _ & _ & _ & _ & Hlen & Hperm). unfold same_runs. simpl.
  destruct (build_merge_tree_frame a) as (_ & _ & ->).
  destruct (build_merge_tree_frame b) as (_ & _ & ->).
  repeat split; assumption.
Qed.

Lemma paired_loop (child : list ChildResult) :
  forall a b,
    paired a b ->
    let ra := sort_input_loop sorter BUFFERED_BLOCK_SIZE BUFFERED_BLOCK_BYTES
                allocated_bytes state child a in
    let rb := sort_input_loop sorter BUFFERED_BLOCK_SIZE BUFFERED_BLOCK_BYTES
                allocated_bytes state child b in
    fst ra = fst rb /\ (fst ra = Returned OK -> same_runs ra rb).
Proof.
  induction child as [|c rest IH]; intros a b Hab; cbn [sort_input_loop].
  - pose proof (paired_dispose _ _ (paired_tick _ _ Hab)) as S.
    destruct (dispose_run sorter allocated_bytes state (tick a)) as [a'|ra a'],
             (dispose_run sorter allocated_bytes state (tick b)) as [b'|rb b'];
      try contradiction; cbn [fst snd].
    + split; [reflexivity|]. intros _. apply paired_done. exact S.
    + destruct S as [-> S]. split; [reflexivity|]. intros E. contradiction.
  - destruct c as [block|code]; [|split; [reflexivity | discriminate]].
    pose proof (paired_merge_upstream _ _ block (paired_tick _ _ Hab)) as Hm.
    rewrite (paired_keep_accumulating _ _ _ Hm).
    destruct (keep_accumulating _ _ _ _ (merge_upstream (tick b) block));
      [apply IH; exact Hm|].
    pose proof (paired_dispose _ _ Hm) as S.
    destruct (dispose_run sorter allocated_bytes state (merge_upstream (tick a) block))
      as [a'|ra a'],
             (dispose_run sorter allocated_bytes state (merge_upstream (tick b) block))
      as [b'|rb b'];
      try contradiction; cbn [fst snd].
    + destruct rest; [|apply IH; exact S].
      split; [reflexivity|]. intros _. apply paired_done. exact S.
    + destruct S as [-> S]. split; [reflexivity|]. intros E. contradiction.
Qed.

End Simulation.

Lemma presorted_min {A} (le : A -> A -> Prop) (K : nat) (l : list A) :
  presorted le (Nat.min K (length l)) l -> presorted le K l.
Proof.
  revert l. induction K as [|K IH]; intros l H; [exact I|].
  destruct l as [|x l]; [exact I|].
  simpl in H. destruct H as [H1 H2]. split; [exact H1 | apply IH; exact H2].
Qed.

Lemma open_paired (sorter : Sorter) (SIZE BYTES : Z) (bytes : Block -> Z)
    (state : RuntimeState) (tnode : TPlanNode) (child : list ChildResult) (L : Z) :
  0 < L ->
  let ra := open sorter SIZE BYTES bytes state child (fresh (with_limit tnode L)) in
  let rb := open sorter SIZE BYTES bytes state child (fresh (with_limit tnode (-1))) in
  fst ra = fst rb /\ (fst ra = Returned OK -> same_runs ra rb).
Proof.
  intros HL. unfold open, return_if_error, sort_input.
  cbn [fresh with_limit prepare init VSortNode_new _clock set_unsorted_block].
  destruct (exec_node_open state); try (split; [reflexivity | discriminate]).
  destruct (exprs_open state); try (split; [reflexivity | discriminate]).
  destruct (is_cancelled state 0); [split; [reflexivity | discriminate]|].
  destruct (check_query_state state 0); try (split; [reflexivity | discriminate]).
  destruct (child_open state); try (split; [reflexivity | discriminate]).
  apply paired_loop. unfold paired, fresh. simpl. repeat split; try assumption.
  constructor.
Qed.

(** X18.  For a limit [1 <= L < 2^63] and offset 0: the operator with the
    limit and the operator without a limit abort alike; when they emit, the
    rows emitted with the limit and the first [L] rows emitted without it
    are as many and tie one by one under the sort description (which of
    several tying rows comes first is up to [sort_block]). *)
Theorem topn_ties_with_full_sort (sorter : Sorter) (SIZE BYTES : Z)
    (bytes : Block -> Z) (state : RuntimeState) (tnode : TPlanNode)
    (child : list ChildResult) (mem_reuse : bool) (L : Z) :
  1 <= L < 2 ^ 63 ->
  match run_operator sorter SIZE BYTES bytes state (with_limit tnode L) child mem_reuse,
        run_operator sorter SIZE BYTES bytes state (with_limit tnode (-1)) child mem_reuse
  with
  | Emitted a, Emitted b =>
      Forall2 (row_tie (fill_sort_description (fresh (with_limit tnode L))))
        a (firstn (Z.to_nat L) b)
  | Aborted r, Aborted r' => r = r'
  | _, _ => False
  end.
Proof.
  intros HL.
  assert (Hb : batch_size state <> 0 \/ 0 = 0) by (right; reflexivity).
  assert (H0 : forall lim, 0 <= plan_offset (with_limit tnode lim))
    by (intros lim; unfold plan_offset; simpl; lia).
  pose proof (run_operator_emits sorter SIZE BYTES bytes state (with_limit tnode L)
                child mem_reuse (H0 L)) as HA.
  pose proof (run_operator_emits sorter SIZE BYTES bytes state (with_limit tnode (-1))
                child mem_reuse (H0 (-1))) as HB.
  destruct (open_paired sorter SIZE BYTES bytes state tnode child L ltac:(lia))
    as [Hfst Hsame].
  unfold run_operator in *. fold (fresh (with_limit tnode L)) in *.
  fold (fresh (with_limit tnode (-1))) in *.
  destruct (open sorter SIZE BYTES bytes state child (fresh (with_limit tnode L)))
    as [ra na] eqn:EA.
  destruct (open sorter SIZE BYTES bytes state child (fresh (with_limit tnode (-1))))
    as [rb nb] eqn:EB.
  cbn [fst snd] in Hfst, Hsame. subst rb.
  destruct ra as [s|]; [destruct s|]; try reflexivity.
  specialize (Hsame eq_refl). destruct Hsame as (_ & _ & Hperm). cbn [snd] in Hperm.
  destruct (pull _ state na mem_reuse) as [blocksA|]; [|contradiction].
  destruct (pull _ state nb mem_reuse) as [blocksB|]; [|contradiction].
  destruct HA as (na' & RA & restA & EA' & HrA & HpA & HsA & -> & HtA).
  destruct HB as (nb' & RB & restB & EB' & HrB & HpB & HsB & -> & HtB).
  inversion EA'; subst na'. inversion EB'; subst nb'. clear EA' EB'.
  change (plan_offset (with_limit tnode L)) with 0 in *.
  change (plan_offset (with_limit tnode (-1))) with 0 in *.
  change (limit (with_limit tnode L)) with L in *.
  change (limit (with_limit tnode (-1))) with (-1) in *.
  change (fill_sort_description (fresh (with_limit tnode (-1))))
    with (fill_sort_description (fresh (with_limit tnode L))) in *.
  set (D := fill_sort_description (fresh (with_limit tnode L))) in *.
  assert (W : wf_desc D = true) by apply fill_sort_description_wf.
  destruct HrA as (HlA & _ & HretA & HrunsA & _).
  destruct HrB as (HlB & _ & _ & HrunsB & _).
  simpl skipn in *.
  rewrite (cut_to_limit_plain nb RB HlB).
  rewrite (cut_to_limit_firstn na RA HretA) by lia. rewrite HlA.
  (* without a limit every row has been gone through, in sorted order *)
  destruct (HtB Hb) as [->|[HtB' _]]; [|contradiction].
  rewrite app_nil_r in *.
  assert (SB : presorted (row_le D) (Z.to_nat L) RB).
  { apply presorted_of_sorted. rewrite <- (firstn_all RB).
    apply (presorted_prefix _ (length RB) RB []). rewrite app_nil_r. apply HsB.
    eapply Forall_impl; [|exact HrunsB]. intros b (_ & Hs & _).
    apply presorted_of_sorted. apply (sorted_of_presorted _ (length b)); [lia|].
    apply Hs. rewrite wrap_int64_small by lia. lia. }
  (* with the limit the first L rows gone through are the least ones *)
  assert (SA : presorted (row_le D) (Z.to_nat L) (RA ++ restA) /\
               firstn (Z.to_nat L) (RA ++ restA) = firstn (Z.to_nat L) RA).
  { assert (HK : presorted (row_le D) (Nat.min (Z.to_nat L) (length RA)) (RA ++ restA)).
    { apply HsA. eapply Forall_impl; [|exact HrunsA]. intros b (_ & _ & Hs).
      rewrite wrap_int64_small in Hs by lia.
      replace (Z.to_nat L) with (Z.to_nat (0 + L)) by (f_equal; lia). apply Hs. lia. }
    destruct (HtA Hb) as [->|[_ Hge]].
    - rewrite app_nil_r in *. split; [apply presorted_min; exact HK | reflexivity].
    - unfold rows in Hge.
      assert (Hle : (Z.to_nat L <= length RA)%nat) by lia.
      rewrite Nat.min_l in HK by exact Hle. split; [exact HK|].
      rewrite firstn_app. replace (Z.to_nat L - length RA)%nat with 0%nat by lia.
      rewrite firstn_0, app_nil_r. reflexivity. }
  destruct SA as [SA EA'].
  rewrite <- EA'.
  assert (P : Permutation (RA ++ restA) RB).
  { rewrite HpA, Hperm. symmetry. exact HpB. }
  apply presorted_firstn_tie; try assumption.
  - apply Permutation_length. exact P.
  - intros x. apply lt_count_perm. exact P.
Qed.

Lemma topn_ties_with_full_sort_witness :
  Forall2 (row_tie (fill_sort_description (fresh (with_limit (plan_asc 0 None) 1))))
    [[Some 1; Some 20]]
    (firstn 1 [[Some 1; Some 10]; [Some 1; Some 20]]).
Proof.
  assert (H1 : 1 <= 1 < 2 ^ 63) by lia.
  exact (topn_ties_with_full_sort limited_sorter 8 1000 (fun _ => 0) (quiet_state 4096)
           (plan_asc 0 None) tying_rows false 1 H1).
Defined.

(** C5 on a concrete input: offset 0, limit 0, one block with one row.  The
    claim gives the first 0 rows of the sorted stream: no row, and a normal
    end.  With limit 0 the first run finds the counter, which is 0, not
    below the limit, and the code takes the [top()] of the pruning heap,
    which is empty: undefined behaviour, whatever [sort_block] is.  Without
    a limit the operator emits the row. *)
Lemma limit_zero_reaches_empty_heap :
  let plan := plan_asc 0 None in
  let child := [ChildBlock (map row1 [1])] in
  (forall sorter,
      run_operator sorter 8 1000 (fun _ => 0) (quiet_state 4096)
        (with_limit plan 0) child false = Aborted Undefined) /\
  (forall sorter,
      run_operator sorter 8 1000 (fun _ => 0) (quiet_state 4096)
        (with_limit plan (-1)) child false = Emitted (map row1 [1])) /\
  firstn (Z.to_nat 0) (map row1 [1]) = [].
Proof.
  split; [|split].
  - intros sorter. vm_compute. reflexivity.
  - intros sorter.
    assert (E : run_operator sorter 8 1000 (fun _ => 0) (quiet_state 4096)
                  (with_limit (plan_asc 0 None) (-1)) [ChildBlock (map row1 [1])] false =
                Emitted (sort_block sorter (map row1 [1])
                           (fill_sort_description (fresh (plan_asc 0 None))) (-1) ++ []))
      by (vm_compute; reflexivity).
    rewrite E, app_nil_r. f_equal.
    apply Permutation_length_1_inv. apply Permutation_sym, sort_block_perm.
  - reflexivity.
Qed.

(** * Further properties of the build and of the probe *)
Ltac bool_facts :=
  repeat match goal with
         | H : negb _ = true |- _ => apply negb_true_iff in H
         | H : negb _ = false |- _ => apply negb_false_iff in H
         | H : (_ =? _) = true |- _ => apply Z.eqb_eq in H
         | H : (_ =? _) = false |- _ => apply Z.eqb_neq in H
         | H : (_ <? _) = false |- _ => apply Z.ltb_ge in H
         | H : (_ <? _) = true |- _ => apply Z.ltb_lt in H
         end.

Lemma first_failure_none (ctxs : list VExprContext) :
  (forall e b, In e ctxs -> expr_error e b = None) ->
  forall b, first_failure ctxs b = None.
Proof.
  induction ctxs as [|e ctxs IH]; intros H b; [reflexivity|].
  simpl. rewrite (H e b) by (left; reflexivity).
  rewrite IH; [reflexivity|]. intros e' b' He. apply H. right. exact He.
Qed.

Section Undisturbed.

Variable sorter : Sorter.
Variable BUFFERED_BLOCK_SIZE : Z.
Variable BUFFERED_BLOCK_BYTES : Z.
Variable allocated_bytes : Block -> Z.
Variable state : RuntimeState.
Hypothesis calm : undisturbed state.

Lemma admitting_dispose (n : VSortNode) :
  admitting n /\ unfailing (_vsort_exec_exprs n) ->
  match dispose_run sorter allocated_bytes state n with
  | Next n' => admitting n' /\ unfailing (_vsort_exec_exprs n')
  | Return _ _ => False
  end.
Proof.
  unfold admitting, unfailing. destruct (calm (_clock n)) as [Hc Hs]. revert Hc Hs.
  destruct n. simpl. intros Hc Hs (Hm & Hslot & Hkey).
  unfold dispose_run, admit_run, partial_sort, after_admission; simpl.
  rewrite ?(first_failure_none _ Hslot), ?(first_failure_none _ Hkey).
  repeat (rewrite ?Hc, ?Hs, ?(first_failure_none _ Hslot), ?(first_failure_none _ Hkey);
          match goal with
          | |- context [if ?c then _ else _] => destruct c eqn:?
          end; simpl);
    rewrite ?Hc, ?Hs; simpl; change (rows []) with 0; rewrite ?Z.add_0_r;
    try (split; [tauto | split; assumption]).
  all: exfalso; bool_facts; lia.
Qed.

(** Without cancellation, query-state errors and failing expressions the
    build takes the answers up to the first error, and returns it. *)
Lemma undisturbed_loop (child : list ChildResult) :
  forall n, admitting n /\ unfailing (_vsort_exec_exprs n) ->
    fst (sort_input_loop sorter BUFFERED_BLOCK_SIZE BUFFERED_BLOCK_BYTES
           allocated_bytes state child n) = Returned (first_error child).
Proof.
  induction child as [|c rest IH]; intros n Hn; simpl.
  - pose proof (admitting_dispose (tick n) Hn) as S.
    destruct (dispose_run sorter allocated_bytes state (tick n)); [reflexivity | contradiction].
  - destruct c as [b|code]; simpl; [|reflexivity].
    assert (Hm : admitting (merge_upstream (tick n) b) /\
                 unfailing (_vsort_exec_exprs (merge_upstream (tick n) b))).
    { unfold merge_upstream. destruct (negb _); exact Hn. }
    destruct (keep_accumulating _ _ _ _ _); [apply IH; exact Hm|].
    pose proof (admitting_dispose _ Hm) as S.
    destruct (dispose_run sorter allocated_bytes state (merge_upstream (tick n) b));
      [|contradiction].
    destruct rest; [reflexivity | apply IH; exact S].
Qed.

End Undisturbed.

Lemma bytes_of_app (bytes : Block -> Z) (a b : list Block) :
  bytes_of bytes (a ++ b) = bytes_of bytes a + bytes_of bytes b.
Proof.
  induction a as [|u a IH]; simpl; [reflexivity|]. rewrite IH. lia.
Qed.

Lemma Forall_removelast {A} (P : A -> Prop) (l : list A) :
  Forall P l -> Forall P (removelast l).
Proof.
  induction 1 as [|x l Hx Hl IH]; [constructor|].
  simpl. destruct l; [constructor|]. constructor; assumption.
Qed.

Section Extraction.

Variable sorter : Sorter.
Variable BUFFERED_BLOCK_SIZE : Z.
Variable BUFFERED_BLOCK_BYTES : Z.
Variable allocated_bytes : Block -> Z.
Variable state : RuntimeState.

(** One step extracts the buffer as one run when it holds a row, and
    nothing otherwise, however the step ends; the memory counter grows by
    the bytes of the buffer. *)
Lemma dispose_extracts (n : VSortNode) :
  let n' := flow_node (dispose_run sorter allocated_bytes state n) in
  extracted_unsorted (_events n') =
    extracted_unsorted (_events n) ++
    (if 0 <? rows (_unsorted_block n) then [_unsorted_block n] else []) /\
  _total_mem_usage n' =
    _total_mem_usage n +
    (if 0 <? rows (_unsorted_block n) then allocated_bytes (_unsorted_block n) else 0).
Proof.
  destruct n. simpl.
  dispose_cases;
    rewrite ?extracted_unsorted_snoc; simpl; rewrite ?app_nil_r;
    split; first [reflexivity | lia].
Qed.

Lemma keep_accumulating_false (n : VSortNode) :
  keep_accumulating BUFFERED_BLOCK_SIZE BUFFERED_BLOCK_BYTES allocated_bytes false n = false ->
  reached_threshold BUFFERED_BLOCK_SIZE BUFFERED_BLOCK_BYTES allocated_bytes
    (_unsorted_block n).
Proof.
  unfold keep_accumulating, reached_threshold. simpl. intros H.
  apply andb_false_iff in H. destruct H as [H|H]; apply Z.ltb_ge in H; [left | right]; exact H.
Qed.

Lemma thresholds_loop (child : list ChildResult) :
  forall n,
    Forall (reached_threshold BUFFERED_BLOCK_SIZE BUFFERED_BLOCK_BYTES allocated_bytes)
      (extracted_unsorted (_events n)) ->
    Forall (reached_threshold BUFFERED_BLOCK_SIZE BUFFERED_BLOCK_BYTES allocated_bytes)
      (removelast
         (extracted_unsorted
            (_events (snd (sort_input_loop sorter BUFFERED_BLOCK_SIZE BUFFERED_BLOCK_BYTES
                             allocated_bytes state child n))))).
Proof.
  assert (Hlast : forall m,
    Forall (reached_threshold BUFFERED_BLOCK_SIZE BUFFERED_BLOCK_BYTES allocated_bytes)
      (extracted_unsorted (_events m)) ->
    Forall (reached_threshold BUFFERED_BLOCK_SIZE BUFFERED_BLOCK_BYTES allocated_bytes)
      (removelast (extracted_unsorted
         (_events (flow_node (dispose_run sorter allocated_bytes state m)))))).
  { intros m Hm. destruct (dispose_extracts m) as [E _]. cbv zeta in E. rewrite E.
    destruct (0 <? rows (_unsorted_block m)).
    - rewrite removelast_last. exact Hm.
    - rewrite app_nil_r. apply Forall_removelast. exact Hm. }
  induction child as [|c rest IH]; intros n Hn; simpl.
  - specialize (Hlast (tick n) Hn).
    destruct (dispose_run sorter allocated_bytes state (tick n)) as [n'|r n']; simpl in *;
      [|exact Hlast].
    destruct (build_merge_tree_frame n') as (_ & -> & _). exact Hlast.
  - destruct c as [b|code]; simpl; [|apply Forall_removelast; exact Hn].
    destruct (merge_upstream_buffer (tick n) b) as [_ Me]. simpl in Me.
    assert (Hm : Forall (reached_threshold BUFFERED_BLOCK_SIZE BUFFERED_BLOCK_BYTES
                           allocated_bytes)
                   (extracted_unsorted (_events (merge_upstream (tick n) b))))
      by (rewrite Me; exact Hn).
    destruct (keep_accumulating _ _ _ _ _) eqn:K; [apply IH; exact Hm|].
    pose proof (Hlast _ Hm) as L.
    destruct (dispose_extracts (merge_upstream (tick n) b)) as [E _]. cbv zeta in E.
    destruct (dispose_run sorter allocated_bytes state (merge_upstream (tick n) b))
      as [n'|r n']; simpl in *; [|exact L].
    destruct rest as [|c' rest']; cbn [snd].
    + destruct (build_merge_tree_frame n') as (_ & -> & _). exact L.
    + apply IH. rewrite E. apply Forall_app. split; [exact Hm|].
      destruct (0 <? rows _); constructor; [|constructor].
      apply keep_accumulating_false. exact K.
Qed.

Lemma mem_usage_loop (child : list ChildResult) (n : VSortNode) :
  _total_mem_usage n = bytes_of allocated_bytes (extracted_unsorted (_events n)) ->
  let res := sort_input_loop sorter BUFFERED_BLOCK_SIZE BUFFERED_BLOCK_BYTES
               allocated_bytes state child n in
  _total_mem_usage (snd res) =
    bytes_of allocated_bytes (extracted_unsorted (_events (snd res))).
Proof.
  intros Hn.
  apply (sort_input_loop_ind sorter BUFFERED_BLOCK_SIZE BUFFERED_BLOCK_BYTES
           allocated_bytes state
           (fun m => _total_mem_usage m =
                       bytes_of allocated_bytes (extracted_unsorted (_events m)))
           (fun _ m => _total_mem_usage m =
                         bytes_of allocated_bytes (extracted_unsorted (_events m))));
    try exact Hn.
  - intros m Hm. exact Hm.
  - intros m b Hm. unfold merge_upstream. destruct (negb _); exact Hm.
  - intros m Hm. destruct (dispose_extracts m) as [E M]. cbv zeta in E, M.
    assert (G : _total_mem_usage (flow_node (dispose_run sorter allocated_bytes state m)) =
                bytes_of allocated_bytes
                  (extracted_unsorted
                     (_events (flow_node (dispose_run sorter allocated_bytes state m))))).
    { rewrite E, M, bytes_of_app, Hm. destruct (0 <? rows _); simpl; lia. }
    destruct (dispose_run sorter allocated_bytes state m); exact G.
  - intros m Hm. destruct (build_merge_tree_frame m) as (_ & -> & _).
    unfold build_merge_tree. destruct (1 <? _)%nat; exact Hm.
  - intros m code Hm. exact Hm.
Qed.

End Extraction.

Section EveryRunKept.

Variable sorter : Sorter.
Variable BUFFERED_BLOCK_SIZE : Z.
Variable BUFFERED_BLOCK_BYTES : Z.
Variable allocated_bytes : Block -> Z.
Variable state : RuntimeState.
Variables (asc nulls : list bool) (exprs : VSortExecExprs).

Lemma runs_hold_dispose (n : VSortNode) :
  runs_hold exprs n ->
  match dispose_run sorter allocated_bytes state n with
  | Next n' => runs_hold exprs n'
  | Return r n' => r <> Returned OK
  end.
Proof.
  unfold runs_hold, admitting. destruct n. simpl. intros (Hm & -> & HP).
  dispose_cases; try discriminate; bool_facts;
    try (exfalso; lia);
    change (rows []) with 0;
    rewrite ?extracted_unsorted_snoc; simpl; rewrite ?app_nil_r;
    (split; [first [tauto | lia]|]); (split; [reflexivity|]);
    try exact HP;
    rewrite map_app, !concat_app; simpl; rewrite ?app_nil_r;
    (apply Permutation_app; [exact HP|]);
    apply sort_block_perm.
Qed.

Lemma runs_hold_loop (child : list ChildResult) (n : VSortNode) :
  runs_hold exprs n ->
  let res := sort_input_loop sorter BUFFERED_BLOCK_SIZE BUFFERED_BLOCK_BYTES
               allocated_bytes state child n in
  fst res = Returned OK -> runs_hold exprs (snd res).
Proof.
  intros Hn.
  apply (sort_input_loop_ind sorter BUFFERED_BLOCK_SIZE BUFFERED_BLOCK_BYTES
           allocated_bytes state (runs_hold exprs)
           (fun r n' => r = Returned OK -> runs_hold exprs n')); try exact Hn.
  - intros m Hm. exact Hm.
  - intros m b Hm. unfold merge_upstream. destruct (negb _); exact Hm.
  - intros m Hm. pose proof (runs_hold_dispose m Hm) as S.
    destruct (dispose_run sorter allocated_bytes state m); [exact S|].
    intros E. contradiction.
  - intros m Hm _. unfold runs_hold, admitting, build_merge_tree in *.
    destruct (1 <? _)%nat; exact Hm.
  - intros m code _. discriminate.
Qed.

Lemma heaped_dispose (n : VSortNode) :
  heaped asc nulls exprs n ->
  match dispose_run sorter allocated_bytes state n with
  | Next n' => heaped asc nulls exprs n'
  | Return r n' => r <> Returned OK
  end.
Proof.
  unfold heaped, admitting. destruct n. simpl.
  intros (Hm & -> & -> & -> & -> & -> & Hd & Hq).
  match type of Hq with _ = (if ?c then _ else _) => destruct c eqn:El end;
    dispose_cases; try discriminate; rewrite ?El; bool_facts;
    try (exfalso; lia);
    change (rows []) with 0;
    repeat split; try reflexivity; try (right; reflexivity); try assumption;
    try tauto; try lia.
  all: rewrite Hq, last_last, map_app; reflexivity.
Qed.

Lemma heaped_loop (child : list ChildResult) (n : VSortNode) :
  heaped asc nulls exprs n ->
  let res := sort_input_loop sorter BUFFERED_BLOCK_SIZE BUFFERED_BLOCK_BYTES
               allocated_bytes state child n in
  fst res = Returned OK ->
  let cursors := map (fun b => new_SortCursorImpl b (description_of asc nulls exprs))
                     (_sorted_blocks (snd res)) in
  _block_priority_queue (snd res) = (if _limit (snd res) =? -1 then [] else cursors) /\
  _cursors (snd res) = cursors /\
  _priority_queue (snd res) =
    (if (1 <? length (_sorted_blocks (snd res)))%nat then cursors else []).
Proof.
  intros Hn.
  apply (sort_input_loop_ind sorter BUFFERED_BLOCK_SIZE BUFFERED_BLOCK_BYTES
           allocated_bytes state (heaped asc nulls exprs)
           (fun r n' => r = Returned OK ->
              let cursors := map (fun b => new_SortCursorImpl b (description_of asc nulls exprs))
                                 (_sorted_blocks n') in
              _block_priority_queue n' = (if _limit n' =? -1 then [] else cursors) /\
              _cursors n' = cursors /\
              _priority_queue n' =
                (if (1 <? length (_sorted_blocks n'))%nat then cursors else [])));
    try exact Hn.
  - intros m Hm. exact Hm.
  - intros m b Hm. unfold merge_upstream. destruct (negb _); exact Hm.
  - intros m Hm. pose proof (heaped_dispose m Hm) as S.
    destruct (dispose_run sorter allocated_bytes state m); [exact S|].
    intros E. contradiction.
  - intros m (Hm & Ha & Hnu & He & Hc & Hp & Hd & Hq) _.
    assert (E : map (fun block => new_SortCursorImpl block (_sort_description m))
                  (_sorted_blocks m) =
                map (fun b => new_SortCursorImpl b (description_of asc nulls exprs))
                  (_sorted_blocks m)).
    { destruct Hd as [Hd|Hd]; rewrite Hd; reflexivity. }
    unfold build_merge_tree. simpl. rewrite Hc, Hp, E, fold_left_pq_push. simpl.
    destruct (1 <? length (_sorted_blocks m))%nat eqn:L; simpl; rewrite ?L;
      repeat split; try assumption; reflexivity.
  - intros m code _. discriminate.
Qed.

End EveryRunKept.

(** ** The size of a batch *)

Lemma merge_loop_bound (fuel : nat) (batch : Z) :
  forall q off mr mc q' off' mr' mc',
    mr < batch ->
    merge_loop fuel batch q off mr mc = (q', off', mr', mc') ->
    mr <= mr' <= batch /\ rows mc' = rows mc + (mr' - mr).
Proof.
  induction fuel as [|fuel IH]; intros q off mr mc q' off' mr' mc' Hlt; simpl.
  - intros H; inversion H; subst. lia.
  - destruct (pq_extract cursor_before q) as [[c rest]|].
    2:{ intros H; inversion H; subst. lia. }
    destruct (off =? 0).
    + destruct (Z.eqb_spec (mr + 1) batch) as [Hb|Hb].
      * intros H; inversion H; subst. rewrite rows_app. unfold rows at 2. simpl. lia.
      * intros H. apply IH in H; [|lia]. rewrite rows_app in H. unfold rows at 3 in H.
        simpl in H. lia.
    + destruct (Z.eqb_spec mr batch) as [Hb|Hb]; [lia|].
      intros H. apply IH in H; [|lia]. exact H.
Qed.

Lemma rows_firstn_le (k : nat) (b : Block) : rows (firstn k b) <= rows b.
Proof.
  unfold rows. rewrite length_firstn. lia.
Qed.

Lemma rows_cut_to_limit_le (n : VSortNode) (b : Block) : rows (cut_to_limit n b) <= rows b.
Proof.
  unfold cut_to_limit. destruct (_ && _); [apply rows_firstn_le | lia].
Qed.

Lemma pops_from_empty (rs : list Row) (q : list SortCursorImpl) :
  pops [] rs q -> rs = [].
Proof.
  intros H. inversion H; subst; [reflexivity|]. discriminate.
Qed.

Lemma reached_limit_block (n : VSortNode) (b : Block) (e : bool) :
  snd (fst (reached_limit n b e)) = cut_to_limit n b.
Proof.
  unfold reached_limit, cut_to_limit. destruct (_ && _); reflexivity.
Qed.

(** X1.  With two runs or more and a positive batch size, one call of
    [get_next] with a cleared block delivers at most [batch_size] rows. *)
Theorem merge_batch_bound (state : RuntimeState) (n : VSortNode) (mem_reuse eos : bool) :
  (1 < length (_sorted_blocks n))%nat -> 0 < batch_size state ->
  let '(_, _, out, _) := get_next state n [] mem_reuse eos in
  rows out <= batch_size state.
Proof.
  intros Hlen Hb. unfold get_next.
  destruct (_sorted_blocks n) as [|b1 [|b2 bs]]; [simpl in Hlen; lia | simpl in Hlen; lia|].
  unfold merge_sort_read.
  assert (Hinit : (if mem_reuse then ([] : Block) else []) = [])
    by (destruct mem_reuse; reflexivity).
  rewrite Hinit.
  destruct (merge_loop (queue_rows (_priority_queue n)) (batch_size state)
              (_priority_queue n) (_offset n) 0 []) as [[[q' off'] mr'] mc'] eqn:E.
  apply merge_loop_bound in E; [|exact Hb]. change (rows []) with 0 in E.
  destruct (mr' =? 0).
  - pose proof (reached_limit_block (set_offset (set_priority_queue n q') off') [] true) as C.
    destruct (reached_limit _ [] true) as [[n1 out] e1]. simpl in C. subst out.
    rewrite cut_to_limit_nil. change (rows []) with 0. lia.
  - pose proof (reached_limit_block (set_offset (set_priority_queue n q') off') mc' eos) as C.
    destruct (reached_limit _ mc' eos) as [[n1 out] e1]. simpl in C. subst out.
    pose proof (rows_cut_to_limit_le (set_offset (set_priority_queue n q') off') mc'). lia.
Qed.

Lemma merge_batch_bound_witness :
  let n := snd (open limited_sorter 1 1000 (fun _ => 0) (quiet_state 2) three_runs
                  (fresh (plan_asc (-1) None))) in
  let '(_, _, out, _) := get_next (quiet_state 2) n [] false false in
  rows out <= 2.
Proof.
  assert (H1 : (1 < length (_sorted_blocks
                   (snd (open limited_sorter 1%Z 1000%Z (fun _ => 0%Z) (quiet_state 2%Z)
                           three_runs (fresh (plan_asc (-1)%Z None))))))%nat)
    by (vm_compute; lia).
  assert (H2 : 0 < batch_size (quiet_state 2)) by (simpl; lia).
  exact (merge_batch_bound (quiet_state 2) _ false false H1 H2).
Defined.

(** X2.  [reset] does not rewind the operator: it clears the counter of
    skipped rows only, which [get_next] never reads, so a [get_next] after
    [reset] returns the status, the block and the end-of-stream flag it
    would have returned without it, and leaves the same state. *)
Theorem reset_keeps_position (state : RuntimeState) (n : VSortNode) (block : Block)
    (mem_reuse eos : bool) :
  let '(status, n1, out, eos1) := get_next state n block mem_reuse eos in
  get_next state (snd (reset state n)) block mem_reuse eos =
    (status, snd (reset state n1), out, eos1).
Proof.
  destruct n. unfold get_next, reset, merge_sort_read, reached_limit. simpl.
  match goal with |- context [match ?l with [] => _ | _ => _ end] =>
    destruct l as [|b1 [|b2 bs]] end; simpl.
  - destruct (_ && _); reflexivity.
  - destruct (_ && _); reflexivity.
  - match goal with |- context [merge_loop ?f ?b ?q ?o ?r ?c] =>
      destruct (merge_loop f b q o r c) as [[[q' off'] mr'] mc'] end.
    destruct (mr' =? 0); simpl; destruct (_ && _); reflexivity.
Qed.

(** X3.  End-of-stream stays: with a non-negative offset, and a batch size
    other than 0 or offset 0, once a [get_next] with a cleared block has set
    end-of-stream, the next one delivers no row and sets it again, whether
    the stream ended with the runs or at the limit. *)
Theorem end_of_stream_stays (state : RuntimeState) (n : VSortNode) (mem_reuse : bool) :
  0 <= _offset n -> batch_size state <> 0 \/ _offset n = 0 ->
  let '(_, n1, _, eos1) := get_next state n [] mem_reuse false in
  eos1 = true ->
  let '(_, _, out2, eos2) := get_next state n1 [] mem_reuse false in
  out2 = [] /\ eos2 = true.
Proof.
  intros Hoff Hb.
  destruct (_sorted_blocks n) as [|b1 [|b2 bs]] eqn:Hs.
  - assert (H1 : _sorted_blocks (snd (fst (fst (get_next state n [] mem_reuse false)))) = []).
    { unfold get_next. rewrite Hs. unfold reached_limit. destruct (_ && _); simpl; exact Hs. }
    destruct (get_next state n [] mem_reuse false) as [[[s n1] out1] eos1]. simpl in H1.
    intros _. apply get_next_no_run. exact H1.
  - pose proof (get_next_one_run state n b1 [] mem_reuse false Hs) as G.
    destruct (get_next state n [] mem_reuse false) as [[[s n1] out1] eos1].
    destruct G as (_ & _ & _ & _ & _ & G & _). intros _.
    pose proof (get_next_one_run state n1 [] [] mem_reuse false G) as G2.
    destruct (get_next state n1 [] mem_reuse false) as [[[s2 n2] out2] eos2].
    destruct G2 as (_ & He & _ & _ & _ & _ & Ho & _).
    rewrite skipn_nil, cut_to_limit_nil in Ho. split; assumption.
  - assert (Hlen : (1 < length (_sorted_blocks n))%nat) by (rewrite Hs; simpl; lia).
    destruct (get_next_merge state n mem_reuse Hlen Hoff) as (popped & q1 & Hp & G).
    destruct (get_next state n [] mem_reuse false) as [[[s n1] out1] eos1].
    cbv zeta in G. destruct G as (Gq & Go & Gs & Gl & Gb & Gr & _ & Gt).
    intros He.
    assert (Hlen1 : (1 < length (_sorted_blocks n1))%nat) by (rewrite Gs; exact Hlen).
    assert (Hoff1 : 0 <= _offset n1) by (rewrite Go; lia).
    destruct (get_next_merge state n1 mem_reuse Hlen1 Hoff1) as (popped2 & q2 & Hp2 & G2).
    destruct (get_next state n1 [] mem_reuse false) as [[[s2 n2] out2] eos2].
    cbv zeta in G2. destruct G2 as (_ & _ & _ & _ & Gb2 & _ & Gf2 & _).
    destruct (Gt He Hb) as [Hq|[Hl1 Hl2]].
    + rewrite Gq, Hq in Hp2. apply pops_from_empty in Hp2. subst popped2.
      rewrite skipn_nil, cut_to_limit_nil in Gb2. split; [exact Gb2|].
      destruct eos2; [reflexivity|]. destruct (Gf2 eq_refl) as (Hne & _). contradiction.
    + assert (Hret : _limit n1 <= _num_rows_returned n1).
      { rewrite Gl, Gr, Gb. unfold cut_to_limit.
        destruct (Z.eqb_spec (_limit n) (-1)) as [|_]; [contradiction|]. simpl.
        destruct (Z.leb_spec (_limit n)
                    (_num_rows_returned n + rows (skipn (Z.to_nat (_offset n)) popped)));
          [|lia].
        unfold rows in *. rewrite length_firstn. lia. }
      assert (Hne1 : _limit n1 <> -1) by (rewrite Gl; exact Hl1).
      split.
      * rewrite Gb2. unfold cut_to_limit.
        destruct (Z.eqb_spec (_limit n1) (-1)) as [|_]; [contradiction|]. simpl.
        destruct (Z.leb_spec (_limit n1)
                    (_num_rows_returned n1 + rows (skipn (Z.to_nat (_offset n1)) popped2)));
          [|unfold rows in *; lia].
        replace (Z.to_nat (_limit n1 - _num_rows_returned n1)) with 0%nat by lia.
        reflexivity.
      * destruct eos2; [reflexivity|]. destruct (Gf2 eq_refl) as (_ & _ & [Hc|Hc]);
          [contradiction | unfold rows in *; lia].
Qed.

Lemma end_of_stream_stays_witness :
  let n := snd (open limited_sorter 2 1000 (fun _ => 0) (quiet_state 4096) three_runs
                  (fresh (plan_asc 3 None))) in
  let r := get_next (quiet_state 4096) n [] false false in
  snd (fst r) = map row1 [1; 2; 3] /\ snd r = true /\
  let '(_, _, out2, eos2) := get_next (quiet_state 4096) (snd (fst (fst r))) [] false false in
  out2 = [] /\ eos2 = true.
Proof.
  cbv zeta.
  pose proof (end_of_stream_stays (quiet_state 4096)
                (snd (open limited_sorter 2 1000 (fun _ => 0) (quiet_state 4096) three_runs
                        (fresh (plan_asc 3 None)))) false) as H.
  assert (H1 : 0 <= _offset (snd (open limited_sorter 2 1000 (fun _ => 0) (quiet_state 4096)
                                    three_runs (fresh (plan_asc 3 None)))))
    by (vm_compute; discriminate).
  assert (H2 : batch_size (quiet_state 4096) <> 0 \/
               _offset (snd (open limited_sorter 2 1000 (fun _ => 0) (quiet_state 4096)
                               three_runs (fresh (plan_asc 3 None)))) = 0)
    by (right; vm_compute; reflexivity).
  specialize (H H1 H2).
  assert (E1 : snd (fst (get_next (quiet_state 4096)
                 (snd (open limited_sorter 2 1000 (fun _ => 0) (quiet_state 4096) three_runs
                         (fresh (plan_asc 3 None)))) [] false false)) = map row1 [1; 2; 3])
    by (vm_compute; reflexivity).
  assert (E2 : snd (get_next (quiet_state 4096)
                 (snd (open limited_sorter 2 1000 (fun _ => 0) (quiet_state 4096) three_runs
                         (fresh (plan_asc 3 None)))) [] false false) = true)
    by (vm_compute; reflexivity).
  split; [exact E1|]. split; [exact E2|].
  destruct (get_next (quiet_state 4096)
              (snd (open limited_sorter 2 1000 (fun _ => 0) (quiet_state 4096) three_runs
                      (fresh (plan_asc 3 None)))) [] false false) as [[[s n1] o1] e1].
  simpl in E2. simpl. apply H. exact E2.
Defined.

(** * From the upstream rows to the emitted rows *)

Lemma concat_map_materialized (exprs : VSortExecExprs) (us : list Block) :
  concat (map (fun u => if need_materialize_tuple exprs
                        then materialize (sort_tuple_slot_expr_ctxs exprs) u
                        else u) us) =
  (if need_materialize_tuple exprs
   then materialize (sort_tuple_slot_expr_ctxs exprs) (concat us)
   else concat us).
Proof.
  destruct (need_materialize_tuple exprs).
  - unfold materialize. rewrite concat_map. reflexivity.
  - rewrite map_id. reflexivity.
Qed.

Lemma rows_sort_input_block (n : VSortNode) (b : Block) :
  rows (sort_input_block n b) = rows b.
Proof.
  unfold sort_input_block, materialize, rows.
  destruct (need_materialize_tuple _); [rewrite length_map|]; reflexivity.
Qed.

Lemma cut_to_limit_split (n : VSortNode) (X : Block) :
  exists tail, X = cut_to_limit n X ++ tail.
Proof.
  unfold cut_to_limit. destruct (_ && _).
  - eexists. symmetry. apply firstn_skipn.
  - exists []. rewrite app_nil_r. reflexivity.
Qed.

Section Rows.

Variable sorter : Sorter.
Variable BUFFERED_BLOCK_SIZE : Z.
Variable BUFFERED_BLOCK_BYTES : Z.
Variable allocated_bytes : Block -> Z.
Variable state : RuntimeState.

Lemma runs_bounded_dispose (n : VSortNode) :
  (length (concat (_sorted_blocks n)) <=
   length (concat (extracted_unsorted (_events n))))%nat ->
  match dispose_run sorter allocated_bytes state n with
  | Next n' =>
      (length (concat (_sorted_blocks n')) <=
       length (concat (extracted_unsorted (_events n'))))%nat
  | Return r n' => r <> Returned OK
  end.
Proof.
  destruct n. simpl. intros HP.
  dispose_cases; try discriminate;
    rewrite ?extracted_unsorted_snoc, ?concat_app, ?length_app; simpl;
    rewrite ?app_nil_r, ?(Permutation_length (sort_block_perm _ _ _ _));
    unfold materialize; rewrite ?length_map; unfold Block, Row in *; lia.
Qed.

Lemma runs_bounded_loop (child : list ChildResult) (n : VSortNode) :
  (length (concat (_sorted_blocks n)) <=
   length (concat (extracted_unsorted (_events n))))%nat ->
  let res := sort_input_loop sorter BUFFERED_BLOCK_SIZE BUFFERED_BLOCK_BYTES
               allocated_bytes state child n in
  fst res = Returned OK ->
  (length (concat (_sorted_blocks (snd res))) <=
   length (concat (extracted_unsorted (_events (snd res)))))%nat.
Proof.
  intros Hn.
  apply (sort_input_loop_ind sorter BUFFERED_BLOCK_SIZE BUFFERED_BLOCK_BYTES
           allocated_bytes state
           (fun m => (length (concat (_sorted_blocks m)) <=
                      length (concat (extracted_unsorted (_events m))))%nat)
           (fun r m => r = Returned OK ->
                       (length (concat (_sorted_blocks m)) <=
                        length (concat (extracted_unsorted (_events m))))%nat));
    try exact Hn.
  - intros m Hm. exact Hm.
  - intros m b Hm. unfold merge_upstream. destruct (negb _); exact Hm.
  - intros m Hm. pose proof (runs_bounded_dispose m Hm) as S.
    destruct (dispose_run sorter allocated_bytes state m); [exact S|].
    intros E. contradiction.
  - intros m Hm _. destruct (build_merge_tree_frame m) as (_ & -> & ->). exact Hm.
  - intros m code _. discriminate.
Qed.

Variable tnode : TPlanNode.

Lemma open_sort_input (child : list ChildResult) (n : VSortNode) :
  open sorter BUFFERED_BLOCK_SIZE BUFFERED_BLOCK_BYTES allocated_bytes state child
    (fresh tnode) = (Returned OK, n) ->
  sort_input_loop sorter BUFFERED_BLOCK_SIZE BUFFERED_BLOCK_BYTES allocated_bytes state
    child (fresh tnode) = (Returned OK, n).
Proof.
  apply open_ok.
Qed.

(** After a build the runs hold no more rows than the child delivered. *)
Lemma open_runs_bounded (child : list ChildResult) (n : VSortNode) :
  open sorter BUFFERED_BLOCK_SIZE BUFFERED_BLOCK_BYTES allocated_bytes state child
    (fresh tnode) = (Returned OK, n) ->
  rows (concat (_sorted_blocks n)) <= rows (upstream_rows child).
Proof.
  intros E. apply open_sort_input in E.
  pose proof (runs_bounded_loop child (fresh tnode) (Nat.le_refl _)) as B.
  pose proof (buffer_loop sorter BUFFERED_BLOCK_SIZE BUFFERED_BLOCK_BYTES allocated_bytes
                state child (fresh tnode)) as U.
  cbv zeta in B, U. rewrite E in B, U. simpl in B, U.
  specialize (B eq_refl). destruct (U eq_refl) as [_ U2].
  rewrite U2 in B. unfold rows. lia.
Qed.

(** In the modes that admit every run, the runs hold the rows of the
    child, materialized. *)
Lemma open_runs_hold (child : list ChildResult) (n : VSortNode) :
  limit tnode = -1 \/ 0 < limit tnode ->
  open sorter BUFFERED_BLOCK_SIZE BUFFERED_BLOCK_BYTES allocated_bytes state child
    (fresh tnode) = (Returned OK, n) ->
  Permutation (concat (_sorted_blocks n))
    (sort_input_block (fresh tnode) (upstream_rows child)).
Proof.
  intros Hl E. apply open_sort_input in E.
  assert (H0 : runs_hold (sort_info_exprs tnode) (fresh tnode)).
  { unfold runs_hold, admitting, fresh. simpl. repeat split; [|constructor].
    destruct Hl as [Hl|Hl]; [left; exact Hl | right; split; [exact Hl | reflexivity]]. }
  pose proof (runs_hold_loop sorter BUFFERED_BLOCK_SIZE BUFFERED_BLOCK_BYTES allocated_bytes
                state (sort_info_exprs tnode) child (fresh tnode) H0) as B.
  pose proof (buffer_loop sorter BUFFERED_BLOCK_SIZE BUFFERED_BLOCK_BYTES allocated_bytes
                state child (fresh tnode)) as U.
  cbv zeta in B, U. rewrite E in B, U. simpl in B, U.
  destruct (B eq_refl) as (_ & _ & B3). destruct (U eq_refl) as [_ U2].
  rewrite concat_map_materialized, U2 in B3. exact B3.
Qed.

End Rows.

Lemma operator_emits_rows (sorter : Sorter) (SIZE BYTES : Z) (bytes : Block -> Z)
    (state : RuntimeState) (tnode : TPlanNode) (child : list ChildResult)
    (mem_reuse : bool) (out : list Row) :
  0 <= plan_offset tnode ->
  run_operator sorter SIZE BYTES bytes state tnode child mem_reuse = Emitted out ->
  exists n R rest,
    open sorter SIZE BYTES bytes state child (fresh tnode) = (Returned OK, n) /\
    Permutation (R ++ rest) (concat (_sorted_blocks n)) /\
    out = cut_to_limit n (skipn (Z.to_nat (plan_offset tnode)) R) /\
    _limit n = limit tnode /\ _num_rows_returned n = 0 /\
    (batch_size state <> 0 \/ plan_offset tnode = 0 ->
     rest = [] \/
     (limit tnode <> -1 /\ limit tnode <= rows (skipn (Z.to_nat (plan_offset tnode)) R))).
Proof.
  intros Hoff E.
  pose proof (run_operator_emits sorter SIZE BYTES bytes state tnode child mem_reuse Hoff) as H.
  rewrite E in H. destruct H as (n & R & rest & Ho & Hr & Hp & _ & Hc & Ht).
  destruct Hr as (Hl & _ & Hret & _). exists n, R, rest. repeat split; assumption.
Qed.

(** X4.  An offset that covers every row of the child leaves nothing to
    emit, whatever the limit and the batch size. *)
Theorem offset_beyond_input (sorter : Sorter) (SIZE BYTES : Z) (bytes : Block -> Z)
    (state : RuntimeState) (tnode : TPlanNode) (child : list ChildResult)
    (mem_reuse : bool) (out : list Row) :
  0 <= plan_offset tnode ->
  rows (upstream_rows child) <= plan_offset tnode ->
  run_operator sorter SIZE BYTES bytes state tnode child mem_reuse = Emitted out ->
  out = [].
Proof.
  intros Hoff Hbig E.
  destruct (operator_emits_rows sorter SIZE BYTES bytes state tnode child mem_reuse out Hoff E)
    as (n & R & rest & Ho & Hp & -> & _).
  apply open_runs_bounded in Ho. apply Permutation_length in Hp. rewrite length_app in Hp.
  rewrite skipn_all2; [apply cut_to_limit_nil|].
  unfold rows, Block, Row in *. lia.
Qed.

Lemma offset_beyond_input_witness :
  firstn 4 (skipn 7 (map row1 [1; 2; 3; 4; 5; 6])) = [].
Proof.
  assert (H1 : 0 <= plan_offset (plan_asc 4 (Some 7))) by (unfold plan_offset; simpl; lia).
  assert (H2 : rows (upstream_rows three_runs) <= plan_offset (plan_asc 4 (Some 7)))
    by (vm_compute; discriminate).
  assert (E : run_operator limited_sorter 2 1000 (fun _ => 0) (quiet_state 4096)
                (plan_asc 4 (Some 7)) three_runs false =
              Emitted (firstn 4 (skipn 7 (map row1 [1; 2; 3; 4; 5; 6]))))
    by (vm_compute; reflexivity).
  exact (offset_beyond_input limited_sorter 2 1000 (fun _ => 0) (quiet_state 4096)
           (plan_asc 4 (Some 7)) three_runs false _ H1 H2 E).
Defined.

(** X5.  Without a limit or with a positive one, the operator emits rows of
    the child only, materialized, and none more often than the child
    delivered it: the emitted rows together with some others are a
    permutation of the rows of the child. *)
Theorem emitted_rows_from_upstream (sorter : Sorter) (SIZE BYTES : Z) (bytes : Block -> Z)
    (state : RuntimeState) (tnode : TPlanNode) (child : list ChildResult)
    (mem_reuse : bool) (out : list Row) :
  limit tnode = -1 \/ 0 < limit tnode ->
  0 <= plan_offset tnode ->
  run_operator sorter SIZE BYTES bytes state tnode child mem_reuse = Emitted out ->
  exists others,
    Permutation (out ++ others) (sort_input_block (fresh tnode) (upstream_rows child)).
Proof.
  intros Hl Hoff E.
  destruct (operator_emits_rows sorter SIZE BYTES bytes state tnode child mem_reuse out Hoff E)
    as (n & R & rest & Ho & Hp & -> & _).
  pose proof (open_runs_hold sorter SIZE BYTES bytes state tnode child n Hl Ho) as Hh.
  destruct (cut_to_limit_split n (skipn (Z.to_nat (plan_offset tnode)) R)) as [tail Ht].
  exists (tail ++ firstn (Z.to_nat (plan_offset tnode)) R ++ rest).
  rewrite <- Hh, <- Hp, app_assoc, <- Ht, app_assoc.
  apply Permutation_app_tail.
  rewrite Permutation_app_comm, firstn_skipn. reflexivity.
Qed.

Lemma emitted_rows_from_upstream_witness :
  exists others,
    Permutation (map row1 [2; 3] ++ others)
      (sort_input_block (fresh (plan_asc 2 (Some 1))) (upstream_rows three_runs)).
Proof.
  assert (H1 : limit (plan_asc 2 (Some 1)) = -1 \/ 0 < limit (plan_asc 2 (Some 1)))
    by (right; simpl; lia).
  assert (H2 : 0 <= plan_offset (plan_asc 2 (Some 1))) by (unfold plan_offset; simpl; lia).
  assert (E : run_operator limited_sorter 2 1000 (fun _ => 0) (quiet_state 4096)
                (plan_asc 2 (Some 1)) three_runs false = Emitted (map row1 [2; 3]))
    by (vm_compute; reflexivity).
  exact (emitted_rows_from_upstream limited_sorter 2 1000 (fun _ => 0) (quiet_state 4096)
           (plan_asc 2 (Some 1)) three_runs false _ H1 H2 E).
Defined.

(** X6.  Without a limit the operator emits every row of the child but the
    ones the offset skips: the skipped rows, [offset] of them or all the
    rows if there are fewer, and the emitted ones are a permutation of the
    materialized rows of the child; with offset 0 the emitted rows are
    that permutation. *)
Theorem plain_sort_emits_all_rows (sorter : Sorter) (SIZE BYTES : Z) (bytes : Block -> Z)
    (state : RuntimeState) (tnode : TPlanNode) (child : list ChildResult)
    (mem_reuse : bool) (out : list Row) :
  limit tnode = -1 ->
  0 <= plan_offset tnode ->
  batch_size state <> 0 \/ plan_offset tnode = 0 ->
  run_operator sorter SIZE BYTES bytes state tnode child mem_reuse = Emitted out ->
  exists skipped,
    Permutation (skipped ++ out) (sort_input_block (fresh tnode) (upstream_rows child)) /\
    rows skipped = Z.min (plan_offset tnode) (rows (upstream_rows child)).
Proof.
  intros Hl Hoff Hb E.
  destruct (operator_emits_rows sorter SIZE BYTES bytes state tnode child mem_reuse out Hoff E)
    as (n & R & rest & Ho & Hp & -> & Hln & _ & Ht).
  pose proof (open_runs_hold sorter SIZE BYTES bytes state tnode child n (or_introl Hl) Ho)
    as Hh.
  destruct (Ht Hb) as [->|[Hc _]]; [|contradiction].
  rewrite app_nil_r in Hp.
  rewrite cut_to_limit_plain by (rewrite Hln; exact Hl).
  exists (firstn (Z.to_nat (plan_offset tnode)) R). rewrite firstn_skipn. split.
  - exact (Permutation_trans Hp Hh).
  - assert (HR : rows R = rows (upstream_rows child)).
    { rewrite <- (rows_sort_input_block (fresh tnode) (upstream_rows child)).
      unfold rows. f_equal.
      apply Permutation_length. exact (Permutation_trans Hp Hh). }
    rewrite <- HR. unfold rows. rewrite length_firstn. lia.
Qed.

Lemma plain_sort_emits_all_rows_witness :
  exists skipped,
    Permutation (skipped ++ map row1 [0; 1; 2; 3; 7; 9])
      (sort_input_block (fresh (plan_asc (-1) None)) (upstream_rows three_uneven_runs)) /\
    rows skipped = Z.min (plan_offset (plan_asc (-1) None))
                     (rows (upstream_rows three_uneven_runs)).
Proof.
  assert (H1 : limit (plan_asc (-1) None) = -1) by reflexivity.
  assert (H2 : 0 <= plan_offset (plan_asc (-1) None)) by (unfold plan_offset; simpl; lia).
  assert (H3 : batch_size (quiet_state 2) <> 0 \/ plan_offset (plan_asc (-1) None) = 0)
    by (right; reflexivity).
  assert (E : run_operator limited_sorter 1 1000 (fun _ => 0) (quiet_state 2)
                (plan_asc (-1) None) three_uneven_runs true =
              Emitted (map row1 [0; 1; 2; 3; 7; 9]))
    by (vm_compute; reflexivity).
  exact (plain_sort_emits_all_rows limited_sorter 1 1000 (fun _ => 0) (quiet_state 2)
           (plan_asc (-1) None) three_uneven_runs true _ H1 H2 H3 E).
Defined.

(** X7.  The number of emitted rows: of the [N] rows of the child, the
    [max 0 (N - offset)] that the offset leaves, and with a positive limit
    no more than the limit. *)
Theorem emitted_row_count (sorter : Sorter) (SIZE BYTES : Z) (bytes : Block -> Z)
    (state : RuntimeState) (tnode : TPlanNode) (child : list ChildResult)
    (mem_reuse : bool) (out : list Row) :
  limit tnode = -1 \/ 0 < limit tnode ->
  0 <= plan_offset tnode ->
  batch_size state <> 0 \/ plan_offset tnode = 0 ->
  run_operator sorter SIZE BYTES bytes state tnode child mem_reuse = Emitted out ->
  let available := Z.max 0 (rows (upstream_rows child) - plan_offset tnode) in
  rows out = (if limit tnode =? -1 then available else Z.min (limit tnode) available).
Proof.
  intros Hl Hoff Hb E.
  destruct (operator_emits_rows sorter SIZE BYTES bytes state tnode child mem_reuse out Hoff E)
    as (n & R & rest & Ho & Hp & -> & Hln & Hret & Ht).
  pose proof (open_runs_hold sorter SIZE BYTES bytes state tnode child n Hl Ho) as Hh.
  assert (HR : rows R + rows rest = rows (upstream_rows child)).
  { rewrite <- (rows_sort_input_block (fresh tnode) (upstream_rows child)), <- rows_app.
    unfold rows. f_equal.
    apply Permutation_length. rewrite Hp. exact Hh. }
  assert (Hsk : rows (skipn (Z.to_nat (plan_offset tnode)) R) =
                Z.max 0 (rows R - plan_offset tnode)).
  { unfold rows. rewrite length_skipn. lia. }
  assert (Hrest : 0 <= rows rest) by (unfold rows; lia).
  cbv zeta. destruct (Z.eqb_spec (limit tnode) (-1)) as [Hm|Hm].
  - rewrite cut_to_limit_plain by (rewrite Hln; exact Hm).
    destruct (Ht Hb) as [->|[Hc _]]; [|contradiction].
    change (rows []) with 0 in HR. lia.
  - rewrite cut_to_limit_firstn by (rewrite ?Hln; assumption). rewrite Hln.
    assert (Hf : rows (firstn (Z.to_nat (limit tnode))
                         (skipn (Z.to_nat (plan_offset tnode)) R)) =
                 Z.min (limit tnode) (rows (skipn (Z.to_nat (plan_offset tnode)) R))).
    { unfold rows. rewrite length_firstn. lia. }
    rewrite Hf. destruct (Ht Hb) as [->|[_ Hc]].
    + change (rows []) with 0 in HR. lia.
    + lia.
Qed.

Lemma emitted_row_count_witness :
  rows (map row1 [1; 2; 3; 7]) =
  (if limit (plan_asc 4 (Some 1)) =? -1
   then Z.max 0 (rows (upstream_rows three_uneven_runs) - plan_offset (plan_asc 4 (Some 1)))
   else Z.min (limit (plan_asc 4 (Some 1)))
          (Z.max 0 (rows (upstream_rows three_uneven_runs) -
                    plan_offset (plan_asc 4 (Some 1))))).
Proof.
  assert (H1 : limit (plan_asc 4 (Some 1)) = -1 \/ 0 < limit (plan_asc 4 (Some 1)))
    by (right; simpl; lia).
  assert (H2 : 0 <= plan_offset (plan_asc 4 (Some 1))) by (unfold plan_offset; simpl; lia).
  assert (H3 : batch_size (quiet_state 2) <> 0 \/ plan_offset (plan_asc 4 (Some 1)) = 0)
    by (left; simpl; lia).
  assert (E : run_operator limited_sorter 1 1000 (fun _ => 0) (quiet_state 2)
                (plan_asc 4 (Some 1)) three_uneven_runs true =
              Emitted (map row1 [1; 2; 3; 7]))
    by (vm_compute; reflexivity).
  exact (emitted_row_count limited_sorter 1 1000 (fun _ => 0) (quiet_state 2)
           (plan_asc 4 (Some 1)) three_uneven_runs true _ H1 H2 H3 E).
Defined.

(** When the calls of [open] return OK, without cancellation and
    query-state errors, [open] is the build. *)
Lemma opens_sort_input (sorter : Sorter) (SIZE BYTES : Z) (bytes : Block -> Z)
    (state : RuntimeState) (child : list ChildResult) (n : VSortNode) :
  opens state -> undisturbed state ->
  open sorter SIZE BYTES bytes state child n =
  sort_input_loop sorter SIZE BYTES bytes state child n.
Proof.
  intros (H1 & H2 & H3) Hq. unfold open. destruct (Hq (_clock n)) as [Hc Hs].
  rewrite H1, H2, Hc, Hs, H3. reflexivity.
Qed.

Lemma fresh_admitting (tnode : TPlanNode) :
  limit tnode = -1 \/ 0 < limit tnode -> admitting (fresh tnode).
Proof.
  unfold admitting, fresh. simpl.
  intros [Hl|Hl]; [left; exact Hl | right; split; [exact Hl | reflexivity]].
Qed.

(** X8.  When the calls that [open] makes before the build return OK, the
    query is never cancelled and its state never in error, and no
    expression fails, then, without a limit or with a positive one, [open]
    returns the first error among the answers of the child, and OK when
    there is none; what the child would answer after an error is not looked
    at. *)
Theorem build_returns_first_error (sorter : Sorter) (SIZE BYTES : Z) (bytes : Block -> Z)
    (state : RuntimeState) (tnode : TPlanNode) (child : list ChildResult) :
  opens state ->
  undisturbed state ->
  unfailing (sort_info_exprs tnode) ->
  limit tnode = -1 \/ 0 < limit tnode ->
  fst (open sorter SIZE BYTES bytes state child (fresh tnode)) =
    Returned (first_error child).
Proof.
  intros Ho Hq He Hl. rewrite opens_sort_input by assumption.
  apply undisturbed_loop; [exact Hq|].
  split; [apply fresh_admitting; exact Hl | exact He].
Qed.

Lemma quiet_state_opens (batch : Z) : opens (quiet_state batch).
Proof.
  repeat split.
Qed.

Lemma quiet_state_undisturbed (batch : Z) : undisturbed (quiet_state batch).
Proof.
  intros t. split; reflexivity.
Qed.

Lemma plan_asc_unfailing (lim : Z) (off : option Z) :
  unfailing (sort_info_exprs (plan_asc lim off)).
Proof.
  split; intros e b H; simpl in H; [contradiction|].
  destruct H as [<-|[]]. reflexivity.
Qed.

Lemma build_returns_first_error_witness :
  fst (open limited_sorter 2 1000 (fun _ => 0) (quiet_state 4096)
         (three_runs ++ [ChildError 7; ChildBlock (map row1 [8])])
         (fresh (plan_asc 3 None))) =
    Returned (UpstreamError 7).
Proof.
  assert (H : limit (plan_asc 3 None) = -1 \/ 0 < limit (plan_asc 3 None))
    by (right; simpl; lia).
  exact (build_returns_first_error limited_sorter 2 1000 (fun _ => 0) (quiet_state 4096)
           (plan_asc 3 None) (three_runs ++ [ChildError 7; ChildBlock (map row1 [8])])
           (quiet_state_opens 4096) (quiet_state_undisturbed 4096)
           (plan_asc_unfailing 3 None) H).
Defined.

(** X9.  Under the same conditions, with a non-negative offset and a child
    that answers no error, the build succeeds and the consumer's loop ends:
    the operator emits. *)
Theorem undisturbed_operator_emits (sorter : Sorter) (SIZE BYTES : Z) (bytes : Block -> Z)
    (state : RuntimeState) (tnode : TPlanNode) (child : list ChildResult)
    (mem_reuse : bool) :
  opens state ->
  undisturbed state ->
  unfailing (sort_info_exprs tnode) ->
  limit tnode = -1 \/ 0 < limit tnode ->
  0 <= plan_offset tnode ->
  first_error child = OK ->
  exists out, run_operator sorter SIZE BYTES bytes state tnode child mem_reuse = Emitted out.
Proof.
  intros Hop Hq He Hl Hoff Hc.
  pose proof (run_operator_emits sorter SIZE BYTES bytes state tnode child mem_reuse Hoff) as H.
  assert (Ho : fst (open sorter SIZE BYTES bytes state child (fresh tnode)) = Returned OK).
  { rewrite <- Hc, opens_sort_input by assumption.
    apply undisturbed_loop; [exact Hq|].
    split; [apply fresh_admitting; exact Hl | exact He]. }
  revert H. unfold run_operator. fold (fresh tnode).
  destruct (open sorter SIZE BYTES bytes state child (fresh tnode)) as [r n].
  simpl in Ho. subst r.
  destruct (pull _ state n mem_reuse) as [blocks|]; [|contradiction].
  intros _. eexists. reflexivity.
Qed.

Lemma undisturbed_operator_emits_witness :
  exists out,
    run_operator limited_sorter 1 1000 (fun _ => 0) (quiet_state 2) (plan_asc 4 (Some 1))
      three_uneven_runs true = Emitted out.
Proof.
  assert (H1 : limit (plan_asc 4 (Some 1)) = -1 \/ 0 < limit (plan_asc 4 (Some 1)))
    by (right; simpl; lia).
  assert (H2 : 0 <= plan_offset (plan_asc 4 (Some 1))) by (unfold plan_offset; simpl; lia).
  assert (H3 : first_error three_uneven_runs = OK) by reflexivity.
  exact (undisturbed_operator_emits limited_sorter 1 1000 (fun _ => 0) (quiet_state 2)
           (plan_asc 4 (Some 1)) three_uneven_runs true (quiet_state_opens 2)
           (quiet_state_undisturbed 2) (plan_asc_unfailing 4 (Some 1)) H1 H2 H3).
Defined.

(** X10.  Every run buffer that the build extracts, but possibly the last
    one, has reached a threshold: it holds [BUFFERED_BLOCK_SIZE] rows at
    least or [BUFFERED_BLOCK_BYTES] bytes at least.  This holds however the
    build ends. *)
Theorem runs_reach_threshold (sorter : Sorter) (SIZE BYTES : Z) (bytes : Block -> Z)
    (state : RuntimeState) (tnode : TPlanNode) (child : list ChildResult) :
  Forall (reached_threshold SIZE BYTES bytes)
    (removelast
       (extracted_unsorted
          (_events (snd (open sorter SIZE BYTES bytes state child (fresh tnode)))))).
Proof.
  destruct (open_cases sorter SIZE BYTES bytes state child (fresh tnode))
    as [(s & _ & E)|E]; rewrite E; [constructor|].
  apply thresholds_loop. constructor.
Qed.

(** X11.  However the build ends, [_total_mem_usage] is the sum of the
    allocated bytes of the run buffers it has extracted; no branch gives
    any of it back. *)
Theorem mem_usage_counts_runs (sorter : Sorter) (SIZE BYTES : Z) (bytes : Block -> Z)
    (state : RuntimeState) (tnode : TPlanNode) (child : list ChildResult) :
  let n := snd (open sorter SIZE BYTES bytes state child (fresh tnode)) in
  _total_mem_usage n = bytes_of bytes (extracted_unsorted (_events n)).
Proof.
  destruct (open_cases sorter SIZE BYTES bytes state child (fresh tnode))
    as [(s & _ & E)|E]; rewrite E; [reflexivity|].
  apply mem_usage_loop. reflexivity.
Qed.

(** X12.  After a build that returned OK, without a limit or with a positive
    one: the pruning heap holds one cursor per run, at its first row, in
    top-N mode, and nothing in plain-sort mode; [_cursors] holds one cursor
    per run in the order of the runs; the merge queue holds these cursors
    when there are two runs or more and is empty otherwise. *)
Theorem heaps_mirror_runs (sorter : Sorter) (SIZE BYTES : Z) (bytes : Block -> Z)
    (state : RuntimeState) (tnode : TPlanNode) (child : list ChildResult) (n : VSortNode) :
  limit tnode = -1 \/ 0 < limit tnode ->
  open sorter SIZE BYTES bytes state child (fresh tnode) = (Returned OK, n) ->
  let cursors := map (fun b => new_SortCursorImpl b (fill_sort_description (fresh tnode)))
                     (_sorted_blocks n) in
  _block_priority_queue n = (if limit tnode =? -1 then [] else cursors) /\
  _cursors n = cursors /\
  _priority_queue n = (if (1 <? length (_sorted_blocks n))%nat then cursors else []).
Proof.
  intros Hl E. apply open_sort_input in E.
  assert (H0 : heaped (sort_info_is_asc_order tnode) (sort_info_nulls_first tnode)
                 (sort_info_exprs tnode) (fresh tnode)).
  { unfold heaped, admitting, fresh. simpl.
    repeat split; try reflexivity; [|left; reflexivity|destruct (limit tnode =? -1); reflexivity].
    destruct Hl as [Hl|Hl]; [left; exact Hl | right; split; [exact Hl | reflexivity]]. }
  pose proof (heaped_loop sorter SIZE BYTES bytes state _ _ _ child (fresh tnode) H0) as B.
  cbv zeta in B. rewrite E in B. simpl in B.
  assert (Hlim : _limit n = limit tnode).
  { pose proof (built_loop sorter SIZE BYTES bytes state _ _ _ _ _ child (fresh tnode)
                  (fresh_built tnode)) as R.
    cbv zeta in R. rewrite E in R. destruct (R eq_refl) as (Hlim & _). exact Hlim. }
  rewrite Hlim in B. exact (B eq_refl).
Qed.

Lemma heaps_mirror_runs_witness :
  let n := snd (open limited_sorter 2 1000 (fun _ => 0) (quiet_state 4096) three_runs
                  (fresh (plan_asc 3 None))) in
  let cursors := map (fun b => new_SortCursorImpl b
                                 (fill_sort_description (fresh (plan_asc 3 None))))
                     (_sorted_blocks n) in
  _block_priority_queue n = (if limit (plan_asc 3 None) =? -1 then [] else cursors) /\
  _cursors n = cursors /\
  _priority_queue n = (if (1 <? length (_sorted_blocks n))%nat then cursors else []).
Proof.
  assert (H : limit (plan_asc 3 None) = -1 \/ 0 < limit (plan_asc 3 None))
    by (right; simpl; lia).
  assert (E : open limited_sorter 2 1000 (fun _ => 0) (quiet_state 4096) three_runs
                (fresh (plan_asc 3 None)) =
              (Returned OK,
               snd (open limited_sorter 2 1000 (fun _ => 0) (quiet_state 4096) three_runs
                      (fresh (plan_asc 3 None)))))
    by (vm_compute; reflexivity).
  exact (heaps_mirror_runs limited_sorter 2 1000 (fun _ => 0) (quiet_state 4096)
           (plan_asc 3 None) three_runs _ H E).
Defined.

(** * A child without rows *)

Section EmptyInput.

Variable sorter : Sorter.
Variable BUFFERED_BLOCK_SIZE : Z.
Variable BUFFERED_BLOCK_BYTES : Z.
Variable allocated_bytes : Block -> Z.
Variable state : RuntimeState.

Lemma dispose_idle (n : VSortNode) :
  _unsorted_block n = [] -> dispose_run sorter allocated_bytes state n = Next n.
Proof.
  intros H. unfold dispose_run. rewrite H. reflexivity.
Qed.

Lemma empty_loop (child : list ChildResult) :
  forall n,
    first_error child = OK -> upstream_rows child = [] -> _unsorted_block n = [] ->
    let res := sort_input_loop sorter BUFFERED_BLOCK_SIZE BUFFERED_BLOCK_BYTES
                 allocated_bytes state child n in
    fst res = Returned OK /\ _sorted_blocks (snd res) = _sorted_blocks n /\
    _events (snd res) = _events n.
Proof.
  induction child as [|c rest IH]; intros n He Hr Hu; simpl.
  - rewrite dispose_idle by exact Hu. simpl.
    destruct (build_merge_tree_frame (tick n)) as (_ & -> & ->). repeat split.
  - destruct c as [b|code]; [|discriminate]. simpl in He, Hr.
    apply app_eq_nil in Hr. destruct Hr as [-> Hr].
    assert (Hm : merge_upstream (tick n) [] = tick n) by reflexivity.
    rewrite Hm.
    assert (G : forall m, let res := sort_input_loop sorter BUFFERED_BLOCK_SIZE
                            BUFFERED_BLOCK_BYTES allocated_bytes state rest (tick m) in
                _unsorted_block m = [] ->
                fst res = Returned OK /\ _sorted_blocks (snd res) = _sorted_blocks m /\
                _events (snd res) = _events m).
    { intros m res Hm'. apply (IH (tick m) He Hr). exact Hm'. }
    destruct (keep_accumulating _ _ _ _ _); [apply G; exact Hu|].
    rewrite dispose_idle by exact Hu.
    destruct rest; [|apply G; exact Hu].
    cbn [fst snd]. destruct (build_merge_tree_frame (tick n)) as (_ & -> & ->).
    repeat split.
Qed.

End EmptyInput.

(** X14.  A child that delivers no row: when the calls that [open] makes
    before the build return OK, [open] passes its two checkpoints and the
    child answers no error, the operator emits nothing,
    whatever the limit, the offset and the batch size; no run is extracted
    and no checkpoint of the build is reached, so a cancellation during the
    build goes unnoticed. *)
Theorem empty_input_emits_nothing (sorter : Sorter) (SIZE BYTES : Z) (bytes : Block -> Z)
    (state : RuntimeState) (tnode : TPlanNode) (child : list ChildResult)
    (mem_reuse : bool) :
  opens state ->
  is_cancelled state 0 = false -> check_query_state state 0 = OK ->
  first_error child = OK -> upstream_rows child = [] ->
  run_operator sorter SIZE BYTES bytes state tnode child mem_reuse = Emitted [] /\
  _events (snd (open sorter SIZE BYTES bytes state child (fresh tnode))) = [].
Proof.
  intros (Ho1 & Ho2 & Ho3) Hc Hs He Hr. unfold run_operator. fold (fresh tnode).
  unfold open. change (_clock (fresh tnode)) with 0%nat.
  rewrite Ho1, Ho2, Hc, Hs, Ho3. unfold return_if_error, sort_input.
  destruct (empty_loop sorter SIZE BYTES bytes state child (fresh tnode) He Hr eq_refl)
    as (H1 & H2 & H3).
  destruct (sort_input_loop sorter SIZE BYTES bytes state child (fresh tnode)) as [r n].
  simpl in H1, H2, H3. subst r. split; [|exact H3].
  cbn [pull]. pose proof (get_next_no_run state n mem_reuse H2) as G.
  destruct (get_next state n [] mem_reuse false) as [[[s n1] out] eos].
  destruct G as [-> ->]. reflexivity.
Qed.

Lemma empty_input_emits_nothing_witness :
  run_operator limited_sorter 2 1000 (fun _ => 0) cancelled_later (plan_asc 0 (Some 5))
    [ChildBlock []; ChildBlock []; ChildBlock []] false = Emitted [] /\
  _events (snd (open limited_sorter 2 1000 (fun _ => 0) cancelled_later
                  [ChildBlock []; ChildBlock []; ChildBlock []]
                  (fresh (plan_asc 0 (Some 5))))) = [].
Proof.
  exact (empty_input_emits_nothing limited_sorter 2 1000 (fun _ => 0) cancelled_later
           (plan_asc 0 (Some 5)) [ChildBlock []; ChildBlock []; ChildBlock []] false
           (conj eq_refl (conj eq_refl eq_refl)) eq_refl eq_refl eq_refl eq_refl).
Defined.

(** * Top-N with an offset *)




(** * The debug string *)

Lemma append_inv_head (s a b : string) : (s ++ a = s ++ b)%string -> a = b.
Proof.
  induction s as [|c s IH]; simpl; intros H; [exact H|].
  injection H as H. apply IH. exact H.
Qed.

Lemma string_length_append (a b : string) :
  String.length (a ++ b) = (String.length a + String.length b)%nat.
Proof.
  induction a as [|c a IH]; simpl; [reflexivity|]. rewrite IH. reflexivity.
Qed.

Lemma append_inv_tail (t : string) :
  forall a b : string, (a ++ t = b ++ t)%string -> a = b.
Proof.
  induction a as [|c a IH]; intros b H; destruct b as [|c' b]; simpl in H.
  - reflexivity.
  - apply (f_equal String.length) in H. simpl in H. rewrite string_length_append in H. lia.
  - apply (f_equal String.length) in H. simpl in H. rewrite string_length_append in H. lia.
  - injection H as Hc H. subst c'. f_equal. apply IH. exact H.
Qed.

Lemma keys_text_cons (first : nat) (a n : bool) (asc nulls : list bool) :
  keys_text first (a :: asc) (n :: nulls) =
  (key_text first a n ++ keys_text (S first) asc nulls)%string.
Proof.
  unfold keys_text. cbn [length seq map write_all nth].
  rewrite Nat.add_0_r. f_equal. f_equal.
  rewrite <- seq_shift, map_map. apply map_ext. intros i.
  rewrite Nat.add_succ_r. reflexivity.
Qed.

Lemma keys_text_inj (asc : list bool) :
  forall asc' nulls nulls' first,
    length nulls = length asc -> length nulls' = length asc' ->
    keys_text first asc nulls = keys_text first asc' nulls' ->
    asc = asc' /\ nulls = nulls'.
Proof.
  induction asc as [|a asc IH]; intros asc' nulls nulls' first Hn Hn' H;
    destruct nulls as [|n nulls]; try discriminate Hn;
    destruct asc' as [|a' asc']; destruct nulls' as [|n' nulls']; try discriminate Hn'.
  - split; reflexivity.
  - rewrite keys_text_cons in H. unfold key_text in H.
    destruct (0 <? first)%nat, a', n'; discriminate H.
  - rewrite keys_text_cons in H. unfold key_text in H.
    destruct (0 <? first)%nat, a, n; discriminate H.
  - rewrite !keys_text_cons in H. unfold key_text in H.
    simpl in Hn, Hn'.
    assert (G : a = a' /\ n = n' /\
                keys_text (S first) asc nulls = keys_text (S first) asc' nulls').
    { destruct (0 <? first)%nat, a, a', n, n'; simpl in H; try discriminate H;
        (split; [reflexivity|]); (split; [reflexivity|]);
        repeat match type of H with
               | String _ _ = String _ _ => injection H as H
               end; exact H. }
    destruct G as (-> & -> & G).
    destruct (IH asc' nulls nulls' (S first)) as [-> ->]; try lia; [exact G|].
    split; reflexivity.
Qed.

(** X16.  The debug string tells the sort keys: two operators whose
    [_nulls_first] is as long as their [_is_asc_order], printed at the same
    non-negative indentation level after the same base-class text, give the
    same string only if they agree on the direction and on the nulls
    position of every key. *)
Theorem debug_string_tells_keys (base : Z -> string) (a b : VSortNode)
    (indentation_level : Z) (out : string) :
  0 <= indentation_level ->
  length (_nulls_first a) = length (_is_asc_order a) ->
  length (_nulls_first b) = length (_is_asc_order b) ->
  debug_string base a indentation_level out = debug_string base b indentation_level out ->
  _is_asc_order a = _is_asc_order b /\ _nulls_first a = _nulls_first b.
Proof.
  intros Hl Ha Hb. unfold debug_string.
  destruct (Z.ltb_spec indentation_level 0) as [Hneg|_]; [lia|].
  intros H.
  assert (G : forall x y : string, Some x = Some y -> x = y)
    by (intros x y E; injection E as E; exact E).
  apply G in H. do 3 apply append_inv_head in H.
  apply (keys_text_inj _ _ _ _ 0%nat Ha Hb).
  apply (append_inv_tail (base indentation_level ++ ")")). exact H.
Qed.

Lemma debug_string_tells_keys_witness :
  _is_asc_order (fresh (plan_asc 3 None)) = _is_asc_order (fresh (plan_asc (-1) (Some 2))) /\
  _nulls_first (fresh (plan_asc 3 None)) = _nulls_first (fresh (plan_asc (-1) (Some 2))).
Proof.
  assert (H : 0 <= 1) by lia.
  exact (debug_string_tells_keys (fun _ => " tuple_ids=[0]"%string)
           (fresh (plan_asc 3 None)) (fresh (plan_asc (-1) (Some 2))) 1 EmptyString
           H eq_refl eq_refl eq_refl).
Defined.
